(** * The validation engine of Data Alchemist, embedded and verified

    Source: [src/lib/validation-engine.ts] (class [ValidationEngine]), the
    record shapes and the reducer of [data-context.ts], and the counters of
    the validation and export panels.

    Conventions of the embedding.
    - A scalar field ([PriorityLevel], [Duration], [MaxLoadPerPhase],
      [MaxConcurrent]) is an integer of [Z]; the engine only compares these
      and adds them up.  [Number_toString] prints an integer the way a
      template literal does up to 2^53.
    - An element of [AvailableSlots] or [PreferredPhases] is a [Number]: an
      integer, a decimal fraction, [NaN] or an infinity, since the engine
      tests these elements for integrality and uses them as property names.
      [toString] gives the text JavaScript prints for it and [parseInt]
      reads a text back, as the saturation check does with the names of its
      tally.
    - A per-phase total is an [Amount]: sums are rounded to the nearest
      double as JavaScript rounds them ([double]), and overflow to an
      infinity.
    - An identifier or a name is [option string]: [None] is an absent
      ([undefined]) field, [Some ""] an empty one; both are falsy.
    - A list-valued field is [option (list _)]: [None] is an absent field, on
      which a property read ([.forEach], [.length], [.every], [.includes])
      raises a [TypeError].
    - The engine is a class with three private fields; its methods read them
      through [this].  Methods are computations in a state-and-exception
      monad over [World], which holds these fields and the number of draws
      made from [Math.random] so far. *)

From stdpp Require Import base option list strings gmap sorting pretty.
From Stdlib Require Import Ascii.

Local Open Scope Z_scope.
Set Warnings "-clear-no-such-hyp".

(** ** Numbers held in the lists

    [Int n] is the integer [n].  [Dec s x] is the number [s / 10^x], written
    with the digits JavaScript prints for it: 1.5 is [Dec 15 1] and 1e-7 is
    [Dec 1 7].  The primitives read it in lowest terms ([shortest]), so that
    [Dec 10 1], which is 1.0, is the integer 1.  Likewise an integer of
    10^21 or more is given with the digits JavaScript prints for it: the
    double nearest to 10^23 is [Int (10^23)]. *)
Inductive Number :=
  | Int (n : Z)
  | Dec (s : Z) (x : positive)
  | NaN
  | Infinity
  | MinusInfinity.
Coercion Int : Z >-> Number.

Global Instance Number_eq_dec : EqDecision Number.
Proof. solve_decision. Defined.

(** ** Record model ([data-context.ts]) *)

Record Client := {
  ClientID : option string;
  ClientName : option string;
  PriorityLevel : Z;
  RequestedTaskIDs : option (list string);
  GroupTag : string;
  AttributesJSON : string;
}.

Record Worker := {
  WorkerID : option string;
  WorkerName : option string;
  Skills : option (list string);
  AvailableSlots : option (list Number);
  MaxLoadPerPhase : Z;
  WorkerGroup : string;
  QualificationLevel : Z;
}.

Record Task := {
  TaskID : option string;
  TaskName : option string;
  Category : string;
  Duration : Z;
  RequiredSkills : option (list string);
  PreferredPhases : option (list Number);
  MaxConcurrent : Z;
}.

Inductive Severity := error | warning | info.

Record ValidationError := {
  id : string;
  type : string;
  entity : string;
  entityId : option string;
  field : string;
  message : string;
  severity : Severity;
}.

Global Instance Severity_eq_dec : EqDecision Severity.
Proof. solve_decision. Defined.

Global Instance ValidationError_eq_dec : EqDecision ValidationError.
Proof. solve_decision. Defined.

(** ** JavaScript primitives used by the engine *)

(** [!x] on a string-or-undefined value. *)
Definition falsy (x : option string) : bool :=
  match x with
  | None => true
  | Some s => bool_decide (s = "")
  end.

(** [x || d] on a string-or-undefined value. *)
Definition or_else (x : option string) (d : string) : string :=
  match x with
  | None => d
  | Some s => if bool_decide (s = "") then d else s
  end.

(** [${x}] for a string-or-undefined value. *)
Definition String_of (x : option string) : string :=
  match x with
  | None => "undefined"
  | Some s => s
  end.

(** [${n}] for an integer. *)
Definition Number_toString (n : Z) : string := pretty n.

(** [s / 10^x] without the trailing zeros of [s]: an integer when none of
    the [x] places is left. *)
Fixpoint lowest (s : Z) (x : nat) : Number :=
  match x with
  | O => Int s
  | S x' =>
      if decide (s mod 10 = 0) then lowest (s / 10) x' else Dec s (Pos.of_nat x)
  end.

(** The shortest way of writing a number: [Dec 10 1], which is 1.0, is
    [Int 1]. *)
Definition shortest (q : Number) : Number :=
  match q with
  | Dec s x => lowest s (Pos.to_nat x)
  | _ => q
  end.

(** [Number.isInteger(x)]. *)
Definition Number_isInteger (x : Number) : bool :=
  match shortest x with
  | Int _ => true
  | _ => false
  end.

(** A finite number as [s / 10^a]. *)
Definition scaled (x : Number) : option (Z * Z) :=
  match x with
  | Int n => Some (n, 0)
  | Dec s x => Some (s, Z.pos x)
  | _ => None
  end.

(** [x < y]: false as soon as one side is [NaN]. *)
Definition Number_lt (x y : Number) : bool :=
  match x, y with
  | NaN, _ | _, NaN => false
  | _, MinusInfinity | Infinity, _ => false
  | MinusInfinity, _ | _, Infinity => true
  | _, _ =>
      match scaled x, scaled y with
      | Some (s, a), Some (t, b) => bool_decide (s * 10 ^ b < t * 10 ^ a)
      | _, _ => false
      end
  end.

Fixpoint zeros (n : nat) : string :=
  match n with
  | O => ""
  | S n => String "0" (zeros n)
  end.

Fixpoint drop_zeros (s : string) : string :=
  match s with
  | String "0" rest => drop_zeros rest
  | _ => s
  end.

(** The digits without their trailing zeros. *)
Definition significant (digits : string) : string :=
  String.rev (drop_zeros (String.rev digits)).

(** The form [d.ddde+N] of a number with the given digits and exponent. *)
Definition exponential (digits : string) (e : Z) : string :=
  match digits with
  | String d rest =>
      String d (if decide (rest = "") then "" else "." +:+ rest)
        +:+ "e" +:+ (if decide (0 ≤ e) then "+" else "-") +:+ pretty (Z.abs e)
  | EmptyString => ""
  end.

(** [${x}] and the property name [x] stands for: [Number::toString].  An
    integer below 10^21 is printed in full; with [k] digits and [n] of them
    before the point, a fraction is printed with a point when [0 < n ≤ 21],
    with leading zeros when [-6 < n ≤ 0], and in exponential form
    otherwise, as is an integer from 10^21 on. *)
Definition toString (x : Number) : string :=
  match shortest x with
  | Int n =>
      if decide (Z.abs n < 10 ^ 21) then pretty n
      else
        let digits := pretty (Z.abs n) in
        (if decide (n < 0) then "-" else "")
          +:+ exponential (significant digits)
                (Z.of_nat (String.length digits) - 1)
  | Dec s x =>
      let digits := pretty (Z.abs s) in
      let k := Z.of_nat (String.length digits) in
      let n := k - Z.pos x in
      (if decide (s < 0) then "-" else "")
        +:+ (if decide (0 < n ≤ 21) then
               String.substring 0 (Z.to_nat n) digits +:+ "."
                 +:+ String.substring (Z.to_nat n) (Z.to_nat (k - n)) digits
             else if decide (-6 < n ≤ 0) then
               "0." +:+ zeros (Z.to_nat (- n)) +:+ digits
             else exponential digits (n - 1))
  | NaN => "NaN"
  | Infinity => "Infinity"
  | MinusInfinity => "-Infinity"
  end.

(** The value of a decimal digit, from its character code. *)
Definition digit_value (c : ascii) : option Z :=
  let code := Z.of_N (N_of_ascii c) in
  if decide (48 ≤ code ≤ 57) then Some (code - 48) else None.

(** The value of the longest prefix of decimal digits, [None] when the text
    does not start with a digit. *)
Fixpoint parse_digits (acc : option Z) (s : string) : option Z :=
  match s with
  | String c rest =>
      match digit_value c with
      | Some d => parse_digits (Some (default 0 acc * 10 + d)) rest
      | None => acc
      end
  | EmptyString => acc
  end.

(** [parseInt(s)] on the name of a property: an optional sign, then the
    longest prefix of decimal digits, [NaN] when there is none.  (The engine
    applies it to the texts of numbers only, which have neither leading
    blanks nor a radix prefix.) *)
Definition parseInt (s : string) : Number :=
  match s with
  | String c rest =>
      if decide (c = "-"%char) then
        match parse_digits None rest with
        | Some v => Int (- v)
        | None => NaN
        end
      else if decide (c = "+"%char) then
        match parse_digits None rest with
        | Some v => Int v
        | None => NaN
        end
      else
        match parse_digits None s with
        | Some v => Int v
        | None => NaN
        end
  | EmptyString => NaN
  end.

(** [errors.push(e)]. *)
Definition push {A} (arr : list A) (x : A) : list A := arr ++ [x].

(** A total: an integer or an infinity. *)
Inductive Amount :=
  | Finite (n : Z)
  | Infinite (negative : bool).
Coercion Finite : Z >-> Amount.

Global Instance Amount_eq_dec : EqDecision Amount.
Proof. solve_decision. Defined.

(** The double nearest to the integer [z], ties going to the even
    significand: [z] itself up to 2^53, an infinity from 2^1024 - 2^970
    on. *)
Definition double (z : Z) : Amount :=
  let a := Z.abs z in
  if decide (a ≤ 2 ^ 53) then Finite z
  else
    let shift := Z.log2 a - 52 in
    let q := a / 2 ^ shift in
    let r := a mod 2 ^ shift in
    let half := 2 ^ (shift - 1) in
    let q' := if decide (half < r ∨ (r = half ∧ Z.odd q = true)) then q + 1 else q in
    if decide (2 ^ 1024 ≤ q' * 2 ^ shift) then Infinite (bool_decide (z < 0))
    else Finite (Z.sgn z * (q' * 2 ^ shift)).

(** [a + d] for a total [a] and a scalar [d]. *)
Definition js_add (a : Amount) (d : Z) : Amount :=
  match a with
  | Finite n => double (n + d)
  | Infinite negative => Infinite negative
  end.

(** [v || 0] where [v] is a count or [undefined]. *)
Definition or_zero (v : option Z) : Z :=
  match v with
  | Some n => if bool_decide (n = 0) then 0 else n
  | None => 0
  end.

(** [v || 0] where [v] is a total or [undefined]. *)
Definition Amount_or_zero (v : option Amount) : Amount :=
  match v with
  | Some (Finite n) => if bool_decide (n = 0) then Finite 0 else Finite n
  | Some (Infinite negative) => Infinite negative
  | None => Finite 0
  end.

(** [a > b]. *)
Definition Amount_gt (a b : Amount) : bool :=
  match a, b with
  | Finite x, Finite y => bool_decide (x > y)
  | Finite _, Infinite negative => negative
  | Infinite negative, Finite _ => negb negative
  | Infinite n1, Infinite n2 => negb n1 && n2
  end.

(** [${a}] for a total below 10^21, or an infinity. *)
Definition Amount_toString (a : Amount) : string :=
  match a with
  | Finite n => Number_toString n
  | Infinite false => "Infinity"
  | Infinite true => "-Infinity"
  end.

(** An object used as a record: its own properties in creation order. *)
Definition JsRecord := list (string * Amount).

(** [o[k]]: [None] is [undefined]. *)
Fixpoint rec_get {K V} `{EqDecision K} (o : list (K * V)) (k : K) : option V :=
  match o with
  | [] => None
  | (k', v) :: o' => if bool_decide (k' = k) then Some v else rec_get o' k
  end.

(** [o[k] = v]: an existing property keeps its place, a new one is created
    last. *)
Fixpoint rec_set {K V} `{EqDecision K} (o : list (K * V)) (k : K) (v : V)
    : list (K * V) :=
  match o with
  | [] => [(k, v)]
  | (k', v') :: o' =>
      if bool_decide (k' = k) then (k', v) :: o' else (k', v') :: rec_set o' k v
  end.

(** An integer from 0 to 2^32 - 2. *)
Definition is_array_index (k : Z) : Prop := 0 ≤ k ∧ k < 4294967295.

Global Instance is_array_index_dec k : Decision (is_array_index k).
Proof. unfold is_array_index. apply _. Defined.

(** The array index that a property name denotes: the name is the decimal
    text of an integer from 0 to 2^32 - 2. *)
Definition array_index (key : string) : option Z :=
  match parseInt key with
  | Int k => if decide (is_array_index k ∧ pretty k = key) then Some k else None
  | _ => None
  end.

(** [Object.keys(o)]: the array indices in ascending order, then the other
    names in creation order. *)
Definition Object_keys (o : JsRecord) : list string :=
  (pretty <$> merge_sort Z.le (omap array_index o.*1))
    ++ filter (λ key, array_index key = None) o.*1.

(** ** The engine's state and its monad *)

Record Engine := {
  clients : list Client;
  workers : list Worker;
  tasks : list Task;
}.

Record World := {
  this : Engine;
  draws : nat;
}.

Inductive Error := TypeError | SyntaxError.

Inductive Completion (A : Type) :=
  | Normal (a : A)
  | Throw (e : Error).
Global Arguments Normal {A} a.
Global Arguments Throw {A} e.

Definition M (A : Type) : Type := World → Completion A * World.

Global Instance M_ret : MRet M := λ A a w, (Normal a, w).

Global Instance M_bind : MBind M := λ A B f m w,
  match m w with
  | (Normal a, w') => f a w'
  | (Throw e, w') => (Throw e, w')
  end.

Definition throw {A} (e : Error) : M A := λ w, (Throw e, w).

Definition read_this : M Engine := λ w, (Normal (this w), w).

Definition write_this (e : Engine) : M unit :=
  λ w, (Normal (), {| this := e; draws := draws w |}).

(** [try { body } catch { handler }]. *)
Definition try_catch {A} (body handler : M A) : M A := λ w,
  match body w with
  | (Normal a, w') => (Normal a, w')
  | (Throw _, w') => handler w'
  end.

(** Reading a property of a list-valued field. *)
Definition prop_of {A} (x : option (list A)) : M (list A) :=
  match x with
  | Some arr => mret arr
  | None => throw TypeError
  end.

(** [arr.forEach(callback)], the variables the callback assigns being
    threaded through as [s]. *)
Fixpoint forEach {A S} (arr : list A) (callback : A → S → M S) (s : S) : M S :=
  match arr with
  | [] => mret s
  | x :: rest => s' ← callback x s; forEach rest callback s'
  end.

(** [arr.every(pred)]. *)
Fixpoint every {A} (arr : list A) (pred : A → M bool) : M bool :=
  match arr with
  | [] => mret true
  | x :: rest => b ← pred x; if b : bool then every rest pred else mret false
  end.

(** [arr.filter(pred)]. *)
Fixpoint filter_ {A} (arr : list A) (pred : A → M bool) : M (list A) :=
  match arr with
  | [] => mret []
  | x :: rest =>
      b ← pred x;
      kept ← filter_ rest pred;
      mret (if b : bool then x :: kept else kept)
  end.

(** [arr.includes(x)]. *)
Definition includes (arr : list string) (x : string) : bool :=
  bool_decide (x ∈ arr).

(** ** The object literals the checks push, named after their [id] prefix *)

Definition missing_client_id (r : string) (client : Client) : ValidationError :=
  {| id := "missing-client-id-" +:+ r;
     type := "missing_required_field";
     entity := "clients";
     entityId := Some (or_else (ClientID client) "unknown");
     field := "ClientID";
     message := "ClientID is required";
     severity := error |}.

Definition missing_client_name (r : string) (client : Client) : ValidationError :=
  {| id := "missing-client-name-" +:+ r;
     type := "missing_required_field";
     entity := "clients";
     entityId := ClientID client;
     field := "ClientName";
     message := "ClientName is required";
     severity := error |}.

Definition missing_worker_id (r : string) (worker : Worker) : ValidationError :=
  {| id := "missing-worker-id-" +:+ r;
     type := "missing_required_field";
     entity := "workers";
     entityId := Some (or_else (WorkerID worker) "unknown");
     field := "WorkerID";
     message := "WorkerID is required";
     severity := error |}.

Definition missing_worker_name (r : string) (worker : Worker) : ValidationError :=
  {| id := "missing-worker-name-" +:+ r;
     type := "missing_required_field";
     entity := "workers";
     entityId := WorkerID worker;
     field := "WorkerName";
     message := "WorkerName is required";
     severity := error |}.

Definition missing_task_id (r : string) (task : Task) : ValidationError :=
  {| id := "missing-task-id-" +:+ r;
     type := "missing_required_field";
     entity := "tasks";
     entityId := Some (or_else (TaskID task) "unknown");
     field := "TaskID";
     message := "TaskID is required";
     severity := error |}.

Definition missing_task_name (r : string) (task : Task) : ValidationError :=
  {| id := "missing-task-name-" +:+ r;
     type := "missing_required_field";
     entity := "tasks";
     entityId := TaskID task;
     field := "TaskName";
     message := "TaskName is required";
     severity := error |}.

Definition duplicate_client (client : Client) : ValidationError :=
  {| id := "duplicate-client-" +:+ String_of (ClientID client);
     type := "duplicate_id";
     entity := "clients";
     entityId := ClientID client;
     field := "ClientID";
     message := "Duplicate ClientID: " +:+ String_of (ClientID client);
     severity := error |}.

Definition duplicate_worker (worker : Worker) : ValidationError :=
  {| id := "duplicate-worker-" +:+ String_of (WorkerID worker);
     type := "duplicate_id";
     entity := "workers";
     entityId := WorkerID worker;
     field := "WorkerID";
     message := "Duplicate WorkerID: " +:+ String_of (WorkerID worker);
     severity := error |}.

Definition duplicate_task (task : Task) : ValidationError :=
  {| id := "duplicate-task-" +:+ String_of (TaskID task);
     type := "duplicate_id";
     entity := "tasks";
     entityId := TaskID task;
     field := "TaskID";
     message := "Duplicate TaskID: " +:+ String_of (TaskID task);
     severity := error |}.

Definition malformed_slots (worker : Worker) : ValidationError :=
  {| id := "malformed-slots-" +:+ String_of (WorkerID worker);
     type := "malformed_list";
     entity := "workers";
     entityId := WorkerID worker;
     field := "AvailableSlots";
     message := "AvailableSlots must be an array of numbers";
     severity := error |}.

Definition invalid_slot (worker : Worker) (slot : Number) : ValidationError :=
  {| id := "invalid-slot-" +:+ String_of (WorkerID worker) +:+ "-" +:+ toString slot;
     type := "malformed_list";
     entity := "workers";
     entityId := WorkerID worker;
     field := "AvailableSlots";
     message := "Invalid slot value: " +:+ toString slot +:+ ". Must be positive integer";
     severity := error |}.

Definition invalid_priority (client : Client) : ValidationError :=
  {| id := "invalid-priority-" +:+ String_of (ClientID client);
     type := "out_of_range";
     entity := "clients";
     entityId := ClientID client;
     field := "PriorityLevel";
     message := "PriorityLevel must be between 1 and 5, got " +:+ Number_toString (PriorityLevel client);
     severity := error |}.

Definition invalid_duration (task : Task) : ValidationError :=
  {| id := "invalid-duration-" +:+ String_of (TaskID task);
     type := "out_of_range";
     entity := "tasks";
     entityId := TaskID task;
     field := "Duration";
     message := "Duration must be at least 1, got " +:+ Number_toString (Duration task);
     severity := error |}.

Definition invalid_load (worker : Worker) : ValidationError :=
  {| id := "invalid-load-" +:+ String_of (WorkerID worker);
     type := "out_of_range";
     entity := "workers";
     entityId := WorkerID worker;
     field := "MaxLoadPerPhase";
     message := "MaxLoadPerPhase must be at least 1, got " +:+ Number_toString (MaxLoadPerPhase worker);
     severity := error |}.

Definition broken_json (client : Client) : ValidationError :=
  {| id := "broken-json-" +:+ String_of (ClientID client);
     type := "broken_json";
     entity := "clients";
     entityId := ClientID client;
     field := "AttributesJSON";
     message := "Invalid JSON format in AttributesJSON";
     severity := error |}.

Definition unknown_task (client : Client) (taskId : string) : ValidationError :=
  {| id := "unknown-task-" +:+ String_of (ClientID client) +:+ "-" +:+ taskId;
     type := "unknown_reference";
     entity := "clients";
     entityId := ClientID client;
     field := "RequestedTaskIDs";
     message := "Referenced TaskID '" +:+ taskId +:+ "' does not exist";
     severity := error |}.

Definition overloaded_worker (worker : Worker) (slots : list Number) : ValidationError :=
  {| id := "overloaded-worker-" +:+ String_of (WorkerID worker);
     type := "overloaded_worker";
     entity := "workers";
     entityId := WorkerID worker;
     field := "MaxLoadPerPhase";
     message := "MaxLoadPerPhase (" +:+ Number_toString (MaxLoadPerPhase worker) +:+ ") exceeds available slots (" +:+ Number_toString (Z.of_nat (length slots)) +:+ ")";
     severity := warning |}.

Definition phase_saturation (phase : Number) (demand capacity : Amount)
    : ValidationError :=
  {| id := "phase-saturation-" +:+ toString phase;
     type := "phase_saturation";
     entity := "system";
     entityId := Some "system";
     field := "phase_capacity";
     message := "Phase " +:+ toString phase +:+ " is oversaturated: demand (" +:+ Amount_toString demand +:+ ") exceeds capacity (" +:+ Amount_toString capacity +:+ ")";
     severity := warning |}.

Definition missing_skill (task : Task) (skill : string) : ValidationError :=
  {| id := "missing-skill-" +:+ String_of (TaskID task) +:+ "-" +:+ skill;
     type := "skill_coverage";
     entity := "tasks";
     entityId := TaskID task;
     field := "RequiredSkills";
     message := "Required skill '" +:+ skill +:+ "' is not available in any worker";
     severity := error |}.

Definition infeasible_concurrency (task : Task) (qualifiedWorkers : Z) : ValidationError :=
  {| id := "infeasible-concurrency-" +:+ String_of (TaskID task);
     type := "max_concurrency";
     entity := "tasks";
     entityId := TaskID task;
     field := "MaxConcurrent";
     message := "MaxConcurrent (" +:+ Number_toString (MaxConcurrent task) +:+ ") exceeds qualified workers (" +:+ Number_toString qualifiedWorkers +:+ ")";
     severity := warning |}.

Section Engine.

(** The host: the text [${Math.random()}] yields at the k-th draw, and
    whether [JSON.parse] returns normally on a text. *)
Variable Math_random : nat → string.
Variable JSON_parse_ok : string → bool.

Definition Math_random_call : M string := λ w,
  (Normal (Math_random (draws w)), {| this := this w; draws := S (draws w) |}).

Definition JSON_parse (text : string) : M unit :=
  if JSON_parse_ok text then mret () else throw SyntaxError.

Definition setData (cs : list Client) (ws : list Worker) (ts : list Task) : M unit :=
  write_this {| clients := cs; workers := ws; tasks := ts |}.

Definition validateMissingRequiredColumns : M (list ValidationError) :=
  let errors := [] in
  this ← read_this;
  errors ← forEach (clients this) (λ client errors,
    errors ←
      (if falsy (ClientID client) then
         r ← Math_random_call;
         mret (push errors (missing_client_id r client))
       else mret errors);
    if falsy (ClientName client) then
      r ← Math_random_call;
      mret (push errors (missing_client_name r client))
    else mret errors) errors;
  this ← read_this;
  errors ← forEach (workers this) (λ worker errors,
    errors ←
      (if falsy (WorkerID worker) then
         r ← Math_random_call;
         mret (push errors (missing_worker_id r worker))
       else mret errors);
    if falsy (WorkerName worker) then
      r ← Math_random_call;
      mret (push errors (missing_worker_name r worker))
    else mret errors) errors;
  this ← read_this;
  errors ← forEach (tasks this) (λ task errors,
    errors ←
      (if falsy (TaskID task) then
         r ← Math_random_call;
         mret (push errors (missing_task_id r task))
       else mret errors);
    if falsy (TaskName task) then
      r ← Math_random_call;
      mret (push errors (missing_task_name r task))
    else mret errors) errors;
  mret errors.

Definition validateDuplicateIDs : M (list ValidationError) :=
  let errors := [] in
  let clientIds : gset (option string) := ∅ in
  this ← read_this;
  '(errors, clientIds) ← forEach (clients this) (λ client '(errors, clientIds),
    let errors :=
      if bool_decide (ClientID client ∈ clientIds) then
        push errors (duplicate_client client)
      else errors in
    mret (errors, {[ClientID client]} ∪ clientIds)) (errors, clientIds);
  let workerIds : gset (option string) := ∅ in
  this ← read_this;
  '(errors, workerIds) ← forEach (workers this) (λ worker '(errors, workerIds),
    let errors :=
      if bool_decide (WorkerID worker ∈ workerIds) then
        push errors (duplicate_worker worker)
      else errors in
    mret (errors, {[WorkerID worker]} ∪ workerIds)) (errors, workerIds);
  let taskIds : gset (option string) := ∅ in
  this ← read_this;
  '(errors, taskIds) ← forEach (tasks this) (λ task '(errors, taskIds),
    let errors :=
      if bool_decide (TaskID task ∈ taskIds) then
        push errors (duplicate_task task)
      else errors in
    mret (errors, {[TaskID task]} ∪ taskIds)) (errors, taskIds);
  mret errors.

Definition validateMalformedLists : M (list ValidationError) :=
  let errors := [] in
  this ← read_this;
  errors ← forEach (workers this) (λ worker errors,
    match AvailableSlots worker with
    | None =>
        mret (push errors (malformed_slots worker))
    | Some slots =>
        forEach slots (λ slot errors,
          if negb (Number_isInteger slot) || Number_lt slot 1 then
            mret (push errors (invalid_slot worker slot))
          else mret errors) errors
    end) errors;
  mret errors.

Definition validateOutOfRangeValues : M (list ValidationError) :=
  let errors := [] in
  this ← read_this;
  errors ← forEach (clients this) (λ client errors,
    if bool_decide (PriorityLevel client < 1) || bool_decide (PriorityLevel client > 5) then
      mret (push errors (invalid_priority client))
    else mret errors) errors;
  this ← read_this;
  errors ← forEach (tasks this) (λ task errors,
    if bool_decide (Duration task < 1) then
      mret (push errors (invalid_duration task))
    else mret errors) errors;
  this ← read_this;
  errors ← forEach (workers this) (λ worker errors,
    if bool_decide (MaxLoadPerPhase worker < 1) then
      mret (push errors (invalid_load worker))
    else mret errors) errors;
  mret errors.

Definition validateBrokenJSON : M (list ValidationError) :=
  let errors := [] in
  this ← read_this;
  errors ← forEach (clients this) (λ client errors,
    try_catch
      (JSON_parse (AttributesJSON client);; mret errors)
      (mret (push errors (broken_json client)))) errors;
  mret errors.

Definition validateUnknownReferences : M (list ValidationError) :=
  let errors := [] in
  this ← read_this;
  let taskIds : gset (option string) := list_to_set (TaskID <$> tasks this) in
  this ← read_this;
  errors ← forEach (clients this) (λ client errors,
    requested ← prop_of (RequestedTaskIDs client);
    forEach requested (λ taskId errors,
      if negb (bool_decide (Some taskId ∈ taskIds)) then
        mret (push errors (unknown_task client taskId))
      else mret errors) errors) errors;
  mret errors.

Definition validateCircularCoRunGroups : M (list ValidationError) :=
  mret [].

Definition validateOverloadedWorkers : M (list ValidationError) :=
  let errors := [] in
  this ← read_this;
  errors ← forEach (workers this) (λ worker errors,
    slots ← prop_of (AvailableSlots worker);
    if bool_decide (Z.of_nat (length slots) < MaxLoadPerPhase worker) then
      mret (push errors (overloaded_worker worker slots))
    else mret errors) errors;
  mret errors.

Definition validatePhaseSlotSaturation : M (list ValidationError) :=
  let errors := [] in
  let phaseCapacity : JsRecord := [] in
  this ← read_this;
  phaseCapacity ← forEach (workers this) (λ worker phaseCapacity,
    slots ← prop_of (AvailableSlots worker);
    forEach slots (λ phase phaseCapacity,
      mret (rec_set phaseCapacity (toString phase)
              (js_add (Amount_or_zero (rec_get phaseCapacity (toString phase)))
                 (MaxLoadPerPhase worker))))
      phaseCapacity) phaseCapacity;
  let phaseDemand : JsRecord := [] in
  this ← read_this;
  phaseDemand ← forEach (tasks this) (λ task phaseDemand,
    phases ← prop_of (PreferredPhases task);
    forEach phases (λ phase phaseDemand,
      mret (rec_set phaseDemand (toString phase)
              (js_add (Amount_or_zero (rec_get phaseDemand (toString phase)))
                 (Duration task))))
      phaseDemand) phaseDemand;
  errors ← forEach (Object_keys phaseDemand) (λ phaseStr errors,
    let phase := parseInt phaseStr in
    match rec_get phaseDemand (toString phase) with
    | Some demand =>
        let capacity := Amount_or_zero (rec_get phaseCapacity (toString phase)) in
        if Amount_gt demand capacity then
          mret (push errors (phase_saturation phase demand capacity))
        else mret errors
    | None =>
        (* [undefined > capacity] is false *)
        mret errors
    end) errors;
  mret errors.

Definition validateSkillCoverageMatrix : M (list ValidationError) :=
  let errors := [] in
  let workerSkills : gset string := ∅ in
  this ← read_this;
  workerSkills ← forEach (workers this) (λ worker workerSkills,
    skills ← prop_of (Skills worker);
    forEach skills (λ skill workerSkills,
      mret ({[skill]} ∪ workerSkills)) workerSkills) workerSkills;
  this ← read_this;
  errors ← forEach (tasks this) (λ task errors,
    required ← prop_of (RequiredSkills task);
    forEach required (λ skill errors,
      if negb (bool_decide (skill ∈ workerSkills)) then
        mret (push errors (missing_skill task skill))
      else mret errors) errors) errors;
  mret errors.

Definition validateMaxConcurrencyFeasibility : M (list ValidationError) :=
  let errors := [] in
  this ← read_this;
  errors ← forEach (tasks this) (λ task errors,
    this ← read_this;
    qualified ← filter_ (workers this) (λ worker,
      required ← prop_of (RequiredSkills task);
      every required (λ skill,
        skills ← prop_of (Skills worker);
        mret (includes skills skill)));
    let qualifiedWorkers := Z.of_nat (length qualified) in
    if bool_decide (MaxConcurrent task > qualifiedWorkers) then
      mret (push errors (infeasible_concurrency task qualifiedWorkers))
    else mret errors) errors;
  mret errors.

Definition validateConflictingRules : M (list ValidationError) :=
  mret [].

Definition validateAll : M (list ValidationError) :=
  let errors := [] in
  r ← validateMissingRequiredColumns; let errors := errors ++ r in
  r ← validateDuplicateIDs; let errors := errors ++ r in
  r ← validateMalformedLists; let errors := errors ++ r in
  r ← validateOutOfRangeValues; let errors := errors ++ r in
  r ← validateBrokenJSON; let errors := errors ++ r in
  r ← validateUnknownReferences; let errors := errors ++ r in
  r ← validateCircularCoRunGroups; let errors := errors ++ r in
  r ← validateOverloadedWorkers; let errors := errors ++ r in
  r ← validatePhaseSlotSaturation; let errors := errors ++ r in
  r ← validateSkillCoverageMatrix; let errors := errors ++ r in
  r ← validateMaxConcurrencyFeasibility; let errors := errors ++ r in
  r ← validateConflictingRules; let errors := errors ++ r in
  mret errors.

(** [validate(clients, workers, tasks)]: what the caller does with a fresh
    engine, [setData] then [validateAll]. *)
Definition validate (cs : list Client) (ws : list Worker) (ts : list Task)
    : M (list ValidationError) :=
  setData cs ws ts;; validateAll.

End Engine.

(** ** What each check computes, as functions of the collections

    The definitions of this part are not translations of the source: they
    describe the outcome of every check declaratively, with [filter],
    [fmap] and sums.  The lemmas [validate..._run] below prove that the
    embedded methods compute exactly these, and [validateAll_run] that the
    whole pass returns their concatenation or throws. *)

(** The field holds a value. *)
Definition defined {A} (x : option A) : bool :=
  match x with Some _ => true | None => false end.

(** Every list-valued field that the engine reads holds an array. *)
Definition requested_ok (e : Engine) : bool :=
  forallb (λ c, defined (RequestedTaskIDs c)) (clients e).
Definition slots_ok (e : Engine) : bool :=
  forallb (λ w, defined (AvailableSlots w)) (workers e).
Definition phases_ok (e : Engine) : bool :=
  forallb (λ t, defined (PreferredPhases t)) (tasks e).
Definition skills_ok (e : Engine) : bool :=
  forallb (λ w, defined (Skills w)) (workers e).
Definition required_ok (e : Engine) : bool :=
  forallb (λ t, defined (RequiredSkills t)) (tasks e).
Definition arrays_ok (e : Engine) : bool :=
  requested_ok e && slots_ok e && phases_ok e && skills_ok e && required_ok e.

(** The elements of a list-valued field, none when it is absent. *)
Definition elems {A} (x : option (list A)) : list A := default [] x.

(** Results of a loop whose callback draws one random number per pushed
    error: [g n x] is what visiting [x] pushes when [n] draws were made. *)
Fixpoint drawn {A B} (g : nat → A → list B) (n : nat) (l : list A) : list B :=
  match l with
  | [] => []
  | x :: rest => g n x ++ drawn g (n + length (g n x))%nat rest
  end.

(** The records of [l] whose key already occurs at an earlier position. *)
Definition repeats {A K} `{EqDecision K} (key : A → K) (l : list A) : list A :=
  snd <$> filter (λ kx, key kx.2 ∈ key <$> take kx.1 l) (imap pair l).

(** The sum of a list of integers. *)
Definition Zsum (l : list Z) : Z := foldr Z.add 0 l.

(** The record a tally loop builds: one property per text of a listed
    number, holding the rounded sum of the weights of its listings. *)
Definition tally {A} (weight : A → Z) (phases : A → option (list Number))
    (l : list A) : JsRecord :=
  foldl (λ o x,
           foldl (λ o p,
                    rec_set o (toString p)
                      (js_add (Amount_or_zero (rec_get o (toString p))) (weight x)))
             o (elems (phases x))) [] l.

(** What the last loop of the saturation check pushes for one name of the
    demand record. *)
Definition saturation_of (phaseDemand phaseCapacity : JsRecord)
    (phaseStr : string) : list ValidationError :=
  let phase := parseInt phaseStr in
  match rec_get phaseDemand (toString phase) with
  | Some demand =>
      let capacity := Amount_or_zero (rec_get phaseCapacity (toString phase)) in
      if Amount_gt demand capacity then [phase_saturation phase demand capacity]
      else []
  | None => []
  end.

(** *** The integer reading of the saturation check

    When the listed numbers are integers below 10^21 in absolute value and
    the sums stay within 2^53, the names of the tallies are the decimal
    texts of these integers, [parseInt] reads each name back to its integer
    and no sum is rounded: the check then computes with integers, as
    follows. *)

(** The integers among the listed numbers. *)
Definition integers (l : list Number) : list Z :=
  omap (λ q, match shortest q with Int n => Some n | _ => None end) l.

Definition slots_of (x : Worker) : list Z := integers (elems (AvailableSlots x)).
Definition phases_of (t : Task) : list Z := integers (elems (PreferredPhases t)).

(** Total weight listed for phase [p]: every listing of [p] by a record
    counts, so a record that lists [p] twice counts twice. *)
Definition phase_total {A} (weight : A → Z) (phases : A → list Z)
    (l : list A) (p : Z) : Z :=
  Zsum ((λ x, weight x * Z.of_nat (length (filter (p =.) (phases x)))) <$> l).

Definition capacity (e : Engine) : Z → Z :=
  phase_total MaxLoadPerPhase slots_of (workers e).
Definition demand (e : Engine) : Z → Z :=
  phase_total Duration phases_of (tasks e).

(** The totals as the specification words them: every record that lists
    [p] counts once, however often it lists it. *)
Definition total_by_membership {A} (weight : A → Z)
    (phases : A → list Z) (l : list A) (p : Z) : Z :=
  Zsum (weight <$> filter (λ x, p ∈ phases x) l).

Definition capacity_by_membership (e : Engine) : Z → Z :=
  total_by_membership MaxLoadPerPhase slots_of (workers e).
Definition demand_by_membership (e : Engine) : Z → Z :=
  total_by_membership Duration phases_of (tasks e).

(** The phases that some task prefers. *)
Definition preferred (e : Engine) : list Z :=
  tasks e ≫= phases_of.

(** The tally over integers with exact sums. *)
Definition exact_tally {A} (weight : A → Z) (phases : A → list Z)
    (l : list A) : list (Z * Z) :=
  foldl (λ o x, foldl (λ o p, rec_set o p (or_zero (rec_get o p) + weight x))
                  o (phases x)) [] l.

(** The order in which the names of a record over integers are visited:
    array indices in ascending order, then the others in creation order. *)
Definition phase_order (o : list (Z * Z)) : list Z :=
  merge_sort Z.le (filter is_array_index o.*1)
    ++ filter (λ k, ¬ is_array_index k) o.*1.

(** The record over names for which a record over integers stands. *)
Definition as_record (o : list (Z * Z)) : JsRecord :=
  (λ kv, (pretty kv.1, Finite kv.2)) <$> o.

(** The preferred phases whose demand exceeds their capacity, in the order
    in which the check visits them. *)
Definition saturated_phases (e : Engine) : list Z :=
  filter (λ p, demand e p > capacity e p)
    (phase_order (exact_tally Duration phases_of (tasks e))).

(** An integer below 10^21 in absolute value. *)
Definition safe_integer (q : Number) : bool :=
  match shortest q with
  | Int n => bool_decide (Z.abs n < 10 ^ 21)
  | _ => false
  end.

(** Every slot and every preferred phase is such an integer. *)
Definition integer_listings (e : Engine) : bool :=
  forallb (λ x, forallb safe_integer (elems (AvailableSlots x))) (workers e)
  && forallb (λ t, forallb safe_integer (elems (PreferredPhases t))) (tasks e).

(** Every preferred phase is such an integer, and so is every slot that is
    an integer. *)
Definition safe_listings (e : Engine) : bool :=
  forallb (λ x, forallb (λ slot, negb (Number_isInteger slot) || safe_integer slot)
                  (elems (AvailableSlots x))) (workers e)
  && forallb (λ t, forallb safe_integer (elems (PreferredPhases t))) (tasks e).

(** The sum of the absolute weights over all the listings. *)
Definition total_listed {A} (weight : A → Z) (phases : A → option (list Number))
    (l : list A) : Z :=
  Zsum ((λ x, Z.abs (weight x) * Z.of_nat (length (elems (phases x)))) <$> l).

(** No sum of loads or of durations leaves the range in which doubles are
    exact. *)
Definition exact_sums (e : Engine) : bool :=
  bool_decide (total_listed MaxLoadPerPhase AvailableSlots (workers e) ≤ 2 ^ 53)
  && bool_decide (total_listed Duration PreferredPhases (tasks e) ≤ 2 ^ 53).

(** Workers that have every skill the task requires. *)
Definition qualified (e : Engine) (t : Task) : list Worker :=
  filter (λ w, elems (RequiredSkills t) ⊆ elems (Skills w)) (workers e).

Section Results.

Variable Math_random : nat → string.
Variable JSON_parse_ok : string → bool.

(** What the first check pushes for one record when [n] draws were made. *)
Definition missing_of {A} (idOf nameOf : A → option string)
    (idErr nameErr : string → A → ValidationError) (n : nat) (x : A)
    : list ValidationError :=
  let a := if falsy (idOf x) then [idErr (Math_random n) x] else [] in
  let b := if falsy (nameOf x)
           then [nameErr (Math_random (n + length a)%nat) x] else [] in
  a ++ b.

Definition missing_errors (n : nat) (e : Engine) : list ValidationError :=
  let r1 := drawn (missing_of ClientID ClientName missing_client_id missing_client_name)
              n (clients e) in
  let r2 := drawn (missing_of WorkerID WorkerName missing_worker_id missing_worker_name)
              (n + length r1)%nat (workers e) in
  let r3 := drawn (missing_of TaskID TaskName missing_task_id missing_task_name)
              (n + length r1 + length r2)%nat (tasks e) in
  r1 ++ r2 ++ r3.

Definition duplicate_errors (e : Engine) : list ValidationError :=
  (duplicate_client <$> repeats ClientID (clients e))
    ++ (duplicate_worker <$> repeats WorkerID (workers e))
    ++ (duplicate_task <$> repeats TaskID (tasks e)).

Definition malformed_errors (e : Engine) : list ValidationError :=
  w ← workers e;
  match AvailableSlots w with
  | None => [malformed_slots w]
  | Some slots =>
      invalid_slot w <$>
        filter (λ slot, Number_isInteger slot = false ∨ Number_lt slot 1 = true)
          slots
  end.

Definition out_of_range_errors (e : Engine) : list ValidationError :=
  (invalid_priority <$>
     filter (λ c, PriorityLevel c < 1 ∨ PriorityLevel c > 5) (clients e))
    ++ (invalid_duration <$> filter (λ t, Duration t < 1) (tasks e))
    ++ (invalid_load <$> filter (λ w, MaxLoadPerPhase w < 1) (workers e)).

Definition broken_json_errors (e : Engine) : list ValidationError :=
  broken_json <$> filter (λ c, JSON_parse_ok (AttributesJSON c) = false) (clients e).

Definition unknown_of (e : Engine) (c : Client) : list ValidationError :=
  unknown_task c <$>
    filter (λ taskId, Some taskId ∉ TaskID <$> tasks e) (elems (RequestedTaskIDs c)).

Definition unknown_reference_errors (e : Engine) : list ValidationError :=
  c ← clients e; unknown_of e c.

Definition overloaded_errors (e : Engine) : list ValidationError :=
  (λ w, overloaded_worker w (elems (AvailableSlots w))) <$>
    filter (λ w, Z.of_nat (length (elems (AvailableSlots w))) < MaxLoadPerPhase w)
      (workers e).

Definition saturation_errors (e : Engine) : list ValidationError :=
  let phaseCapacity := tally MaxLoadPerPhase AvailableSlots (workers e) in
  let phaseDemand := tally Duration PreferredPhases (tasks e) in
  Object_keys phaseDemand ≫= saturation_of phaseDemand phaseCapacity.

Definition skill_coverage_errors (e : Engine) : list ValidationError :=
  t ← tasks e;
  missing_skill t <$>
    filter (λ skill, skill ∉ (workers e ≫= λ w, elems (Skills w)))
      (elems (RequiredSkills t)).

Definition concurrency_errors (e : Engine) : list ValidationError :=
  (λ t, infeasible_concurrency t (Z.of_nat (length (qualified e t)))) <$>
    filter (λ t, MaxConcurrent t > Z.of_nat (length (qualified e t))) (tasks e).

Definition all_errors (n : nat) (e : Engine) : list ValidationError :=
  missing_errors n e ++ duplicate_errors e ++ malformed_errors e
    ++ out_of_range_errors e ++ broken_json_errors e
    ++ unknown_reference_errors e ++ overloaded_errors e
    ++ saturation_errors e ++ skill_coverage_errors e ++ concurrency_errors e.

End Results.

(** ** Notions used to state and prove the claims *)

(** One visit of a duplicate-detecting loop. *)
Definition seen_step {A B} (key : A → option string) (d : A → B)
    (s : list B * gset (option string)) (x : A) : list B * gset (option string) :=
  (if bool_decide (key x ∈ s.2) then push s.1 (d x) else s.1, {[key x]} ∪ s.2).

(** Every error of [l] is of kind [T] and has severity [error] or [warning]. *)
Definition reports (T : string) (l : list ValidationError) : Prop :=
  Forall (λ d, type d = T ∧ (severity d = error ∨ severity d = warning)) l.

(** Two errors agree in every field, except possibly in the [id] of a
    [missing_required_field] error. *)
Definition same_but_random_id (d1 d2 : ValidationError) : Prop :=
  type d1 = type d2 ∧ entity d1 = entity d2 ∧ entityId d1 = entityId d2
  ∧ field d1 = field d2 ∧ message d1 = message d2 ∧ severity d1 = severity d2
  ∧ (type d1 ≠ "missing_required_field" → id d1 = id d2).

(** Two outcomes of a pass agree: both throw the same error, or both return
    sequences of the same length that agree position by position. *)
Definition outcomes_agree (r1 r2 : Completion (list ValidationError)) : Prop :=
  match r1, r2 with
  | Normal l1, Normal l2 => Forall2 same_but_random_id l1 l2
  | Throw e1, Throw e2 => e1 = e2
  | _, _ => False
  end.

(** ** Sample host and inputs for the examples *)

(** A host whose k-th random draw prints as [0.k] and whose [JSON.parse]
    accepts the text of the empty object, the only text the examples parse. *)
Definition sample_random (k : nat) : string := "0." +:+ pretty k.
Definition sample_JSON (text : string) : bool := bool_decide (text = "{}").

(** The state of [new ValidationEngine()] before any draw. *)
Definition fresh : World :=
  {| this := {| clients := []; workers := []; tasks := [] |}; draws := 0 |}.

(** Records with the fields the examples vary; the other fields are valid,
    and the slots and phases are integers. *)
Definition a_client (cid : option string) (level : Z)
    (requested : option (list string)) : Client :=
  {| ClientID := cid; ClientName := Some "Acme Corp"; PriorityLevel := level;
     RequestedTaskIDs := requested; GroupTag := "enterprise";
     AttributesJSON := "{}" |}.

Definition a_worker (wid name : option string) (skills : option (list string))
    (slots : option (list Z)) (load : Z) : Worker :=
  {| WorkerID := wid; WorkerName := name; Skills := skills;
     AvailableSlots := (λ l : list Z, Int <$> l) <$> slots; MaxLoadPerPhase := load;
     WorkerGroup := "";
     QualificationLevel := 1 |}.

Definition a_task (tid : option string) (duration : Z)
    (required : option (list string)) (phases : option (list Z))
    (concurrent : Z) : Task :=
  {| TaskID := tid; TaskName := Some "Build"; Category := "";
     Duration := duration; RequiredSkills := required;
     PreferredPhases := (λ l : list Z, Int <$> l) <$> phases; MaxConcurrent := concurrent |}.

(** A worker without a name. *)
Definition nameless_worker : Worker :=
  a_worker (Some "W1") None (Some []) (Some [1]) 1.

(** A client without [RequestedTaskIDs]. *)
Definition listless_client : Client := a_client (Some "C1") 3 None.

(** A worker that lists phase 1 twice, and a task of duration 3 that
    prefers phase 1. *)
Definition twice_available : Worker :=
  a_worker (Some "W1") (Some "Ann") (Some []) (Some [1; 1]) 2.
Definition long_task : Task :=
  a_task (Some "T1") 3 (Some []) (Some [1]) 1.
Definition saturation_input : Engine :=
  {| clients := []; workers := [twice_available]; tasks := [long_task] |}.

(** A client that lists the identifier [T9] twice. *)
Definition asks_twice : Client := a_client (Some "C1") 3 (Some ["T9"; "T9"]).

(** A scenario that breaks several rules at once: a client of priority 9
    whose attribute text does not parse and who asks for the absent [T9]; a
    worker who lists slot 0 and has fewer slots than load; a task that needs
    a skill nobody offers and that saturates phase 1. *)
Definition busy_client : Client :=
  {| ClientID := Some "C1"; ClientName := Some "Acme Corp"; PriorityLevel := 9;
     RequestedTaskIDs := Some ["T1"; "T9"]; GroupTag := "enterprise";
     AttributesJSON := "{" |}.
Definition busy_worker : Worker :=
  a_worker (Some "W1") (Some "Ann") (Some ["Go"]) (Some [0; 1]) 3.
Definition busy_task : Task :=
  a_task (Some "T1") 5 (Some ["Rust"]) (Some [1]) 2.

(** A worker whose slots include a fraction and [NaN]. *)
Definition odd_worker : Worker :=
  {| WorkerID := Some "W3"; WorkerName := Some "Cy"; Skills := Some [];
     AvailableSlots := Some [Int 0; Dec 15 1; NaN; Int 1]; MaxLoadPerPhase := 1;
     WorkerGroup := ""; QualificationLevel := 1 |}.

(** A task that prefers phases 1 and 1.5. *)
Definition split_task : Task :=
  {| TaskID := Some "T2"; TaskName := Some "Build"; Category := "";
     Duration := 2; RequiredSkills := Some [];
     PreferredPhases := Some [Int 1; Dec 15 1]; MaxConcurrent := 0 |}.

(** A task that prefers phase 10^21. *)
Definition far_task : Task :=
  a_task (Some "T3") 2 (Some []) (Some [10 ^ 21]) 0.

(** A worker with load 2^53 in phase 1, and two tasks of durations 2^53 and
    1 that prefer it. *)
Definition vast_worker : Worker :=
  a_worker (Some "W4") (Some "Di") (Some []) (Some [1]) (2 ^ 53).
Definition vast_task : Task :=
  a_task (Some "T4") (2 ^ 53) (Some []) (Some [1]) 0.
Definition unit_task : Task :=
  a_task (Some "T5") 1 (Some []) (Some [1]) 0.

(** A worker who offers the skill that [busy_task] needs. *)
Definition rust_worker : Worker :=
  a_worker (Some "W2") (Some "Bob") (Some ["Rust"]) (Some [1; 2]) 1.

(** ** Notions used by the further properties *)

(** Some list-valued field that the engine reads is absent. *)
Definition absent_list (e : Engine) : Prop :=
  Exists (λ c, RequestedTaskIDs c = None) (clients e)
  ∨ Exists (λ x, AvailableSlots x = None ∨ Skills x = None) (workers e)
  ∨ Exists (λ t, PreferredPhases t = None ∨ RequiredSkills t = None) (tasks e).

(** The position of the check that reports a kind, in the order in which
    [validateAll] runs the checks. *)
Definition check_rank (kind : string) : nat :=
  if decide (kind = "missing_required_field") then 1
  else if decide (kind = "duplicate_id") then 2
  else if decide (kind = "malformed_list") then 3
  else if decide (kind = "out_of_range") then 4
  else if decide (kind = "broken_json") then 5
  else if decide (kind = "unknown_reference") then 6
  else if decide (kind = "overloaded_worker") then 8
  else if decide (kind = "phase_saturation") then 9
  else if decide (kind = "skill_coverage") then 10
  else if decide (kind = "max_concurrency") then 11
  else 0.

(** [d1] is reported by the same check as [d2] or by an earlier one. *)
Definition in_check_order (d1 d2 : ValidationError) : Prop :=
  (check_rank (type d1) ≤ check_rank (type d2))%nat.

(** The severity and the entity that go with a kind. *)
Definition kind_profile (d : ValidationError) : Prop :=
  (type d = "missing_required_field" ∧ severity d = error
     ∧ entity d ∈ ["clients"; "workers"; "tasks"])
  ∨ (type d = "duplicate_id" ∧ severity d = error
     ∧ entity d ∈ ["clients"; "workers"; "tasks"])
  ∨ (type d = "malformed_list" ∧ severity d = error ∧ entity d = "workers")
  ∨ (type d = "out_of_range" ∧ severity d = error
     ∧ entity d ∈ ["clients"; "workers"; "tasks"])
  ∨ (type d = "broken_json" ∧ severity d = error ∧ entity d = "clients")
  ∨ (type d = "unknown_reference" ∧ severity d = error ∧ entity d = "clients")
  ∨ (type d = "overloaded_worker" ∧ severity d = warning ∧ entity d = "workers")
  ∨ (type d = "phase_saturation" ∧ severity d = warning ∧ entity d = "system"
     ∧ entityId d = Some "system")
  ∨ (type d = "skill_coverage" ∧ severity d = error ∧ entity d = "tasks")
  ∨ (type d = "max_concurrency" ∧ severity d = warning ∧ entity d = "tasks").

(** The collections break none of the rules whose breach is reported with
    severity [error]. *)
Definition breaks_no_error_rule (JSON_parse_ok : string → bool) (e : Engine) : Prop :=
  Forall (λ c, falsy (ClientID c) = false ∧ falsy (ClientName c) = false) (clients e)
  ∧ Forall (λ x, falsy (WorkerID x) = false ∧ falsy (WorkerName x) = false) (workers e)
  ∧ Forall (λ t, falsy (TaskID t) = false ∧ falsy (TaskName t) = false) (tasks e)
  ∧ NoDup (ClientID <$> clients e)
  ∧ NoDup (WorkerID <$> workers e)
  ∧ NoDup (TaskID <$> tasks e)
  ∧ Forall (λ x, Forall (λ slot, Number_isInteger slot = true
                               ∧ Number_lt slot 1 = false)
                   (elems (AvailableSlots x))) (workers e)
  ∧ Forall (λ c, 1 ≤ PriorityLevel c ≤ 5) (clients e)
  ∧ Forall (λ t, 1 ≤ Duration t) (tasks e)
  ∧ Forall (λ x, 1 ≤ MaxLoadPerPhase x) (workers e)
  ∧ Forall (λ c, JSON_parse_ok (AttributesJSON c) = true) (clients e)
  ∧ Forall (λ c, Forall (λ taskId, Some taskId ∈ TaskID <$> tasks e)
                   (elems (RequestedTaskIDs c))) (clients e)
  ∧ Forall (λ t, Forall (λ skill, skill ∈ (workers e ≫= λ x, elems (Skills x)))
                   (elems (RequiredSkills t))) (tasks e).

(** The collections break none of the rules whose breach is reported with
    severity [warning]. *)
Definition breaks_no_warning_rule (e : Engine) : Prop :=
  Forall (λ x, MaxLoadPerPhase x ≤ Z.of_nat (length (elems (AvailableSlots x))))
    (workers e)
  ∧ Forall (λ p, demand e p ≤ capacity e p) (preferred e)
  ∧ Forall (λ t, MaxConcurrent t ≤ Z.of_nat (length (qualified e t))) (tasks e).

(** The collections break none of the rules that the checks enforce. *)
Definition clean (JSON_parse_ok : string → bool) (e : Engine) : Prop :=
  breaks_no_error_rule JSON_parse_ok e ∧ breaks_no_warning_rule e.

(** ** The shared store ([data-context.ts]) and the panels that read it

    The store holds the three collections, the rules, the errors of the last
    validation, the prioritisation weights, a loading flag and the API key.
    The configuration of a rule is of type [any] and the weights are
    fractions; the reducer only stores and copies them, so both are kept
    abstract as [Config] and [Priorities]. *)

Module DataContext.

(** [Partial<Client>]: the own properties of an update object.  For each
    field, [None] says that the object has no such key and [Some v] that it
    has it with value [v]. *)
Module PartialClient.
Record t := {
  ClientID : option (option string);
  ClientName : option (option string);
  PriorityLevel : option Z;
  RequestedTaskIDs : option (option (list string));
  GroupTag : option string;
  AttributesJSON : option string;
}.
End PartialClient.

Module PartialWorker.
Record t := {
  WorkerID : option (option string);
  WorkerName : option (option string);
  Skills : option (option (list string));
  AvailableSlots : option (option (list Number));
  MaxLoadPerPhase : option Z;
  WorkerGroup : option string;
  QualificationLevel : option Z;
}.
End PartialWorker.

Module PartialTask.
Record t := {
  TaskID : option (option string);
  TaskName : option (option string);
  Category : option string;
  Duration : option Z;
  RequiredSkills : option (option (list string));
  PreferredPhases : option (option (list Number));
  MaxConcurrent : option Z;
}.
End PartialTask.

(** [{ ...client, ...data }]: every key of [data] overrides the field.  The
    optional [_errors] field, which nothing reads, is not part of the record
    model. *)
Definition spread_client (client : Client) (data : PartialClient.t) : Client :=
  {| ClientID := default (ClientID client) (PartialClient.ClientID data);
     ClientName := default (ClientName client) (PartialClient.ClientName data);
     PriorityLevel := default (PriorityLevel client) (PartialClient.PriorityLevel data);
     RequestedTaskIDs :=
       default (RequestedTaskIDs client) (PartialClient.RequestedTaskIDs data);
     GroupTag := default (GroupTag client) (PartialClient.GroupTag data);
     AttributesJSON :=
       default (AttributesJSON client) (PartialClient.AttributesJSON data) |}.

Definition spread_worker (worker : Worker) (data : PartialWorker.t) : Worker :=
  {| WorkerID := default (WorkerID worker) (PartialWorker.WorkerID data);
     WorkerName := default (WorkerName worker) (PartialWorker.WorkerName data);
     Skills := default (Skills worker) (PartialWorker.Skills data);
     AvailableSlots :=
       default (AvailableSlots worker) (PartialWorker.AvailableSlots data);
     MaxLoadPerPhase :=
       default (MaxLoadPerPhase worker) (PartialWorker.MaxLoadPerPhase data);
     WorkerGroup := default (WorkerGroup worker) (PartialWorker.WorkerGroup data);
     QualificationLevel :=
       default (QualificationLevel worker) (PartialWorker.QualificationLevel data) |}.

Definition spread_task (task : Task) (data : PartialTask.t) : Task :=
  {| TaskID := default (TaskID task) (PartialTask.TaskID data);
     TaskName := default (TaskName task) (PartialTask.TaskName data);
     Category := default (Category task) (PartialTask.Category data);
     Duration := default (Duration task) (PartialTask.Duration data);
     RequiredSkills :=
       default (RequiredSkills task) (PartialTask.RequiredSkills data);
     PreferredPhases :=
       default (PreferredPhases task) (PartialTask.PreferredPhases data);
     MaxConcurrent := default (MaxConcurrent task) (PartialTask.MaxConcurrent data) |}.

Record Rule (Config : Type) := {
  id : string;
  type : string;
  description : string;
  config : Config;
  priority : Z;
}.
Global Arguments id {Config} _.
Global Arguments type {Config} _.
Global Arguments description {Config} _.
Global Arguments config {Config} _.
Global Arguments priority {Config} _.

Record DataState (Config Priorities : Type) := {
  clients : list Client;
  workers : list Worker;
  tasks : list Task;
  rules : list (Rule Config);
  validationErrors : list ValidationError;
  priorities : Priorities;
  isLoading : bool;
  geminiApiKey : string;
}.
Global Arguments clients {Config Priorities} _.
Global Arguments workers {Config Priorities} _.
Global Arguments tasks {Config Priorities} _.
Global Arguments rules {Config Priorities} _.
Global Arguments validationErrors {Config Priorities} _.
Global Arguments priorities {Config Priorities} _.
Global Arguments isLoading {Config Priorities} _.
Global Arguments geminiApiKey {Config Priorities} _.

(** The actions.  The identifier of an update is the one shown in the edited
    row, so it is absent when the row has none. *)
Inductive DataAction (Config Priorities : Type) :=
  | SET_CLIENTS (payload : list Client)
  | SET_WORKERS (payload : list Worker)
  | SET_TASKS (payload : list Task)
  | ADD_RULE (payload : Rule Config)
  | REMOVE_RULE (payload : string)
  | SET_VALIDATION_ERRORS (payload : list ValidationError)
  | SET_PRIORITIES (payload : Priorities)
  | SET_LOADING (payload : bool)
  | SET_GEMINI_API_KEY (payload : string)
  | UPDATE_CLIENT (id : option string) (data : PartialClient.t)
  | UPDATE_WORKER (id : option string) (data : PartialWorker.t)
  | UPDATE_TASK (id : option string) (data : PartialTask.t).
Global Arguments SET_CLIENTS {Config Priorities} _.
Global Arguments SET_WORKERS {Config Priorities} _.
Global Arguments SET_TASKS {Config Priorities} _.
Global Arguments ADD_RULE {Config Priorities} _.
Global Arguments REMOVE_RULE {Config Priorities} _.
Global Arguments SET_VALIDATION_ERRORS {Config Priorities} _.
Global Arguments SET_PRIORITIES {Config Priorities} _.
Global Arguments SET_LOADING {Config Priorities} _.
Global Arguments SET_GEMINI_API_KEY {Config Priorities} _.
Global Arguments UPDATE_CLIENT {Config Priorities} _ _.
Global Arguments UPDATE_WORKER {Config Priorities} _ _.
Global Arguments UPDATE_TASK {Config Priorities} _ _.

(** [initialState], for given weights. *)
Definition initialState {Config Priorities : Type} (weights : Priorities)
    : DataState Config Priorities :=
  {| clients := []; workers := []; tasks := []; rules := [];
     validationErrors := []; priorities := weights; isLoading := false;
     geminiApiKey := "" |}.

(** The reducer; its [default] branch is not reached by a [DataAction]. *)
Definition dataReducer {Config Priorities : Type}
    (state : DataState Config Priorities) (action : DataAction Config Priorities)
    : DataState Config Priorities :=
  match action with
  | SET_CLIENTS payload =>
      {| clients := payload; workers := workers state; tasks := tasks state;
         rules := rules state; validationErrors := validationErrors state;
         priorities := priorities state; isLoading := isLoading state;
         geminiApiKey := geminiApiKey state |}
  | SET_WORKERS payload =>
      {| clients := clients state; workers := payload; tasks := tasks state;
         rules := rules state; validationErrors := validationErrors state;
         priorities := priorities state; isLoading := isLoading state;
         geminiApiKey := geminiApiKey state |}
  | SET_TASKS payload =>
      {| clients := clients state; workers := workers state; tasks := payload;
         rules := rules state; validationErrors := validationErrors state;
         priorities := priorities state; isLoading := isLoading state;
         geminiApiKey := geminiApiKey state |}
  | ADD_RULE payload =>
      {| clients := clients state; workers := workers state; tasks := tasks state;
         rules := rules state ++ [payload];
         validationErrors := validationErrors state;
         priorities := priorities state; isLoading := isLoading state;
         geminiApiKey := geminiApiKey state |}
  | REMOVE_RULE payload =>
      {| clients := clients state; workers := workers state; tasks := tasks state;
         rules := filter (λ rule, id rule ≠ payload) (rules state);
         validationErrors := validationErrors state;
         priorities := priorities state; isLoading := isLoading state;
         geminiApiKey := geminiApiKey state |}
  | SET_VALIDATION_ERRORS payload =>
      {| clients := clients state; workers := workers state; tasks := tasks state;
         rules := rules state; validationErrors := payload;
         priorities := priorities state; isLoading := isLoading state;
         geminiApiKey := geminiApiKey state |}
  | SET_PRIORITIES payload =>
      {| clients := clients state; workers := workers state; tasks := tasks state;
         rules := rules state; validationErrors := validationErrors state;
         priorities := payload; isLoading := isLoading state;
         geminiApiKey := geminiApiKey state |}
  | SET_LOADING payload =>
      {| clients := clients state; workers := workers state; tasks := tasks state;
         rules := rules state; validationErrors := validationErrors state;
         priorities := priorities state; isLoading := payload;
         geminiApiKey := geminiApiKey state |}
  | SET_GEMINI_API_KEY payload =>
      {| clients := clients state; workers := workers state; tasks := tasks state;
         rules := rules state; validationErrors := validationErrors state;
         priorities := priorities state; isLoading := isLoading state;
         geminiApiKey := payload |}
  | UPDATE_CLIENT id data =>
      {| clients :=
           (λ client, if decide (ClientID client = id)
                      then spread_client client data else client)
             <$> clients state;
         workers := workers state; tasks := tasks state;
         rules := rules state; validationErrors := validationErrors state;
         priorities := priorities state; isLoading := isLoading state;
         geminiApiKey := geminiApiKey state |}
  | UPDATE_WORKER id data =>
      {| clients := clients state;
         workers :=
           (λ worker, if decide (WorkerID worker = id)
                      then spread_worker worker data else worker)
             <$> workers state;
         tasks := tasks state;
         rules := rules state; validationErrors := validationErrors state;
         priorities := priorities state; isLoading := isLoading state;
         geminiApiKey := geminiApiKey state |}
  | UPDATE_TASK id data =>
      {| clients := clients state; workers := workers state;
         tasks :=
           (λ task, if decide (TaskID task = id)
                    then spread_task task data else task)
             <$> tasks state;
         rules := rules state; validationErrors := validationErrors state;
         priorities := priorities state; isLoading := isLoading state;
         geminiApiKey := geminiApiKey state |}
  end.

End DataContext.

(** The counters of the validation panel ([ValidationPanel]). *)
Module ValidationPanel.

(** The property name under which a severity is counted. *)
Definition severity_key (s : Severity) : string :=
  match s with
  | error => "error"
  | warning => "warning"
  | info => "info"
  end.

Definition errorsByType {Config Priorities : Type}
    (state : DataContext.DataState Config Priorities) : gmap string Z :=
  foldl (λ acc error,
           <[severity_key (severity error) :=
               or_zero (acc !! severity_key (severity error)) + 1]> acc)
    ∅ (DataContext.validationErrors state).

Definition totalErrors {Config Priorities : Type}
    (state : DataContext.DataState Config Priorities) : Z :=
  Z.of_nat (length (DataContext.validationErrors state)).

Definition criticalErrors {Config Priorities : Type}
    (state : DataContext.DataState Config Priorities) : Z :=
  or_zero (errorsByType state !! "error").

Definition warnings {Config Priorities : Type}
    (state : DataContext.DataState Config Priorities) : Z :=
  or_zero (errorsByType state !! "warning").

Definition infos {Config Priorities : Type}
    (state : DataContext.DataState Config Priorities) : Z :=
  or_zero (errorsByType state !! "info").

End ValidationPanel.

(** The counters and the gate of the export panel ([ExportPanel]). *)
Module ExportPanel.

Definition criticalErrors {Config Priorities : Type}
    (state : DataContext.DataState Config Priorities) : Z :=
  Z.of_nat (length (filter (λ e, severity e = error)
                      (DataContext.validationErrors state))).

Definition warnings {Config Priorities : Type}
    (state : DataContext.DataState Config Priorities) : Z :=
  Z.of_nat (length (filter (λ e, severity e = warning)
                      (DataContext.validationErrors state))).

Definition canExport {Config Priorities : Type}
    (state : DataContext.DataState Config Priorities) : bool :=
  bool_decide (criticalErrors state = 0).

End ExportPanel.

(** The errors the data grid shows on the row of a record ([DataGrid]). *)
Module DataGrid.

Definition getEntityErrors {Config Priorities : Type}
    (state : DataContext.DataState Config Priorities)
    (entity' : string) (id' : option string) : list ValidationError :=
  filter (λ error, entity error = entity' ∧ entityId error = id')
    (DataContext.validationErrors state).

End DataGrid.

(** A store without rule configurations or weights, holding one client and
    the error of a previous validation; an edit that renames that client. *)
Definition sample_store : DataContext.DataState unit unit :=
  DataContext.dataReducer
    (DataContext.dataReducer (DataContext.initialState ())
       (DataContext.SET_CLIENTS [busy_client]))
    (DataContext.SET_VALIDATION_ERRORS [invalid_priority busy_client]).

Definition rename_client : DataContext.DataAction unit unit :=
  DataContext.UPDATE_CLIENT (Some "C1")
    {| DataContext.PartialClient.ClientID := Some (Some "C2");
       DataContext.PartialClient.ClientName := None;
       DataContext.PartialClient.PriorityLevel := Some 3;
       DataContext.PartialClient.RequestedTaskIDs := None;
       DataContext.PartialClient.GroupTag := None;
       DataContext.PartialClient.AttributesJSON := None |}.

(** ** Running computations *)

Lemma run_bind {A B} (m : M A) (f : A → M B) (w : World) :
  (m ≫= f) w =
    match m w with
    | (Normal a, w') => f a w'
    | (Throw e, w') => (Throw e, w')
    end.
Proof. reflexivity. Qed.

Lemma run_ret {A} (a : A) (w : World) : (mret a : M A) w = (Normal a, w).
Proof. reflexivity. Qed.

Lemma run_read_this (w : World) : read_this w = (Normal (this w), w).
Proof. reflexivity. Qed.

Lemma forEach_guard {A S} (ok : A → bool) (f : S → A → S)
    (cb : A → S → M S) (l : list A) (w : World) :
  (∀ x, x ∈ l → ∀ s,
     cb x s w = (if ok x then Normal (f s x) else Throw TypeError, w)) →
  ∀ s, forEach l cb s w =
    (if forallb ok l then Normal (foldl f s l) else Throw TypeError, w).
Proof.
  induction l as [|x l IH]; intros Hcb s; simpl; [done|].
  rewrite run_bind, Hcb by left. destruct (ok x); simpl; [|done].
  apply IH. intros y Hy. apply Hcb. by right.
Qed.

Lemma forEach_fold {A S} (f : S → A → S) (cb : A → S → M S) (l : list A)
    (w : World) :
  (∀ x, x ∈ l → ∀ s, cb x s w = (Normal (f s x), w)) →
  ∀ s, forEach l cb s w = (Normal (foldl f s l), w).
Proof.
  intros Hcb s. rewrite (forEach_guard (λ _, true) f) by done.
  by rewrite (proj2 (forallb_forall _ l)).
Qed.

Lemma forEach_drawn {A B} (g : nat → A → list B)
    (cb : A → list B → M (list B)) (l : list A) :
  (∀ x s w, cb x s w =
     (Normal (s ++ g (draws w) x),
      {| this := this w; draws := draws w + length (g (draws w) x) |})) →
  ∀ s w, forEach l cb s w =
    (Normal (s ++ drawn g (draws w) l),
     {| this := this w; draws := draws w + length (drawn g (draws w) l) |}).
Proof.
  intros Hcb. induction l as [|x l IH]; intros s w; simpl.
  - rewrite app_nil_r, Nat.add_0_r. by destruct w.
  - rewrite run_bind, Hcb, IH. simpl.
    rewrite length_app, <-app_assoc. do 2 f_equal. lia.
Qed.

Lemma foldl_emit {A B} (g : A → list B) (l : list A) (s : list B) :
  foldl (λ s x, s ++ g x) s l = s ++ (l ≫= g).
Proof.
  revert s. induction l as [|x l IH]; intros s; simpl.
  - by rewrite app_nil_r.
  - by rewrite IH, <-app_assoc.
Qed.

Lemma bind_if_filter {A B} (P : A → Prop) `{∀ x, Decision (P x)}
    (d : A → B) (l : list A) :
  (l ≫= λ x, if decide (P x) then [d x] else []) = d <$> filter P l.
Proof.
  induction l as [|x l IH]; [done|]. rewrite bind_cons, IH, filter_cons.
  by destruct (decide (P x)).
Qed.

Lemma forEach_emit {A B} (g : A → list B) (cb : A → list B → M (list B))
    (l : list A) (w : World) :
  (∀ x, x ∈ l → ∀ s, cb x s w = (Normal (s ++ g x), w)) →
  ∀ s, forEach l cb s w = (Normal (s ++ (l ≫= g)), w).
Proof.
  intros Hcb s. rewrite (forEach_fold (λ s x, s ++ g x)) by done.
  by rewrite foldl_emit.
Qed.

Lemma forEach_guard_emit {A B} (ok : A → bool) (g : A → list B)
    (cb : A → list B → M (list B)) (l : list A) (w : World) :
  (∀ x, x ∈ l → ∀ s,
     cb x s w = (if ok x then Normal (s ++ g x) else Throw TypeError, w)) →
  ∀ s, forEach l cb s w =
    (if forallb ok l then Normal (s ++ (l ≫= g)) else Throw TypeError, w).
Proof.
  intros Hcb s. rewrite (forEach_guard ok (λ s x, s ++ g x)) by done.
  by rewrite foldl_emit.
Qed.

Lemma forEach_push_if {A B} (P : A → Prop) `{∀ x, Decision (P x)}
    (d : A → B) (cb : A → list B → M (list B)) (l : list A) (w : World) :
  (∀ x, x ∈ l → ∀ s,
     cb x s w = (Normal (if decide (P x) then push s (d x) else s), w)) →
  ∀ s, forEach l cb s w = (Normal (s ++ (d <$> filter P l)), w).
Proof.
  intros Hcb s.
  rewrite (forEach_emit (λ x, if decide (P x) then [d x] else [])).
  - by rewrite bind_if_filter.
  - intros x Hx s'. rewrite Hcb by done. destruct (decide (P x)); [done|].
    by rewrite app_nil_r.
Qed.

(** A callback of the shape [if test then push else keep]. *)
Ltac push_if_case :=
  intros; repeat case_bool_decide; simpl; destruct (decide _);
  first [done | lia | naive_solver].

Lemma elem_of_skill_set (ws : list Worker) (init : gset string) (skill : string) :
  skill ∈ foldl (λ s w, foldl (λ s skill, {[skill]} ∪ s) s (elems (Skills w))) init ws
  ↔ skill ∈ init ∨ skill ∈ (ws ≫= λ w, elems (Skills w)).
Proof.
  revert init. induction ws as [|w ws IH]; intros init; simpl.
  - rewrite elem_of_nil. tauto.
  - rewrite IH, elem_of_app. clear IH.
    assert (∀ (l : list string) (s0 : gset string),
      skill ∈ foldl (λ s skill, {[skill]} ∪ s) s0 l ↔ skill ∈ s0 ∨ skill ∈ l) as Hin.
    { induction l as [|a l IHl]; intros s0; simpl.
      - rewrite elem_of_nil. tauto.
      - rewrite IHl, elem_of_cons, elem_of_union, elem_of_singleton. tauto. }
    rewrite Hin. tauto.
Qed.

Lemma run_every {A} (b : A → bool) (pred : A → M bool) (l : list A) (w : World) :
  (∀ x, x ∈ l → pred x w = (Normal (b x), w)) →
  every l pred w = (Normal (forallb b l), w).
Proof.
  induction l as [|x l IH]; intros Hp; simpl; [done|].
  rewrite run_bind, Hp by left. destruct (b x); simpl; [|done].
  apply IH. intros y Hy. apply Hp. by right.
Qed.

Lemma run_filter_ {A} (P : A → Prop) `{∀ x, Decision (P x)}
    (pred : A → M bool) (l : list A) (w : World) :
  (∀ x, x ∈ l → pred x w = (Normal (bool_decide (P x)), w)) →
  filter_ l pred w = (Normal (filter P l), w).
Proof.
  induction l as [|x l IH]; intros Hp; simpl; [done|].
  rewrite run_bind, Hp by left. rewrite run_bind, IH.
  - rewrite filter_cons. by case_bool_decide; destruct (decide _).
  - intros y Hy. apply Hp. by right.
Qed.

Lemma forallb_includes (required skills : list string) :
  forallb (includes skills) required = bool_decide (required ⊆ skills).
Proof.
  induction required as [|r required IH].
  - symmetry. apply bool_decide_eq_true_2. intros x Hx. by apply elem_of_nil in Hx.
  - cbn [forallb]. rewrite IH. unfold includes.
    rewrite <-bool_decide_and. apply bool_decide_ext. split.
    + intros [Hr Hrest] x [->|Hx]%elem_of_cons; auto.
    + intros Hsub. split; [apply Hsub; by left|].
      intros x Hx. apply Hsub. by right.
Qed.

Lemma forallb_elem {A} (ok : A → bool) (l : list A) (x : A) :
  forallb ok l = true → x ∈ l → ok x = true.
Proof.
  intros Hall Hx. apply (proj1 (forallb_forall _ _) Hall).
  by apply list_elem_of_In.
Qed.

(** *** Repeated keys *)

Lemma filter_ext_elem {A} (P Q : A → Prop) `{∀ x, Decision (P x)}
    `{∀ x, Decision (Q x)} (l : list A) :
  (∀ x, x ∈ l → P x ↔ Q x) → filter P l = filter Q l.
Proof.
  induction l as [|x l IH]; intros Hext; [done|].
  rewrite !filter_cons, IH by (intros y Hy; apply Hext; by right).
  destruct (decide (P x)) as [HP|HP], (decide (Q x)) as [HQ|HQ]; try done;
    apply Hext in HP || apply Hext in HQ; by try left.
Qed.

Lemma repeats_snoc {A K} `{EqDecision K} (key : A → K) (l : list A) (x : A) :
  repeats key (l ++ [x])
    = repeats key l ++ (if decide (key x ∈ key <$> l) then [x] else []).
Proof.
  unfold repeats. rewrite imap_app, filter_app, fmap_app. f_equal.
  - f_equal. apply filter_ext_elem. intros [k y] Hky. simpl.
    apply elem_of_lookup_imap in Hky as (i & z & [= -> ->] & Hi).
    apply lookup_lt_Some in Hi. by rewrite take_app_le by lia.
  - simpl. rewrite filter_cons, filter_nil. simpl.
    rewrite Nat.add_0_r, take_app_length. by destruct (decide _).
Qed.

Lemma foldl_seen_step {A B} (key : A → option string) (d : A → B)
    (l : list A) (errs : list B) :
  foldl (seen_step key d) (errs, ∅) l
    = (errs ++ (d <$> repeats key l), list_to_set (key <$> l)).
Proof.
  induction l as [|x l IH] using rev_ind.
  - simpl. by rewrite app_nil_r.
  - rewrite foldl_app, IH. simpl. unfold seen_step. simpl.
    rewrite repeats_snoc, !fmap_app, list_to_set_app_L. simpl. f_equal.
    + case_bool_decide as Hin; rewrite elem_of_list_to_set in Hin;
        destruct (decide _); try done.
      * unfold push. by rewrite <-app_assoc.
      * by rewrite !app_nil_r.
    + rewrite union_empty_r_L. apply union_comm_L.
Qed.

(** *** Records of per-phase totals *)

Lemma rec_get_set {K V} `{EqDecision K} (o : list (K * V)) (k : K) (v : V)
    (k' : K) :
  rec_get (rec_set o k v) k' = if decide (k = k') then Some v else rec_get o k'.
Proof.
  induction o as [|[k0 v0] o IH]; simpl.
  - destruct (decide (k = k')) as [->|Hne];
      [by rewrite bool_decide_eq_true_2|by rewrite bool_decide_eq_false_2].
  - destruct (decide (k0 = k)) as [->|Hk0].
    + rewrite bool_decide_eq_true_2 by done. simpl.
      destruct (decide (k = k')) as [->|Hne];
        [by rewrite bool_decide_eq_true_2|by rewrite bool_decide_eq_false_2].
    + rewrite bool_decide_eq_false_2 by done. simpl. rewrite IH.
      destruct (decide (k = k')) as [->|Hne]; [|done].
      by rewrite bool_decide_eq_false_2.
Qed.

Lemma rec_set_keys {K V} `{EqDecision K} (o : list (K * V)) (k : K) (v : V) :
  (rec_set o k v).*1 = if decide (k ∈ o.*1) then o.*1 else o.*1 ++ [k].
Proof.
  induction o as [|[k0 v0] o IH]; [done|].
  cbn [rec_set]. case_bool_decide; rewrite !fmap_cons; cbn [fst].
  - subst. rewrite decide_True; [done|by left].
  - rewrite IH. destruct (decide (k ∈ o.*1)).
    + rewrite decide_True; [done|by right].
    + rewrite decide_False; [done|]. intros [?|?]%elem_of_cons; by subst.
Qed.

Lemma rec_get_Some (o : list (Z * Z)) (k : Z) :
  k ∈ o.*1 → rec_get o k = Some (or_zero (rec_get o k)).
Proof.
  induction o as [|[k0 v0] o IH]; simpl.
  - by intros []%elem_of_nil.
  - case_bool_decide; simpl.
    + intros _. by case_bool_decide; subst.
    + intros [?|?]%elem_of_cons; [by subst|auto].
Qed.

Lemma or_zero_Some (v : Z) : or_zero (Some v) = v.
Proof. simpl. by case_bool_decide. Qed.

Section Tally.
Context {A : Type} (weight : A → Z) (phases : A → list Z).

Local Abbreviation add_phase x :=
  (λ (o : list (Z * Z)) (p : Z), rec_set o p (or_zero (rec_get o p) + weight x)).
Local Abbreviation add_record :=
  (λ (o : list (Z * Z)) (x : A), foldl (add_phase x) o (phases x)).

Lemma add_phases_value (x : A) (ps : list Z) (o : list (Z * Z)) (p : Z) :
  or_zero (rec_get (foldl (add_phase x) o ps) p)
    = or_zero (rec_get o p) + weight x * Z.of_nat (length (filter (p =.) ps)).
Proof.
  revert o. induction ps as [|q ps IH]; intros o; cbn [foldl].
  - rewrite filter_nil. simpl. lia.
  - rewrite IH, rec_get_set, filter_cons.
    destruct (decide (q = p)) as [->|Hne].
    + rewrite decide_True by done. rewrite or_zero_Some. simpl length. lia.
    + rewrite decide_False by done. lia.
Qed.

Lemma add_phases_keys (x : A) (ps : list Z) (o : list (Z * Z)) (p : Z) :
  p ∈ (foldl (add_phase x) o ps).*1 ↔ p ∈ o.*1 ∨ p ∈ ps.
Proof.
  revert o. induction ps as [|q ps IH]; intros o; cbn [foldl].
  - rewrite elem_of_nil. tauto.
  - rewrite IH, rec_set_keys, elem_of_cons.
    destruct (decide (q ∈ o.*1)).
    + split; [tauto|]. intros [?|[->|?]]; tauto.
    + rewrite elem_of_app, list_elem_of_singleton. tauto.
Qed.

Lemma add_phases_NoDup (x : A) (ps : list Z) (o : list (Z * Z)) :
  NoDup o.*1 → NoDup (foldl (add_phase x) o ps).*1.
Proof.
  revert o. induction ps as [|q ps IH]; intros o Ho; cbn [foldl]; [done|].
  apply IH. rewrite rec_set_keys.
  destruct (decide (q ∈ o.*1)); [done|].
  apply NoDup_app. split_and!; [done| |apply NoDup_singleton].
  intros y Hy ->%list_elem_of_singleton. done.
Qed.

Lemma tally_value (l : list A) (o : list (Z * Z)) (p : Z) :
  or_zero (rec_get (foldl add_record o l) p)
    = or_zero (rec_get o p) + phase_total weight phases l p.
Proof.
  revert o. induction l as [|x l IH]; intros o; cbn [foldl].
  - unfold phase_total. simpl. lia.
  - rewrite IH, add_phases_value.
    unfold phase_total. rewrite fmap_cons. simpl. lia.
Qed.

Lemma tally_keys (l : list A) (o : list (Z * Z)) (p : Z) :
  p ∈ (foldl add_record o l).*1
    ↔ p ∈ o.*1 ∨ ∃ x, x ∈ l ∧ p ∈ phases x.
Proof.
  revert o. induction l as [|x l IH]; intros o; cbn [foldl].
  - split; [tauto|]. intros [?|(x & []%elem_of_nil & _)]. done.
  - rewrite IH, add_phases_keys. split.
    + intros [[?|?]|(y & ? & ?)]; [tauto| |].
      * right. exists x. split; [by left|done].
      * right. exists y. split; [by right|done].
    + intros [?|(y & [->|?]%elem_of_cons & ?)]; [tauto|tauto|].
      right. by exists y.
Qed.

Lemma tally_NoDup (l : list A) (o : list (Z * Z)) :
  NoDup o.*1 → NoDup (foldl add_record o l).*1.
Proof.
  revert o. induction l as [|x l IH]; intros o Ho; cbn [foldl]; [done|].
  apply IH. by apply add_phases_NoDup.
Qed.

End Tally.

Lemma phase_order_Permutation (o : list (Z * Z)) : phase_order o ≡ₚ o.*1.
Proof.
  unfold phase_order. rewrite merge_sort_Permutation.
  apply filter_app_complement.
Qed.

(** *** The kind and the severity of what each check reports *)

Lemma reports_app T l1 l2 : reports T l1 → reports T l2 → reports T (l1 ++ l2).
Proof. apply Forall_app_2. Qed.

Lemma reports_fmap {A} T (d : A → ValidationError) (l : list A) :
  (∀ x, type (d x) = T ∧ (severity (d x) = error ∨ severity (d x) = warning)) →
  reports T (d <$> l).
Proof. intros Hd. apply Forall_fmap, Forall_forall. intros x _. apply Hd. Qed.

Lemma reports_bind {A} T (g : A → list ValidationError) (l : list A) :
  (∀ x, reports T (g x)) → reports T (l ≫= g).
Proof.
  intros Hg. induction l as [|x l IH]; [constructor|].
  rewrite bind_cons. by apply reports_app.
Qed.

Lemma reports_drawn {A} T (g : nat → A → list ValidationError) (l : list A) n :
  (∀ n x, reports T (g n x)) → reports T (drawn g n l).
Proof.
  intros Hg. revert n. induction l as [|x l IH]; intros n; [constructor|].
  simpl. by apply reports_app.
Qed.

Lemma filter_none {A} (P : A → Prop) `{∀ x, Decision (P x)} (l : list A) :
  Forall (λ x, ¬ P x) l → filter P l = [].
Proof.
  induction 1 as [|x l Hx Hl IH]; [done|]. by rewrite filter_cons_False.
Qed.

Lemma filter_all {A} (P : A → Prop) `{∀ x, Decision (P x)} (l : list A) :
  Forall P l → filter P l = l.
Proof.
  induction 1 as [|x l Hx Hl IH]; [done|]. by rewrite filter_cons_True, IH.
Qed.

Lemma filter_other_type (T T' : string) (P : ValidationError → Prop)
    `{∀ d, Decision (P d)} (l : list ValidationError) :
  reports T l → T ≠ T' → (∀ d, P d → type d = T') → filter P l = [].
Proof.
  intros Hl Hne HP. apply filter_none. eapply Forall_impl; [exact Hl|].
  intros d [Hd _] HPd. apply HP in HPd. congruence.
Qed.

Lemma filter_key_length {A K} `{EqDecision K} (key : A → K) (l : list A) (i : K) :
  i ∈ key <$> l ↔ (0 < length (filter (λ x, key x = i) l))%nat.
Proof.
  induction l as [|x l IH].
  - rewrite fmap_nil, filter_nil, elem_of_nil. simpl. lia.
  - rewrite fmap_cons, elem_of_cons, filter_cons, IH.
    destruct (decide (key x = i)) as [Heq|Hne]; simpl.
    + split; [lia|auto].
    + split; [intros [->|?]; done|auto].
Qed.

Lemma repeats_count {A K} `{EqDecision K} (key : A → K) (l : list A) (i : K) :
  length (filter (λ x, key x = i) (repeats key l))
    = pred (length (filter (λ x, key x = i) l)).
Proof.
  induction l as [|x l IH] using rev_ind; [done|].
  rewrite repeats_snoc, !filter_app, !length_app, IH.
  rewrite filter_cons, filter_nil.
  destruct (decide (key x = i)) as [<-|Hne]; simpl.
  - destruct (decide (key x ∈ key <$> l)) as [Hin|Hin].
    + rewrite filter_cons_True by done. simpl.
      apply filter_key_length in Hin. lia.
    + rewrite filter_nil. simpl.
      rewrite filter_key_length in Hin. lia.
  - destruct (decide (key x ∈ key <$> l)).
    + rewrite filter_cons_False by done. simpl. lia.
    + rewrite filter_nil. simpl. lia.
Qed.

Lemma filter_fmap_length {A B} (f : A → B) (P : B → Prop)
    `{∀ y, Decision (P y)} (l : list A) :
  length (filter P (f <$> l)) = length (filter (λ x, P (f x)) l).
Proof.
  induction l as [|x l IH]; [done|].
  rewrite fmap_cons, !filter_cons. destruct (decide (P (f x))); simpl; by rewrite IH.
Qed.

Lemma filter_fmap_iff_length {A B} (f : A → B) (P : B → Prop) (Q : A → Prop)
    `{∀ y, Decision (P y)} `{∀ x, Decision (Q x)} (l : list A) :
  (∀ x, P (f x) ↔ Q x) →
  length (filter P (f <$> l)) = length (filter Q l).
Proof.
  intros HPQ. rewrite filter_fmap_length. f_equal. by apply list_filter_iff.
Qed.

Lemma filter_fmap_all {A B} (f : A → B) (P : B → Prop)
    `{∀ y, Decision (P y)} (l : list A) :
  (∀ x, P (f x)) → filter P (f <$> l) = f <$> l.
Proof.
  intros HP. apply filter_all, Forall_fmap, Forall_forall.
  intros x _. apply HP.
Qed.

Lemma filter_fmap_none {A B} (f : A → B) (P : B → Prop)
    `{∀ y, Decision (P y)} (l : list A) :
  (∀ x, ¬ P (f x)) → filter P (f <$> l) = [].
Proof.
  intros HP. apply filter_none, Forall_fmap, Forall_forall.
  intros x _. apply HP.
Qed.

(** When the errors selected by [P] are one [d y] per record satisfying
    [Q], a record is reported exactly when it satisfies [Q], provided [d]
    tells apart records that differ on [Q]. *)
Lemma flagged_iff {A B} (d : A → B) (Q : A → Prop) (P : B → Prop)
    `{∀ y, Decision (P y)} `{∀ x, Decision (Q x)}
    (l : list A) (errs : list B) (x : A) :
  filter P errs = d <$> filter Q l →
  (∀ y, P (d y)) →
  (∀ y, d x = d y → Q y → Q x) →
  x ∈ l →
  d x ∈ errs ↔ Q x.
Proof.
  intros Hsel HP Hinj Hx. split.
  - intros Hin.
    assert (d x ∈ filter P errs) as Hin' by (by apply list_elem_of_filter).
    rewrite Hsel in Hin'. apply list_elem_of_fmap in Hin' as (y & Heq & Hy).
    apply list_elem_of_filter in Hy as [Hy _]. by apply (Hinj y).
  - intros HQ.
    assert (d x ∈ filter P errs) as Hin.
    { rewrite Hsel. apply list_elem_of_fmap. exists x. split; [done|].
      by apply list_elem_of_filter. }
    by apply list_elem_of_filter in Hin as [_ Hin].
Qed.

Lemma filter_fmap_comm {A B} (f : A → B) (P : B → Prop)
    `{∀ y, Decision (P y)} (l : list A) :
  filter P (f <$> l) = f <$> filter (λ x, P (f x)) l.
Proof.
  induction l as [|x l IH]; [done|].
  rewrite fmap_cons, !filter_cons, IH. by destruct (decide (P (f x))).
Qed.

Lemma filter_filter_length {A} (Q : A → Prop) `{∀ x, Decision (Q x)}
    `{EqDecision A} (l : list A) (x : A) :
  length (filter (x =.) (filter Q l))
    = if decide (Q x) then length (filter (x =.) l) else 0%nat.
Proof.
  rewrite list_filter_filter. destruct (decide (Q x)) as [HQ|HQ].
  - f_equal. apply list_filter_iff. naive_solver.
  - rewrite filter_none; [done|]. apply Forall_forall. naive_solver.
Qed.

Lemma filter_one_NoDup {A} `{EqDecision A} (Q : A → Prop)
    `{∀ x, Decision (Q x)} (l : list A) (p : A) :
  NoDup l →
  filter (λ q, q = p ∧ Q q) l = if decide (p ∈ l ∧ Q p) then [p] else [].
Proof.
  induction 1 as [|x l Hx Hl IH].
  - rewrite filter_nil. rewrite decide_False; [done|].
    intros [[]%elem_of_nil _].
  - rewrite filter_cons, IH. destruct (decide (x = p ∧ Q x)) as [[-> HQ]|Hn].
    + rewrite (decide_False (P:=p ∈ l ∧ Q p)) by (by intros [? _]).
      rewrite decide_True; [done|]. split; [by left|done].
    + destruct (decide (p ∈ l ∧ Q p)) as [[Hp HQ]|Hn'].
      * rewrite decide_True; [done|]. split; [by right|done].
      * rewrite decide_False; [done|]. intros [[->|?]%elem_of_cons HQ]; tauto.
Qed.

Lemma phase_total_unlisted {A} (weight : A → Z) (phases : A → list Z)
    (l : list A) (p : Z) :
  (∀ x, x ∈ l → p ∉ phases x) → phase_total weight phases l p = 0.
Proof.
  unfold phase_total. induction l as [|x l IH]; intros Hl; [done|].
  rewrite fmap_cons. simpl. rewrite IH by (intros y Hy; apply Hl; by right).
  rewrite filter_none; [simpl; lia|].
  apply Forall_forall. intros q Hq <-. by apply (Hl x); [left|].
Qed.

Lemma count_listed_NoDup (l : list Z) (p : Z) :
  NoDup l → length (filter (p =.) l) = if decide (p ∈ l) then 1%nat else 0%nat.
Proof.
  intros Hl.
  rewrite (list_filter_iff _ (λ q, q = p ∧ True)) by naive_solver.
  rewrite filter_one_NoDup by done.
  destruct (decide (p ∈ l)).
  - by rewrite decide_True.
  - rewrite decide_False; [done|]. tauto.
Qed.

Lemma phase_total_by_membership {A} (weight : A → Z)
    (phases : A → list Z) (l : list A) (p : Z) :
  Forall (λ x, NoDup (phases x)) l →
  phase_total weight phases l p = total_by_membership weight phases l p.
Proof.
  unfold phase_total, total_by_membership.
  induction 1 as [|x l Hx Hl IH]; [done|].
  rewrite fmap_cons, filter_cons. simpl. rewrite IH, count_listed_NoDup by done.
  destruct (decide (p ∈ phases x)); rewrite ?fmap_cons; simpl; lia.
Qed.

Lemma tally_listed {A} (weight : A → Z) (phases : A → list Z)
    (l : list A) (p : Z) :
  p ∈ phase_order (exact_tally weight phases l) ↔ p ∈ (l ≫= λ x, phases x).
Proof.
  rewrite phase_order_Permutation. unfold exact_tally. rewrite tally_keys.
  rewrite list_elem_of_bind. simpl. rewrite elem_of_nil.
  split; [intros [[]|(x & ? & ?)]|intros (x & ? & ?); right]; by exists x.
Qed.

Lemma tally_keys_NoDup {A} (weight : A → Z) (phases : A → list Z)
    (l : list A) :
  NoDup (phase_order (exact_tally weight phases l)).
Proof.
  rewrite phase_order_Permutation. apply tally_NoDup. simpl. constructor.
Qed.

(** *** Numbers and their texts *)

Lemma digit_value_char (d : N) :
  (d < 10)%N → digit_value (pretty_N_char d) = Some (Z.of_N d).
Proof.
  intros Hd.
  assert (d = 0 ∨ d = 1 ∨ d = 2 ∨ d = 3 ∨ d = 4 ∨ d = 5 ∨ d = 6 ∨ d = 7
          ∨ d = 8 ∨ d = 9)%N as Hcases by lia.
  by repeat destruct Hcases as [->|Hcases]; [..|subst]; vm_compute.
Qed.

Lemma parse_digits_go (x : N) :
  (0 < x)%N →
  ∃ k, 0 ≤ k ∧ ∀ acc s,
    parse_digits acc (pretty_N_go x s)
      = parse_digits (Some (default 0 acc * 10 ^ k + Z.of_N x)) s.
Proof.
  induction (N.lt_wf_0 x) as [x _ IH]. intros Hx.
  destruct (decide (x `div` 10 = 0)%N) as [Hsmall|Hbig%N.neq_0_lt_0].
  - exists 1. split; [done|]. intros acc s.
    rewrite pretty_N_go_step, Hsmall, pretty_N_go_0 by done.
    cbn [parse_digits]. rewrite digit_value_char by (by apply N.mod_lt).
    apply N.div_small_iff in Hsmall; [|done].
    by rewrite N.mod_small by done.
  - destruct (IH (x `div` 10)%N (N.div_lt x 10 Hx eq_refl) Hbig) as (k & Hk0 & Hk).
    exists (k + 1). split; [lia|]. intros acc s.
    rewrite pretty_N_go_step, Hk by done.
    cbn [parse_digits]. rewrite digit_value_char by (by apply N.mod_lt).
    simpl default. do 2 f_equal. rewrite Z.pow_add_r by lia.
    change (10 ^ 1) with 10.
    pose proof (N.div_mod x 10 ltac:(done)) as Hdm.
    apply (f_equal Z.of_N) in Hdm. rewrite N2Z.inj_add, N2Z.inj_mul in Hdm.
    change (Z.of_N 10) with 10 in Hdm. lia.
Qed.

Lemma parse_digits_pretty (x : N) :
  parse_digits None (pretty x) = Some (Z.of_N x).
Proof.
  unfold pretty, pretty_N. destruct (decide (x = 0)%N) as [->|Hx]; [done|].
  destruct (parse_digits_go x) as (k & _ & Hk); [lia|]. rewrite Hk. simpl.
  f_equal; lia.
Qed.

Lemma pretty_N_head (x : N) :
  ∃ c rest, pretty x = String c rest ∧ is_Some (digit_value c).
Proof.
  assert (∀ y s, (∃ c rest, s = String c rest ∧ is_Some (digit_value c)) →
            ∃ c rest, pretty_N_go y s = String c rest ∧ is_Some (digit_value c))
    as Hgo.
  { intros y. induction (N.lt_wf_0 y) as [y _ IH]. intros s Hs.
    assert (y = 0 ∨ 0 < y)%N as [->|Hy] by lia; [by rewrite pretty_N_go_0|].
    rewrite pretty_N_go_step by done. apply IH; [by apply N.div_lt|].
    eexists _, _. split; [done|].
    rewrite digit_value_char by (by apply N.mod_lt). done. }
  unfold pretty, pretty_N. destruct (decide (x = 0)%N) as [->|Hx].
  - by eexists _, _.
  - assert (0 < x)%N as Hpos by lia. rewrite pretty_N_go_step by done.
    apply Hgo. eexists _, _. split; [done|].
    rewrite digit_value_char by (by apply N.mod_lt). done.
Qed.

Lemma parseInt_pretty_N (x : N) : parseInt (pretty x) = Int (Z.of_N x).
Proof.
  destruct (pretty_N_head x) as (c & rest & Heq & [d Hd]).
  pose proof (parse_digits_pretty x) as Hparse. rewrite Heq in Hparse |- *.
  unfold parseInt.
  destruct (decide (c = "-"%char)) as [->|_]; [by vm_compute in Hd|].
  destruct (decide (c = "+"%char)) as [->|_]; [by vm_compute in Hd|].
  by rewrite Hparse.
Qed.

(** [parseInt] reads the text of an integer back to that integer. *)
Lemma parseInt_pretty (z : Z) : parseInt (pretty z) = Int z.
Proof.
  destruct z as [|p|p]; [done| |].
  - apply (parseInt_pretty_N (N.pos p)).
  - change (pretty (Z.neg p)) with ("-" +:+ pretty (N.pos p)).
    unfold parseInt. cbn [String.append].
    destruct (decide ("-"%char = "-"%char)); [|done].
    change (match parse_digits None (pretty (N.pos p)) with
            | Some v => Int (- v) | None => NaN end = Int (Z.neg p)).
    by rewrite parse_digits_pretty.
Qed.

Lemma array_index_pretty (z : Z) :
  array_index (pretty z) = if decide (is_array_index z) then Some z else None.
Proof.
  unfold array_index. rewrite parseInt_pretty.
  destruct (decide (is_array_index z)).
  - by rewrite decide_True.
  - rewrite decide_False; [done|]. tauto.
Qed.

Lemma Number_lt_Int (a b : Z) : Number_lt (Int a) (Int b) = bool_decide (a < b).
Proof. unfold Number_lt. simpl. apply bool_decide_ext. lia. Qed.

Lemma safe_integer_inv (q : Number) :
  safe_integer q = true → ∃ n, shortest q = Int n ∧ Z.abs n < 10 ^ 21.
Proof.
  unfold safe_integer. destruct (shortest q) as [n| | | |]; try done.
  intros Hn%bool_decide_eq_true. by exists n.
Qed.

Lemma toString_safe (q : Number) (n : Z) :
  shortest q = Int n → Z.abs n < 10 ^ 21 → toString q = pretty n.
Proof. intros Hq Hn. unfold toString. rewrite Hq. by rewrite decide_True. Qed.

Lemma toString_Int (n : Z) : Z.abs n < 10 ^ 21 → toString (Int n) = pretty n.
Proof. by apply toString_safe. Qed.

Lemma integers_cons (q : Number) (qs : list Number) (n : Z) :
  shortest q = Int n → integers (q :: qs) = n :: integers qs.
Proof. intros Hq. unfold integers. cbn [omap list_omap]. by rewrite Hq. Qed.

Lemma integers_safe (qs : list Number) (p : Z) :
  forallb safe_integer qs = true → p ∈ integers qs → Z.abs p < 10 ^ 21.
Proof.
  induction qs as [|q qs IH]; [by intros _ []%elem_of_nil|].
  cbn [forallb]. intros [Hq Hqs]%andb_prop.
  apply safe_integer_inv in Hq as (n & Hn & Hsafe).
  rewrite (integers_cons _ _ _ Hn). intros [->|Hp]%elem_of_cons; auto.
Qed.

(** Up to 2^53 every integer is a double. *)
Lemma double_exact (z : Z) : Z.abs z ≤ 2 ^ 53 → double z = Finite z.
Proof. intros Hz. unfold double. cbv zeta. by rewrite decide_True. Qed.

(** *** The tallies over integers with exact sums *)

Lemma as_record_keys (o : list (Z * Z)) : (as_record o).*1 = pretty <$> o.*1.
Proof. unfold as_record. by rewrite <-!list_fmap_compose. Qed.

Lemma rec_get_as_record (o : list (Z * Z)) (p : Z) :
  rec_get (as_record o) (pretty p) = Finite <$> rec_get o p.
Proof.
  induction o as [|[k v] o IH]; [done|]. simpl.
  destruct (decide (k = p)) as [->|Hne].
  - by rewrite !bool_decide_eq_true_2.
  - rewrite !bool_decide_eq_false_2; [done|done|].
    by intros ?%(inj pretty).
Qed.

Lemma rec_set_as_record (o : list (Z * Z)) (p v : Z) :
  rec_set (as_record o) (pretty p) (Finite v) = as_record (rec_set o p v).
Proof.
  induction o as [|[k v0] o IH]; [done|]. simpl.
  destruct (decide (k = p)) as [->|Hne].
  - by rewrite !bool_decide_eq_true_2.
  - rewrite !bool_decide_eq_false_2; [|done|by intros ?%(inj pretty)].
    unfold as_record in *. rewrite fmap_cons. simpl. by rewrite IH.
Qed.

Lemma Amount_or_zero_Finite (v : option Z) :
  Amount_or_zero (Finite <$> v) = Finite (or_zero v).
Proof. destruct v as [n|]; [|done]. simpl. by case_bool_decide. Qed.

Lemma Zsum_nonneg (l : list Z) : Forall (λ z, 0 ≤ z) l → 0 ≤ Zsum l.
Proof. induction 1; simpl; lia. Qed.

Lemma total_listed_nonneg {A} (weight : A → Z)
    (phases : A → option (list Number)) (l : list A) :
  0 ≤ total_listed weight phases l.
Proof.
  unfold total_listed. apply Zsum_nonneg, Forall_fmap, Forall_forall.
  intros x _. simpl. apply Z.mul_nonneg_nonneg; lia.
Qed.

(** One record's listings: as long as the sums stay within 2^53, the loop
    over names and doubles does what the loop over integers does. *)
Lemma add_phases_exact (w : Z) (qs : list Number) (o : list (Z * Z)) (M : Z) :
  forallb safe_integer qs = true →
  (∀ p, Z.abs (or_zero (rec_get o p)) ≤ M) →
  M + Z.abs w * Z.of_nat (length qs) ≤ 2 ^ 53 →
  foldl (λ o q, rec_set o (toString q)
                  (js_add (Amount_or_zero (rec_get o (toString q))) w))
    (as_record o) qs
    = as_record (foldl (λ o p, rec_set o p (or_zero (rec_get o p) + w))
                   o (integers qs))
  ∧ ∀ p, Z.abs (or_zero (rec_get
                  (foldl (λ o p, rec_set o p (or_zero (rec_get o p) + w))
                     o (integers qs)) p))
         ≤ M + Z.abs w * Z.of_nat (length qs).
Proof.
  revert o M. induction qs as [|q qs IH]; intros o M Hqs Ho HM.
  - split; [done|]. intros p. specialize (Ho p).
    change (integers []) with (@nil Z). cbn [foldl length]. lia.
  - cbn [forallb] in Hqs. apply andb_prop in Hqs as [Hq Hqs].
    apply safe_integer_inv in Hq as (n & Hn & Hsafe).
    rewrite (integers_cons _ _ _ Hn). cbn [foldl length] in *.
    rewrite Nat2Z.inj_succ in HM |- *.
    assert (0 ≤ Z.abs w * Z.of_nat (length qs)) as Hrest
      by (apply Z.mul_nonneg_nonneg; lia).
    rewrite (toString_safe _ _ Hn Hsafe), rec_get_as_record,
      Amount_or_zero_Finite.
    unfold js_add. rewrite double_exact by (specialize (Ho n); lia).
    rewrite rec_set_as_record.
    destruct (IH (rec_set o n (or_zero (rec_get o n) + w)) (M + Z.abs w))
      as [Heq Hbound]; [done| |lia|].
    + intros p. rewrite rec_get_set. destruct (decide (n = p)) as [->|Hne].
      * rewrite or_zero_Some. specialize (Ho p). lia.
      * specialize (Ho p). lia.
    + split; [done|]. intros p. specialize (Hbound p). lia.
Qed.

Lemma tally_exact {A} (weight : A → Z) (phases : A → option (list Number))
    (l : list A) (o : list (Z * Z)) (M : Z) :
  forallb (λ x, forallb safe_integer (elems (phases x))) l = true →
  (∀ p, Z.abs (or_zero (rec_get o p)) ≤ M) →
  M + total_listed weight phases l ≤ 2 ^ 53 →
  foldl (λ o x,
           foldl (λ o q, rec_set o (toString q)
                           (js_add (Amount_or_zero (rec_get o (toString q)))
                              (weight x)))
             o (elems (phases x))) (as_record o) l
    = as_record
        (foldl (λ o x,
                  foldl (λ o p, rec_set o p (or_zero (rec_get o p) + weight x))
                    o (integers (elems (phases x)))) o l).
Proof.
  revert o M. induction l as [|x l IH]; intros o M Hl Ho HM; [done|].
  cbn [forallb] in Hl. apply andb_prop in Hl as [Hx Hl].
  pose proof (total_listed_nonneg weight phases l) as Hrest.
  unfold total_listed in HM, Hrest. rewrite fmap_cons in HM.
  cbn [Zsum foldr] in HM. fold (Zsum) in HM. cbn [foldl].
  destruct (add_phases_exact (weight x) (elems (phases x)) o M)
    as [Heq Hbound]; [done|done|unfold Zsum in *; lia|].
  rewrite Heq.
  apply (IH _ (M + Z.abs (weight x) * Z.of_nat (length (elems (phases x)))));
    [done|done|unfold total_listed, Zsum in *; lia].
Qed.

(** Over safe integers whose weights sum up within 2^53, the record that
    the loop builds is the exact tally under the names of its integers. *)
Lemma tally_as_record {A} (weight : A → Z) (phases : A → option (list Number))
    (l : list A) :
  forallb (λ x, forallb safe_integer (elems (phases x))) l = true →
  total_listed weight phases l ≤ 2 ^ 53 →
  tally weight phases l
    = as_record (exact_tally weight (λ x, integers (elems (phases x))) l).
Proof.
  intros Hl Hsum. unfold tally, exact_tally.
  apply (tally_exact weight phases l [] 0); [done|by intros p|lia].
Qed.

Lemma omap_array_index (l : list Z) :
  omap array_index (pretty <$> l) = filter is_array_index l.
Proof.
  induction l as [|k l IH]; [done|].
  rewrite fmap_cons, filter_cons. cbn [omap list_omap].
  fold (omap array_index (pretty <$> l)). rewrite array_index_pretty, IH.
  by destruct (decide (is_array_index k)).
Qed.

Lemma filter_other_names (l : list Z) :
  filter (λ key, array_index key = None) (pretty <$> l)
    = pretty <$> filter (λ k, ¬ is_array_index k) l.
Proof.
  induction l as [|k l IH]; [done|].
  rewrite fmap_cons, !filter_cons, IH, array_index_pretty.
  destruct (decide (is_array_index k)) as [Hk|Hk].
  - rewrite decide_False by done. by rewrite decide_False by tauto.
  - rewrite decide_True by done. by rewrite decide_True by done.
Qed.

(** The names of such a record are visited in the order of its integers. *)
Lemma Object_keys_as_record (o : list (Z * Z)) :
  Object_keys (as_record o) = pretty <$> phase_order o.
Proof.
  unfold Object_keys, phase_order.
  by rewrite as_record_keys, omap_array_index, filter_other_names, fmap_app.
Qed.

Lemma filter_iff_on {A} (P Q : A → Prop) `{∀ x, Decision (P x)}
    `{∀ x, Decision (Q x)} (l : list A) :
  (∀ x, x ∈ l → P x ↔ Q x) → filter P l = filter Q l.
Proof.
  induction l as [|x l IH]; intros HPQ; [done|].
  rewrite !filter_cons, IH by (intros y Hy; apply HPQ; by right).
  destruct (decide (P x)) as [HP|HP], (decide (Q x)) as [HQ|HQ]; try done;
    apply (HPQ x) in HP || apply (HPQ x) in HQ; by try left.
Qed.

Lemma bind_ext_on {A B} (g h : A → list B) (l : list A) :
  (∀ x, x ∈ l → g x = h x) → l ≫= g = l ≫= h.
Proof.
  induction l as [|x l IH]; intros Hgh; [done|].
  rewrite !bind_cons, IH by (intros y Hy; apply Hgh; by right).
  by rewrite Hgh by left.
Qed.

Lemma preferred_safe (e : Engine) (p : Z) :
  integer_listings e = true → p ∈ preferred e → Z.abs p < 10 ^ 21.
Proof.
  unfold integer_listings, preferred. intros [_ Hts]%andb_prop.
  intros (t & Hp & Ht)%list_elem_of_bind.
  apply (integers_safe (elems (PreferredPhases t))); [|done].
  by apply (forallb_elem _ _ _ Hts Ht).
Qed.

(** Under these two conditions the saturation check reports the saturated
    phases of the integer reading, in their order. *)
Lemma saturation_errors_exact (e : Engine) :
  integer_listings e = true → exact_sums e = true →
  saturation_errors e
    = (λ p : Z, phase_saturation p (demand e p) (capacity e p))
        <$> saturated_phases e.
Proof.
  intros Hint Hsums. pose proof Hint as Hint'.
  unfold integer_listings in Hint'. apply andb_prop in Hint' as [Hws Hts].
  unfold exact_sums in Hsums.
  apply andb_prop in Hsums as [Hcap%bool_decide_eq_true Hdem%bool_decide_eq_true].
  unfold saturation_errors, saturated_phases. cbv zeta.
  rewrite !tally_as_record by done. fold slots_of phases_of.
  rewrite Object_keys_as_record, list_fmap_bind.
  rewrite <-bind_if_filter. apply bind_ext_on. intros p Hp. simpl.
  assert (p ∈ preferred e) as Hpref by (by apply tally_listed in Hp).
  pose proof (preferred_safe e p Hint Hpref) as Hsafe.
  unfold saturation_of. cbv zeta.
  rewrite parseInt_pretty, toString_Int, !rec_get_as_record by done.
  rewrite phase_order_Permutation in Hp.
  rewrite (rec_get_Some _ _ Hp), Amount_or_zero_Finite.
  unfold exact_tally. rewrite !tally_value. simpl fmap.
  change (or_zero (rec_get [] p)) with 0. rewrite !Z.add_0_l.
  fold (demand e p) (capacity e p). unfold Amount_gt.
  by case_bool_decide; destruct (decide _).
Qed.

Section Facts.

Variable Math_random : nat → string.
Variable JSON_parse_ok : string → bool.

Lemma validateOutOfRangeValues_run (w : World) :
  validateOutOfRangeValues w = (Normal (out_of_range_errors (this w)), w).
Proof.
  unfold validateOutOfRangeValues, out_of_range_errors.
  rewrite run_bind, run_read_this.
  rewrite run_bind, (forEach_push_if
    (λ c, PriorityLevel c < 1 ∨ PriorityLevel c > 5) invalid_priority).
  2:{ push_if_case. }
  rewrite run_bind, run_read_this.
  rewrite run_bind, (forEach_push_if (λ t, Duration t < 1) invalid_duration).
  2:{ push_if_case. }
  rewrite run_bind, run_read_this.
  rewrite run_bind, (forEach_push_if (λ w, MaxLoadPerPhase w < 1) invalid_load).
  2:{ push_if_case. }
  simpl. by rewrite <-app_assoc.
Qed.

Lemma validateMalformedLists_run (w : World) :
  validateMalformedLists w = (Normal (malformed_errors (this w)), w).
Proof.
  unfold validateMalformedLists, malformed_errors.
  rewrite run_bind, run_read_this.
  rewrite run_bind, (forEach_emit (λ w,
    match AvailableSlots w with
    | None => [malformed_slots w]
    | Some slots =>
        invalid_slot w <$>
          filter (λ slot, Number_isInteger slot = false ∨ Number_lt slot 1 = true)
            slots
    end)); [done|].
  intros x _ s. destruct (AvailableSlots x) as [slots|]; [|done].
  apply forEach_push_if. intros slot _ s'.
  destruct (decide _) as [Hbad|Hgood];
    destruct (Number_isInteger slot), (Number_lt slot 1); simpl; naive_solver.
Qed.

Lemma validateBrokenJSON_run (w : World) :
  validateBrokenJSON JSON_parse_ok w
    = (Normal (broken_json_errors JSON_parse_ok (this w)), w).
Proof.
  unfold validateBrokenJSON, broken_json_errors.
  rewrite run_bind, run_read_this.
  rewrite run_bind, (forEach_push_if
    (λ c, JSON_parse_ok (AttributesJSON c) = false) broken_json); [done|].
  intros x _ s. unfold try_catch, JSON_parse. rewrite run_bind.
  by destruct (JSON_parse_ok (AttributesJSON x)).
Qed.

Lemma run_prop_of {A} (x : option (list A)) (w : World) :
  prop_of x w = (if defined x then Normal (elems x) else Throw TypeError, w).
Proof. by destruct x. Qed.

Lemma validateUnknownReferences_run (w : World) :
  validateUnknownReferences w =
    (if requested_ok (this w) then Normal (unknown_reference_errors (this w))
     else Throw TypeError, w).
Proof.
  unfold validateUnknownReferences, unknown_reference_errors, requested_ok.
  rewrite run_bind, run_read_this. rewrite run_bind, run_read_this.
  rewrite run_bind, (forEach_guard_emit
    (λ c, defined (RequestedTaskIDs c)) (unknown_of (this w))).
  { by destruct (forallb _ _). }
  intros x _ s. rewrite run_bind, run_prop_of. unfold unknown_of.
  destruct (RequestedTaskIDs x) as [requested|]; [|done]. simpl.
  apply forEach_push_if. intros taskId _ s'.
  case_bool_decide as Hin; rewrite elem_of_list_to_set in Hin; simpl;
    destruct (decide _); done.
Qed.

Lemma validateOverloadedWorkers_run (w : World) :
  validateOverloadedWorkers w =
    (if slots_ok (this w) then Normal (overloaded_errors (this w))
     else Throw TypeError, w).
Proof.
  unfold validateOverloadedWorkers, overloaded_errors, slots_ok.
  rewrite run_bind, run_read_this.
  rewrite run_bind, (forEach_guard_emit
    (λ w, defined (AvailableSlots w))
    (λ w, if decide (Z.of_nat (length (elems (AvailableSlots w))) < MaxLoadPerPhase w)
          then [overloaded_worker w (elems (AvailableSlots w))] else [])).
  { rewrite bind_if_filter. by destruct (forallb _ _). }
  intros x _ s. rewrite run_bind, run_prop_of.
  destruct (AvailableSlots x) as [slots|]; [|done]. simpl.
  case_bool_decide; destruct (decide _); try done. by rewrite app_nil_r.
Qed.

Lemma validateSkillCoverageMatrix_run (w : World) :
  validateSkillCoverageMatrix w =
    (if skills_ok (this w) && required_ok (this w)
     then Normal (skill_coverage_errors (this w)) else Throw TypeError, w).
Proof.
  unfold validateSkillCoverageMatrix, skill_coverage_errors, skills_ok, required_ok.
  rewrite run_bind, run_read_this.
  rewrite run_bind, (forEach_guard (λ w, defined (Skills w))
    (λ s w, foldl (λ s skill, {[skill]} ∪ s) s (elems (Skills w)))).
  2:{ intros x _ s. rewrite run_bind, run_prop_of.
      destruct (Skills x) as [skills|]; [|done]. simpl.
      by apply forEach_fold. }
  destruct (forallb _ (workers _)); [|done]. simpl.
  rewrite run_bind, run_read_this.
  rewrite run_bind, (forEach_guard_emit (λ t, defined (RequiredSkills t))
    (λ t, missing_skill t <$>
       filter (λ skill, skill ∉ (workers (this w) ≫= λ w, elems (Skills w)))
         (elems (RequiredSkills t)))).
  { by destruct (forallb _ _). }
  intros x _ s. rewrite run_bind, run_prop_of.
  destruct (RequiredSkills x) as [required|]; [|done]. simpl.
  apply forEach_push_if. intros skill _ s'.
  pose proof (not_elem_of_empty (C:=gset string) skill).
  case_bool_decide as Hin; rewrite elem_of_skill_set in Hin; simpl;
    destruct (decide _); tauto.
Qed.

Lemma validateMaxConcurrencyFeasibility_run (w : World) :
  skills_ok (this w) = true → required_ok (this w) = true →
  validateMaxConcurrencyFeasibility w = (Normal (concurrency_errors (this w)), w).
Proof.
  intros Hskills Hrequired.
  unfold validateMaxConcurrencyFeasibility, concurrency_errors.
  rewrite run_bind, run_read_this.
  rewrite run_bind, (forEach_push_if
    (λ t, MaxConcurrent t > Z.of_nat (length (qualified (this w) t)))
    (λ t, infeasible_concurrency t (Z.of_nat (length (qualified (this w) t))))); [done|].
  intros t Ht s. rewrite run_bind, run_read_this.
  rewrite run_bind, (run_filter_
    (λ w, elems (RequiredSkills t) ⊆ elems (Skills w))).
  - fold (qualified (this w) t). push_if_case.
  - intros x Hx. rewrite run_bind, run_prop_of.
    rewrite (forallb_elem _ _ _ Hrequired Ht).
    rewrite (run_every (includes (elems (Skills x)))).
    + by rewrite forallb_includes.
    + intros skill _. rewrite run_bind, run_prop_of.
      by rewrite (forallb_elem _ _ _ Hskills Hx).
Qed.

Lemma missing_callback {A} (idOf nameOf : A → option string)
    (idErr nameErr : string → A → ValidationError)
    (x : A) (errors : list ValidationError) (w : World) :
  (errors ←
     (if falsy (idOf x) then
        r ← Math_random_call Math_random; mret (push errors (idErr r x))
      else mret errors);
   if falsy (nameOf x) then
     r ← Math_random_call Math_random; mret (push errors (nameErr r x))
   else mret errors) w
  = (Normal (errors ++ missing_of Math_random idOf nameOf idErr nameErr (draws w) x),
     {| this := this w;
        draws := draws w
          + length (missing_of Math_random idOf nameOf idErr nameErr (draws w) x) |}).
Proof.
  unfold missing_of, Math_random_call, push. destruct w as [e n].
  destruct (falsy (idOf x)), (falsy (nameOf x));
    cbv [mbind M_bind mret M_ret]; simpl;
    rewrite ?app_nil_r, ?Nat.add_0_r, ?Nat.add_1_r, <-?app_assoc; simpl;
    repeat f_equal; lia.
Qed.

Lemma validateMissingRequiredColumns_run (w : World) :
  validateMissingRequiredColumns Math_random w =
    (Normal (missing_errors Math_random (draws w) (this w)),
     {| this := this w;
        draws := draws w + length (missing_errors Math_random (draws w) (this w)) |}).
Proof.
  unfold validateMissingRequiredColumns, missing_errors.
  rewrite run_bind, run_read_this.
  rewrite run_bind, (forEach_drawn
    (missing_of Math_random ClientID ClientName missing_client_id missing_client_name))
    by (intros; apply missing_callback).
  rewrite run_bind, run_read_this.
  rewrite run_bind, (forEach_drawn
    (missing_of Math_random WorkerID WorkerName missing_worker_id missing_worker_name))
    by (intros; apply missing_callback).
  rewrite run_bind, run_read_this.
  rewrite run_bind, (forEach_drawn
    (missing_of Math_random TaskID TaskName missing_task_id missing_task_name))
    by (intros; apply missing_callback).
  simpl. rewrite !length_app, <-!app_assoc. f_equal. f_equal. lia.
Qed.

Lemma validateDuplicateIDs_run (w : World) :
  validateDuplicateIDs w = (Normal (duplicate_errors (this w)), w).
Proof.
  unfold validateDuplicateIDs, duplicate_errors.
  rewrite run_bind, run_read_this.
  rewrite run_bind, (forEach_fold (seen_step ClientID duplicate_client))
    by (by intros x _ [errs ids]).
  rewrite foldl_seen_step. simpl.
  rewrite run_bind, run_read_this.
  rewrite run_bind, (forEach_fold (seen_step WorkerID duplicate_worker))
    by (by intros x _ [errs ids]).
  rewrite foldl_seen_step. simpl.
  rewrite run_bind, run_read_this.
  rewrite run_bind, (forEach_fold (seen_step TaskID duplicate_task))
    by (by intros x _ [errs ids]).
  rewrite foldl_seen_step. simpl. by rewrite <-app_assoc.
Qed.

Lemma validatePhaseSlotSaturation_run (w : World) :
  validatePhaseSlotSaturation w =
    (if slots_ok (this w) && phases_ok (this w)
     then Normal (saturation_errors (this w)) else Throw TypeError, w).
Proof.
  unfold validatePhaseSlotSaturation, saturation_errors, slots_ok, phases_ok.
  rewrite run_bind, run_read_this.
  rewrite run_bind, (forEach_guard (λ w, defined (AvailableSlots w))
    (λ o x, foldl (λ o p, rec_set o (toString p)
                            (js_add (Amount_or_zero (rec_get o (toString p)))
                               (MaxLoadPerPhase x)))
              o (elems (AvailableSlots x)))).
  2:{ intros x _ s. rewrite run_bind, run_prop_of.
      destruct (AvailableSlots x) as [slots|]; [|done]. simpl.
      by apply forEach_fold. }
  destruct (forallb _ (workers _)); [|done]. simpl.
  rewrite run_bind, run_read_this.
  rewrite run_bind, (forEach_guard (λ t, defined (PreferredPhases t))
    (λ o x, foldl (λ o p, rec_set o (toString p)
                            (js_add (Amount_or_zero (rec_get o (toString p)))
                               (Duration x)))
              o (elems (PreferredPhases x)))).
  2:{ intros x _ s. rewrite run_bind, run_prop_of.
      destruct (PreferredPhases x) as [phases|]; [|done]. simpl.
      by apply forEach_fold. }
  destruct (forallb _ (tasks _)); [|done]. simpl.
  fold (tally MaxLoadPerPhase AvailableSlots (workers (this w))).
  fold (tally Duration PreferredPhases (tasks (this w))).
  rewrite run_bind, (forEach_emit
    (saturation_of (tally Duration PreferredPhases (tasks (this w)))
       (tally MaxLoadPerPhase AvailableSlots (workers (this w))))); [done|].
  intros phaseStr _ s. unfold saturation_of.
  destruct (rec_get _ _) as [demand|]; [|by rewrite app_nil_r].
  simpl. destruct (Amount_gt _ _); [done|by rewrite app_nil_r].
Qed.

(** The whole pass: it returns exactly when every list-valued field holds
    an array, and then the twelve results in order; the only trace it
    leaves is the number of random draws. *)
Lemma validateAll_run (w : World) :
  validateAll Math_random JSON_parse_ok w =
    (if arrays_ok (this w)
     then Normal (all_errors Math_random JSON_parse_ok (draws w) (this w))
     else Throw TypeError,
     {| this := this w;
        draws := draws w + length (missing_errors Math_random (draws w) (this w)) |}).
Proof.
  unfold validateAll, all_errors, arrays_ok.
  unfold validateCircularCoRunGroups, validateConflictingRules.
  rewrite run_bind, validateMissingRequiredColumns_run.
  rewrite run_bind, validateDuplicateIDs_run.
  rewrite run_bind, validateMalformedLists_run.
  rewrite run_bind, validateOutOfRangeValues_run.
  rewrite run_bind, validateBrokenJSON_run.
  rewrite run_bind, validateUnknownReferences_run. cbn [this].
  destruct (requested_ok (this w)); [|done]. cbn [andb].
  rewrite run_bind, run_ret.
  rewrite run_bind, validateOverloadedWorkers_run. cbn [this].
  destruct (slots_ok (this w)) eqn:Hslots; [|done]. cbn [andb].
  rewrite run_bind, validatePhaseSlotSaturation_run. cbn [this].
  rewrite Hslots. cbn [andb].
  destruct (phases_ok (this w)); [|done]. cbn [andb].
  rewrite run_bind, validateSkillCoverageMatrix_run. cbn [this].
  destruct (skills_ok (this w)) eqn:Hskills; [|done]. cbn [andb].
  destruct (required_ok (this w)) eqn:Hrequired; [|done].
  rewrite run_bind, validateMaxConcurrencyFeasibility_run by done.
  rewrite run_bind, run_ret, run_ret. cbn [this].
  by rewrite !app_nil_r, <-!app_assoc.
Qed.

Lemma validate_run (cs : list Client) (ws : list Worker) (ts : list Task)
    (w : World) :
  let e := {| clients := cs; workers := ws; tasks := ts |} in
  validate Math_random JSON_parse_ok cs ws ts w =
    (if arrays_ok e
     then Normal (all_errors Math_random JSON_parse_ok (draws w) e)
     else Throw TypeError,
     {| this := e;
        draws := draws w + length (missing_errors Math_random (draws w) e) |}).
Proof.
  intros e. unfold validate, setData, write_this.
  rewrite run_bind. by rewrite validateAll_run.
Qed.

Lemma missing_errors_reports n e :
  reports "missing_required_field" (missing_errors Math_random n e).
Proof.
  unfold missing_errors. repeat apply reports_app; apply reports_drawn;
    intros k x; unfold missing_of;
    repeat apply reports_app; destruct (falsy _); repeat constructor; auto.
Qed.

Lemma duplicate_errors_reports e : reports "duplicate_id" (duplicate_errors e).
Proof.
  unfold duplicate_errors. repeat apply reports_app; apply reports_fmap; auto.
Qed.

Lemma malformed_errors_reports e : reports "malformed_list" (malformed_errors e).
Proof.
  unfold malformed_errors. apply reports_bind. intros x.
  destruct (AvailableSlots x); [apply reports_fmap; auto|].
  repeat constructor; auto.
Qed.

Lemma out_of_range_errors_reports e :
  reports "out_of_range" (out_of_range_errors e).
Proof.
  unfold out_of_range_errors. repeat apply reports_app; apply reports_fmap; auto.
Qed.

Lemma broken_json_errors_reports e :
  reports "broken_json" (broken_json_errors JSON_parse_ok e).
Proof. unfold broken_json_errors. apply reports_fmap; auto. Qed.

Lemma unknown_reference_errors_reports e :
  reports "unknown_reference" (unknown_reference_errors e).
Proof.
  unfold unknown_reference_errors. apply reports_bind. intros x.
  apply reports_fmap; auto.
Qed.

Lemma overloaded_errors_reports e :
  reports "overloaded_worker" (overloaded_errors e).
Proof. unfold overloaded_errors. apply reports_fmap; auto. Qed.

Lemma saturation_errors_reports e :
  reports "phase_saturation" (saturation_errors e).
Proof.
  unfold saturation_errors. apply reports_bind. intros phaseStr.
  unfold saturation_of. destruct (rec_get _ _) as [demand|]; [|constructor].
  simpl. destruct (Amount_gt _ _); [|constructor].
  constructor; [|constructor]. split; [done|by right].
Qed.

Lemma skill_coverage_errors_reports e :
  reports "skill_coverage" (skill_coverage_errors e).
Proof.
  unfold skill_coverage_errors. apply reports_bind. intros x.
  apply reports_fmap; auto.
Qed.

Lemma concurrency_errors_reports e :
  reports "max_concurrency" (concurrency_errors e).
Proof. unfold concurrency_errors. apply reports_fmap; auto. Qed.

End Facts.

Create HintDb reports_db.
#[export] Hint Resolve missing_errors_reports duplicate_errors_reports
  malformed_errors_reports out_of_range_errors_reports
  broken_json_errors_reports unknown_reference_errors_reports
  overloaded_errors_reports saturation_errors_reports
  skill_coverage_errors_reports concurrency_errors_reports : reports_db.

(** ** Selecting the errors of one kind from the whole result *)

Section Selection.

Variable Math_random : nat → string.
Variable JSON_parse_ok : string → bool.
Context (P : ValidationError → Prop) `{∀ d, Decision (P d)}.
Context (n : nat) (e : Engine).

Local Abbreviation result := (all_errors Math_random JSON_parse_ok n e).

Ltac keep_kind T :=
  intros HP; unfold all_errors; rewrite !filter_app;
  repeat match goal with
  | |- context [filter P ?l] =>
      rewrite (filter_other_type _ T P l)
        by first [by eauto with reports_db | done]
  end;
  by rewrite ?app_nil_r.

Lemma select_missing :
  (∀ d, P d → type d = "missing_required_field") →
  filter P result = filter P (missing_errors Math_random n e).
Proof. keep_kind "missing_required_field". Qed.

Lemma select_duplicate :
  (∀ d, P d → type d = "duplicate_id") →
  filter P result = filter P (duplicate_errors e).
Proof. keep_kind "duplicate_id". Qed.

Lemma select_out_of_range :
  (∀ d, P d → type d = "out_of_range") →
  filter P result = filter P (out_of_range_errors e).
Proof. keep_kind "out_of_range". Qed.

Lemma select_unknown_reference :
  (∀ d, P d → type d = "unknown_reference") →
  filter P result = filter P (unknown_reference_errors e).
Proof. keep_kind "unknown_reference". Qed.

Lemma select_saturation :
  (∀ d, P d → type d = "phase_saturation") →
  filter P result = filter P (saturation_errors e).
Proof. keep_kind "phase_saturation". Qed.

Lemma select_concurrency :
  (∀ d, P d → type d = "max_concurrency") →
  filter P result = filter P (concurrency_errors e).
Proof. keep_kind "max_concurrency". Qed.

Lemma select_malformed :
  (∀ d, P d → type d = "malformed_list") →
  filter P result = filter P (malformed_errors e).
Proof. keep_kind "malformed_list". Qed.

Lemma select_broken_json :
  (∀ d, P d → type d = "broken_json") →
  filter P result = filter P (broken_json_errors JSON_parse_ok e).
Proof. keep_kind "broken_json". Qed.

Lemma select_overloaded :
  (∀ d, P d → type d = "overloaded_worker") →
  filter P result = filter P (overloaded_errors e).
Proof. keep_kind "overloaded_worker". Qed.

Lemma select_skill_coverage :
  (∀ d, P d → type d = "skill_coverage") →
  filter P result = filter P (skill_coverage_errors e).
Proof. keep_kind "skill_coverage". Qed.

End Selection.

Lemma filter_length_mono {A} (P Q : A → Prop) `{∀ x, Decision (P x)}
    `{∀ x, Decision (Q x)} (l : list A) :
  (∀ x, P x → Q x) → (length (filter P l) ≤ length (filter Q l))%nat.
Proof.
  intros HPQ. induction l as [|x l IH]; [done|]. rewrite !filter_cons.
  destruct (decide (P x)) as [HP|HP], (decide (Q x)) as [HQ|HQ]; simpl;
    try lia. by apply HPQ in HP.
Qed.

Section Missing.

Variable Math_random : nat → string.
Context {A : Type} (idOf nameOf : A → option string).
Context (idErr nameErr : string → A → ValidationError).
Context (P : ValidationError → Prop) `{∀ d, Decision (P d)}.
Context (pid pname : bool).
Hypothesis P_id : ∀ r x, P (idErr r x) ↔ pid = true.
Hypothesis P_name : ∀ r x, P (nameErr r x) ↔ pname = true.

(** Among the errors of one loop of the first check, those selected by
    [P]: the identifier errors, the name errors, both or none. *)
Lemma drawn_missing_length (n : nat) (l : list A) :
  length (filter P (drawn (missing_of Math_random idOf nameOf idErr nameErr) n l))
    = ((if pid then length (filter (λ x, falsy (idOf x) = true) l) else 0)
       + (if pname then length (filter (λ x, falsy (nameOf x) = true) l) else 0))%nat.
Proof.
  revert n. induction l as [|x l IH]; intros n.
  - by destruct pid, pname.
  - cbn [drawn]. rewrite filter_app, length_app, IH, !(filter_cons _ x).
    unfold missing_of.
    destruct (falsy (idOf x)), (falsy (nameOf x)); simpl;
      rewrite ?filter_cons, ?filter_nil;
      repeat match goal with
      | |- context [decide (P ?d)] =>
          let HP := fresh "HP" in
          destruct (decide (P d)) as [HP|HP];
          [apply P_id in HP || apply P_name in HP
          |rewrite P_id in HP || rewrite P_name in HP]
      end;
      destruct pid, pname; simpl; try done; try lia.
Qed.

End Missing.

(** ** The claims *)

Section Claims.

Variable Math_random : nat → string.
Variable JSON_parse_ok : string → bool.

Local Abbreviation validate' := (validate Math_random JSON_parse_ok).
Local Abbreviation all_errors' := (all_errors Math_random JSON_parse_ok).

Lemma validate_run_ok (cs : list Client) (ws : list Worker) (ts : list Task)
    (w : World) :
  let e := {| clients := cs; workers := ws; tasks := ts |} in
  arrays_ok e = true →
  validate' cs ws ts w =
    (Normal (all_errors' (draws w) e),
     {| this := e;
        draws := draws w + length (missing_errors Math_random (draws w) e) |}).
Proof. intros e He. rewrite validate_run. fold e. by rewrite He. Qed.

Lemma same_but_random_id_refl d : same_but_random_id d d.
Proof. by repeat split. Qed.

Lemma drawn_agree {A} (g : nat → A → list ValidationError) (l : list A) :
  (∀ n n' x, Forall2 same_but_random_id (g n x) (g n' x)) →
  ∀ n n', Forall2 same_but_random_id (drawn g n l) (drawn g n' l).
Proof.
  intros Hg. induction l as [|x l IH]; intros n n'; simpl; [constructor|].
  apply Forall2_app; [apply Hg|apply IH].
Qed.

Lemma missing_of_agree {A} (idOf nameOf : A → option string)
    (idErr nameErr : string → A → ValidationError) :
  (∀ r r' x, same_but_random_id (idErr r x) (idErr r' x)) →
  (∀ r r' x, same_but_random_id (nameErr r x) (nameErr r' x)) →
  ∀ n n' x, Forall2 same_but_random_id
    (missing_of Math_random idOf nameOf idErr nameErr n x)
    (missing_of Math_random idOf nameOf idErr nameErr n' x).
Proof.
  intros Hid Hname n n' x. unfold missing_of.
  destruct (falsy (idOf x)), (falsy (nameOf x)); simpl;
    repeat (constructor; [by auto|]); constructor.
Qed.

Lemma missing_errors_agree n n' e :
  Forall2 same_but_random_id
    (missing_errors Math_random n e) (missing_errors Math_random n' e).
Proof.
  unfold missing_errors.
  repeat apply Forall2_app; apply drawn_agree; apply missing_of_agree;
    intros; by repeat split.
Qed.

Lemma all_errors_agree n n' e :
  Forall2 same_but_random_id (all_errors' n e) (all_errors' n' e).
Proof.
  unfold all_errors. apply Forall2_app; [apply missing_errors_agree|].
  apply Forall_Forall2_diag, Forall_forall. intros d _.
  apply same_but_random_id_refl.
Qed.

(** C1, as amended: two successive calls on the same collections end the
    same way, and when they return, the two sequences have the same length
    and agree at every position in every field, except that the [id] of a
    [missing_required_field] error, which embeds a fresh random number,
    may differ. *)
Theorem validate_twice_agree (cs : list Client) (ws : list Worker)
    (ts : list Task) (w : World) :
  let first := validate' cs ws ts w in
  let second := validate' cs ws ts first.2 in
  outcomes_agree first.1 second.1.
Proof.
  intros first second. unfold first, second. rewrite !validate_run. simpl.
  destruct (arrays_ok _); simpl; [apply all_errors_agree|done].
Qed.

(** C8: a pass leaves the collections held by the engine, and so the
    caller's collections and every record in them, as they were, whether it
    returns or throws; [validate] leaves the engine holding exactly the
    collections it was given. *)
Theorem validate_leaves_collections (cs : list Client) (ws : list Worker)
    (ts : list Task) (w : World) :
  this (validateAll Math_random JSON_parse_ok w).2 = this w
  ∧ this (validate' cs ws ts w).2
      = {| clients := cs; workers := ws; tasks := ts |}.
Proof. by rewrite validateAll_run, validate_run. Qed.

Lemma reports_severity T l :
  reports T l → Forall (λ d, severity d = error ∨ severity d = warning) l.
Proof. intros Hl. eapply Forall_impl; [exact Hl|]. by intros d [_ Hd]. Qed.

Lemma all_errors_severity n e :
  Forall (λ d, severity d = error ∨ severity d = warning) (all_errors' n e).
Proof.
  unfold all_errors. rewrite !Forall_app.
  split_and!; eapply reports_severity; eauto with reports_db.
Qed.

(** C9: every error of a returned sequence has severity [error] or
    [warning]; none has severity [info]. *)
Theorem severity_never_info (cs : list Client) (ws : list Worker)
    (ts : list Task) (w w' : World) (errs : list ValidationError) :
  validate' cs ws ts w = (Normal errs, w') →
  Forall (λ d, (severity d = error ∨ severity d = warning) ∧ severity d ≠ info) errs.
Proof.
  rewrite validate_run. destruct (arrays_ok _); [|done]. intros [= <- _].
  eapply Forall_impl; [apply all_errors_severity|].
  intros d [Hd|Hd]; rewrite Hd; auto.
Qed.

Lemma duplicate_ids_count (cs : list Client) (ws : list Worker)
    (ts : list Task) (w : World) :
  let e := {| clients := cs; workers := ws; tasks := ts |} in
  arrays_ok e = true →
  let errs := all_errors' (draws w) e in
  (∀ i, length (filter (λ d, type d = "duplicate_id" ∧ entity d = "clients"
                             ∧ entityId d = i) errs)
          = pred (length (filter (λ c, ClientID c = i) cs)))
  ∧ (∀ i, length (filter (λ d, type d = "duplicate_id" ∧ entity d = "workers"
                               ∧ entityId d = i) errs)
          = pred (length (filter (λ x, WorkerID x = i) ws)))
  ∧ (∀ i, length (filter (λ d, type d = "duplicate_id" ∧ entity d = "tasks"
                               ∧ entityId d = i) errs)
          = pred (length (filter (λ t, TaskID t = i) ts))).
Proof.
  intros e He errs. unfold errs.
  split_and!; intros i; rewrite select_duplicate by naive_solver;
    unfold duplicate_errors; rewrite !filter_app, !length_app.
  - rewrite (filter_fmap_iff_length duplicate_client _ (λ c, ClientID c = i))
      by naive_solver.
    rewrite !filter_fmap_none by naive_solver. simpl.
    rewrite repeats_count. lia.
  - rewrite (filter_fmap_iff_length duplicate_worker _ (λ x, WorkerID x = i))
      by naive_solver.
    rewrite !filter_fmap_none by naive_solver. simpl.
    rewrite repeats_count. lia.
  - rewrite (filter_fmap_iff_length duplicate_task _ (λ t, TaskID t = i))
      by naive_solver.
    rewrite !filter_fmap_none by naive_solver. simpl.
    rewrite repeats_count. lia.
Qed.

(** C3: the [duplicate_id] errors of a result are, collection by
    collection and in order, one per record whose identifier already occurs
    at an earlier position of the same collection; so an identifier carried
    by [k + 1] records of a collection is reported [k] times for that
    collection, once when exactly two records share it, and every
    such error has severity [error]. *)
Theorem duplicate_ids_flagged (cs : list Client) (ws : list Worker)
    (ts : list Task) (w : World) :
  let e := {| clients := cs; workers := ws; tasks := ts |} in
  arrays_ok e = true →
  ∃ errs w', validate' cs ws ts w = (Normal errs, w')
    ∧ filter (λ d, type d = "duplicate_id" ∧ entity d = "clients") errs
        = duplicate_client <$> repeats ClientID cs
    ∧ filter (λ d, type d = "duplicate_id" ∧ entity d = "workers") errs
        = duplicate_worker <$> repeats WorkerID ws
    ∧ filter (λ d, type d = "duplicate_id" ∧ entity d = "tasks") errs
        = duplicate_task <$> repeats TaskID ts
    ∧ (∀ i,
        length (filter (λ d, type d = "duplicate_id" ∧ entity d = "clients"
                             ∧ entityId d = i) errs)
          = pred (length (filter (λ c, ClientID c = i) cs))
        ∧ length (filter (λ d, type d = "duplicate_id" ∧ entity d = "workers"
                               ∧ entityId d = i) errs)
          = pred (length (filter (λ x, WorkerID x = i) ws))
        ∧ length (filter (λ d, type d = "duplicate_id" ∧ entity d = "tasks"
                               ∧ entityId d = i) errs)
          = pred (length (filter (λ t, TaskID t = i) ts)))
    ∧ Forall (λ d, type d = "duplicate_id" → severity d = error) errs.
Proof.
  intros e He. eexists _, _. split; [by apply validate_run_ok|].
  rewrite !select_duplicate by naive_solver. unfold duplicate_errors.
  split_and!.
  - rewrite !filter_app, (filter_fmap_all duplicate_client),
      !filter_fmap_none by naive_solver.
    by rewrite ?app_nil_r.
  - rewrite !filter_app, (filter_fmap_all duplicate_worker),
      !filter_fmap_none by naive_solver.
    by rewrite ?app_nil_r.
  - rewrite !filter_app, (filter_fmap_all duplicate_task),
      !filter_fmap_none by naive_solver.
    by rewrite ?app_nil_r.
  - intros i. destruct (duplicate_ids_count cs ws ts w He) as (Hc & Hw & Ht).
    split_and!; [apply Hc|apply Hw|apply Ht].
  - unfold all_errors. rewrite !Forall_app. split_and!.
    2:{ unfold duplicate_errors. rewrite !Forall_app, !Forall_fmap.
        split_and!; by apply Forall_forall. }
    all: match goal with |- Forall _ ?l =>
           assert (∃ T, reports T l ∧ T ≠ "duplicate_id") as (T & HT & Hne)
             by (eexists; split; [eauto with reports_db|done]) end;
      (eapply Forall_impl; [exact HT|]); intros d [Hd _] Hd'; congruence.
Qed.

Lemma got_inj (prefix : string) (a b : Z) :
  prefix +:+ Number_toString a = prefix +:+ Number_toString b → a = b.
Proof.
  intros Heq. apply String.app_inj in Heq. by apply pretty_Z_inj in Heq.
Qed.

(** C4: the [out_of_range] errors on [PriorityLevel] are, in order, one per
    client whose priority level is below 1 or above 5, and a client is
    reported exactly when its level is; likewise for tasks with [Duration]
    below 1 and workers with [MaxLoadPerPhase] below 1.  Each has severity
    [error] and a message ending in the offending value. *)
Theorem out_of_range_flagged (cs : list Client) (ws : list Worker)
    (ts : list Task) (w : World) :
  let e := {| clients := cs; workers := ws; tasks := ts |} in
  arrays_ok e = true →
  ∃ errs w', validate' cs ws ts w = (Normal errs, w')
    ∧ filter (λ d, type d = "out_of_range" ∧ field d = "PriorityLevel") errs
        = invalid_priority <$>
            filter (λ c, PriorityLevel c < 1 ∨ PriorityLevel c > 5) cs
    ∧ filter (λ d, type d = "out_of_range" ∧ field d = "Duration") errs
        = invalid_duration <$> filter (λ t, Duration t < 1) ts
    ∧ filter (λ d, type d = "out_of_range" ∧ field d = "MaxLoadPerPhase") errs
        = invalid_load <$> filter (λ x, MaxLoadPerPhase x < 1) ws
    ∧ (∀ c, c ∈ cs →
         (invalid_priority c ∈ errs ↔ PriorityLevel c < 1 ∨ PriorityLevel c > 5)
         ∧ (PriorityLevel c = 0 ∨ PriorityLevel c = 6 → invalid_priority c ∈ errs)
         ∧ (1 ≤ PriorityLevel c ≤ 5 → invalid_priority c ∉ errs)
         ∧ severity (invalid_priority c) = error
         ∧ message (invalid_priority c)
             = "PriorityLevel must be between 1 and 5, got "
                 +:+ Number_toString (PriorityLevel c))
    ∧ (∀ t, t ∈ ts →
         (invalid_duration t ∈ errs ↔ Duration t < 1)
         ∧ severity (invalid_duration t) = error
         ∧ message (invalid_duration t)
             = "Duration must be at least 1, got " +:+ Number_toString (Duration t))
    ∧ (∀ x, x ∈ ws →
         (invalid_load x ∈ errs ↔ MaxLoadPerPhase x < 1)
         ∧ severity (invalid_load x) = error
         ∧ message (invalid_load x)
             = "MaxLoadPerPhase must be at least 1, got "
                 +:+ Number_toString (MaxLoadPerPhase x)).
Proof.
  intros e He. eexists _, _. split; [by apply validate_run_ok|].
  assert (filter (λ d, type d = "out_of_range" ∧ field d = "PriorityLevel")
            (all_errors' (draws w) e)
          = invalid_priority <$>
              filter (λ c, PriorityLevel c < 1 ∨ PriorityLevel c > 5) cs) as Hcs.
  { rewrite select_out_of_range by naive_solver. unfold out_of_range_errors.
    rewrite !filter_app, (filter_fmap_all invalid_priority),
      !filter_fmap_none by naive_solver.
    by rewrite ?app_nil_r. }
  assert (filter (λ d, type d = "out_of_range" ∧ field d = "Duration")
            (all_errors' (draws w) e)
          = invalid_duration <$> filter (λ t, Duration t < 1) ts) as Hts.
  { rewrite select_out_of_range by naive_solver. unfold out_of_range_errors.
    rewrite !filter_app, (filter_fmap_all invalid_duration),
      !filter_fmap_none by naive_solver.
    by rewrite ?app_nil_r. }
  assert (filter (λ d, type d = "out_of_range" ∧ field d = "MaxLoadPerPhase")
            (all_errors' (draws w) e)
          = invalid_load <$> filter (λ x, MaxLoadPerPhase x < 1) ws) as Hws.
  { rewrite select_out_of_range by naive_solver. unfold out_of_range_errors.
    rewrite !filter_app, (filter_fmap_all invalid_load),
      !filter_fmap_none by naive_solver.
    by rewrite ?app_nil_r. }
  split_and!; [done..| | |].
  - intros c Hc.
    assert (invalid_priority c ∈ all_errors' (draws w) e
            ↔ PriorityLevel c < 1 ∨ PriorityLevel c > 5) as Hiff.
    { apply (flagged_iff _ _ _ _ _ _ Hcs); [done| |done].
      intros c' Heq. apply (f_equal message), got_inj in Heq. by rewrite Heq. }
    split_and!; [done| | |done..].
    + intros Hlevel. apply Hiff. lia.
    + intros Hlevel Hin. apply Hiff in Hin. lia.
  - intros t Ht. split_and!; [|done..].
    apply (flagged_iff _ _ _ _ _ _ Hts); [done| |done].
    intros t' Heq. apply (f_equal message), got_inj in Heq. by rewrite Heq.
  - intros x Hx. split_and!; [|done..].
    apply (flagged_iff _ _ _ _ _ _ Hws); [done| |done].
    intros x' Heq. apply (f_equal message), got_inj in Heq. by rewrite Heq.
Qed.

Lemma unknown_task_inj c i j : unknown_task c i = unknown_task c j → i = j.
Proof.
  intros Heq. apply (f_equal id) in Heq. simpl in Heq.
  by repeat apply String.app_inj in Heq.
Qed.

(** C6, as amended: the [unknown_reference] errors are, client by client
    and in order, one per listing in the client's [RequestedTaskIDs] of an
    identifier that no task carries; so an absent identifier that a client
    lists [k] times is reported [k] times for that client (once when it is
    listed once), and an identifier that some task carries is never
    reported.  Each such error has severity [error], field
    [RequestedTaskIDs] and the client's identifier. *)
Theorem unknown_references_flagged (cs : list Client) (ws : list Worker)
    (ts : list Task) (w : World) :
  let e := {| clients := cs; workers := ws; tasks := ts |} in
  arrays_ok e = true →
  ∃ errs w', validate' cs ws ts w = (Normal errs, w')
    ∧ filter (λ d, type d = "unknown_reference") errs = cs ≫= unknown_of e
    ∧ ∀ c taskId,
        length (filter (unknown_task c taskId =.) (unknown_of e c))
          = (if decide (Some taskId ∈ TaskID <$> ts) then 0
             else length (filter (taskId =.) (elems (RequestedTaskIDs c))))%nat
        ∧ severity (unknown_task c taskId) = error
        ∧ field (unknown_task c taskId) = "RequestedTaskIDs"
        ∧ entity (unknown_task c taskId) = "clients"
        ∧ entityId (unknown_task c taskId) = ClientID c.
Proof.
  intros e He. eexists _, _. split; [by apply validate_run_ok|]. split.
  - rewrite select_unknown_reference by done.
    apply filter_all. eapply Forall_impl; [apply unknown_reference_errors_reports|].
    by intros d [Hd _].
  - intros c taskId. split_and!; [|done..]. unfold unknown_of.
    rewrite (filter_fmap_iff_length _ _ (taskId =.)).
    2:{ intros x. split; [apply unknown_task_inj|by intros ->]. }
    rewrite filter_filter_length. simpl.
    destruct (decide (Some taskId ∈ TaskID <$> ts));
      destruct (decide (Some taskId ∉ TaskID <$> ts)); done.
Qed.

(** C7: the [max_concurrency] errors are, in order, one per task whose
    [MaxConcurrent] exceeds the number of its qualified workers, the
    workers whose skills include every required skill of the task; each is
    a [warning] whose message cites that number.  A task with
    [MaxConcurrent] 3 and one qualified worker is reported, citing 1. *)
Theorem max_concurrency_flagged (cs : list Client) (ws : list Worker)
    (ts : list Task) (w : World) :
  let e := {| clients := cs; workers := ws; tasks := ts |} in
  let count t := Z.of_nat (length (qualified e t)) in
  arrays_ok e = true →
  ∃ errs w', validate' cs ws ts w = (Normal errs, w')
    ∧ filter (λ d, type d = "max_concurrency") errs
        = (λ t, infeasible_concurrency t (count t)) <$>
            filter (λ t, MaxConcurrent t > count t) ts
    ∧ (∀ t x, x ∈ qualified e t
         ↔ x ∈ ws ∧ ∀ skill, skill ∈ elems (RequiredSkills t)
                              → skill ∈ elems (Skills x))
    ∧ (∀ t, severity (infeasible_concurrency t (count t)) = warning
         ∧ message (infeasible_concurrency t (count t))
             = "MaxConcurrent (" +:+ Number_toString (MaxConcurrent t)
                 +:+ ") exceeds qualified workers ("
                 +:+ Number_toString (count t) +:+ ")")
    ∧ (∀ t, t ∈ ts → MaxConcurrent t = 3 → count t = 1 →
         infeasible_concurrency t 1 ∈ errs
         ∧ message (infeasible_concurrency t 1)
             = "MaxConcurrent (3) exceeds qualified workers (1)").
Proof.
  intros e count He. eexists _, _. split; [by apply validate_run_ok|].
  assert (filter (λ d, type d = "max_concurrency") (all_errors' (draws w) e)
          = (λ t, infeasible_concurrency t (count t)) <$>
              filter (λ t, MaxConcurrent t > count t) ts) as Hsel.
  { rewrite select_concurrency by done.
    apply filter_all. eapply Forall_impl; [apply concurrency_errors_reports|].
    by intros d [Hd _]. }
  split_and!; [done| |done|].
  - intros t x. unfold qualified. rewrite list_elem_of_filter. tauto.
  - intros t Ht Hmax Hcount. split.
    + assert (infeasible_concurrency t 1 ∈
                filter (λ d, type d = "max_concurrency") (all_errors' (draws w) e))
        as Hin.
      { rewrite Hsel. apply list_elem_of_fmap. exists t.
        split; [by rewrite Hcount|]. apply list_elem_of_filter. split; [lia|done]. }
      by apply list_elem_of_filter in Hin as [_ Hin].
    + unfold infeasible_concurrency. simpl. by rewrite Hmax.
Qed.


Ltac count_missing b1 b2 b3 b4 b5 b6 :=
  unfold missing_errors; rewrite !filter_app, !length_app;
  rewrite (drawn_missing_length _ ClientID ClientName _ _ _ b1 b2),
    (drawn_missing_length _ WorkerID WorkerName _ _ _ b3 b4),
    (drawn_missing_length _ TaskID TaskName _ _ _ b5 b6)
    by (intros; simpl; split; [by intros []|done]);
  simpl; lia.

(** The first check reports one error per empty or absent identifier and
    one per empty or absent name. *)
Lemma missing_counts (n : nat) (e : Engine) :
  let count fld :=
    length (filter (λ d, type d = "missing_required_field" ∧ field d = fld)
              (missing_errors Math_random n e)) in
  count "ClientID" = length (filter (λ c, falsy (ClientID c) = true) (clients e))
  ∧ count "ClientName" = length (filter (λ c, falsy (ClientName c) = true) (clients e))
  ∧ count "WorkerID" = length (filter (λ x, falsy (WorkerID x) = true) (workers e))
  ∧ count "WorkerName" = length (filter (λ x, falsy (WorkerName x) = true) (workers e))
  ∧ count "TaskID" = length (filter (λ t, falsy (TaskID t) = true) (tasks e))
  ∧ count "TaskName" = length (filter (λ t, falsy (TaskName t) = true) (tasks e)).
Proof.
  intros count. unfold count. split_and!.
  - count_missing true false false false false false.
  - count_missing false true false false false false.
  - count_missing false false true false false false.
  - count_missing false false false true false false.
  - count_missing false false false false true false.
  - count_missing false false false false false true.
Qed.

(** C10: an empty or absent identifier is treated like any other by the
    duplicate check.  When two or more records of a collection carry the
    same empty or absent identifier, every one of them but the first is
    reported as a [duplicate_id], although each of them has also been
    reported by the first check as lacking its identifier. *)
Theorem empty_ids_flagged_as_duplicates (cs : list Client) (ws : list Worker)
    (ts : list Task) (w : World) (i : option string) :
  let e := {| clients := cs; workers := ws; tasks := ts |} in
  arrays_ok e = true →
  falsy i = true →
  ∃ errs w', validate' cs ws ts w = (Normal errs, w')
    ∧ let dups ent :=
        length (filter (λ d, type d = "duplicate_id" ∧ entity d = ent
                             ∧ entityId d = i) errs) in
      let missing fld :=
        length (filter (λ d, type d = "missing_required_field" ∧ field d = fld)
                  errs) in
      (∀ k, length (filter (λ c, ClientID c = i) cs) = S (S k) →
         dups "clients" = S k ∧ (S (S k) ≤ missing "ClientID")%nat)
      ∧ (∀ k, length (filter (λ x, WorkerID x = i) ws) = S (S k) →
           dups "workers" = S k ∧ (S (S k) ≤ missing "WorkerID")%nat)
      ∧ (∀ k, length (filter (λ t, TaskID t = i) ts) = S (S k) →
           dups "tasks" = S k ∧ (S (S k) ≤ missing "TaskID")%nat).
Proof.
  intros e He Hi.
  destruct (duplicate_ids_count cs ws ts w He) as (Hc & Hw & Ht).
  eexists _, _. split; [by apply validate_run_ok|]. cbv zeta.
  destruct (missing_counts (draws w) e)
    as (Hmc & _ & Hmw & _ & Hmt & _). cbv zeta in Hmc, Hmw, Hmt.
  rewrite (select_missing _ _ (λ d, type d = "missing_required_field" ∧ field d = "ClientID")),
    (select_missing _ _ (λ d, type d = "missing_required_field" ∧ field d = "WorkerID")),
    (select_missing _ _ (λ d, type d = "missing_required_field" ∧ field d = "TaskID")) by naive_solver.
  subst e. simpl in Hmc, Hmw, Hmt.
  rewrite Hmc, Hmw, Hmt. split_and!; intros k Hk.
  - rewrite (Hc i), Hk. split; [done|]. rewrite <-Hk.
    apply filter_length_mono. by intros c ->.
  - rewrite (Hw i), Hk. split; [done|]. rewrite <-Hk.
    apply filter_length_mono. by intros c ->.
  - rewrite (Ht i), Hk. split; [done|]. rewrite <-Hk.
    apply filter_length_mono. by intros c ->.
Qed.

(** C2, as amended: when every list-valued field that the engine reads
    ([RequestedTaskIDs], [Skills], [AvailableSlots], [RequiredSkills],
    [PreferredPhases]) holds an array, the pass returns a sequence and does
    not throw, whatever the identifiers, names, numbers and attribute texts
    are; empty or absent identifiers and names, attribute texts that do not
    parse, slots that are not integers or are below 1 (so every integer
    slot below 1) and out-of-range priority levels, durations and loads are
    reported in it. *)
Theorem validate_returns_on_arrays (cs : list Client) (ws : list Worker)
    (ts : list Task) (w : World) :
  let e := {| clients := cs; workers := ws; tasks := ts |} in
  arrays_ok e = true →
  ∃ errs w', validate' cs ws ts w = (Normal errs, w')
    ∧ (∀ c, c ∈ cs → JSON_parse_ok (AttributesJSON c) = false →
         broken_json c ∈ errs)
    ∧ (∀ x (slot : Number), x ∈ ws → slot ∈ elems (AvailableSlots x) →
         Number_isInteger slot = false ∨ Number_lt slot 1 = true →
         invalid_slot x slot ∈ errs)
    ∧ (∀ x (slot : Z), x ∈ ws → Int slot ∈ elems (AvailableSlots x) → slot < 1 →
         invalid_slot x slot ∈ errs)
    ∧ (∀ c, c ∈ cs → PriorityLevel c < 1 ∨ PriorityLevel c > 5 →
         invalid_priority c ∈ errs)
    ∧ (∀ t, t ∈ ts → Duration t < 1 → invalid_duration t ∈ errs)
    ∧ (∀ x, x ∈ ws → MaxLoadPerPhase x < 1 → invalid_load x ∈ errs)
    ∧ let missing fld :=
        length (filter (λ d, type d = "missing_required_field" ∧ field d = fld)
                  errs) in
      missing "ClientID" = length (filter (λ c, falsy (ClientID c) = true) cs)
      ∧ missing "ClientName" = length (filter (λ c, falsy (ClientName c) = true) cs)
      ∧ missing "WorkerID" = length (filter (λ x, falsy (WorkerID x) = true) ws)
      ∧ missing "WorkerName" = length (filter (λ x, falsy (WorkerName x) = true) ws)
      ∧ missing "TaskID" = length (filter (λ t, falsy (TaskID t) = true) ts)
      ∧ missing "TaskName" = length (filter (λ t, falsy (TaskName t) = true) ts).
Proof.
  intros e He. eexists _, _. split; [by apply validate_run_ok|].
  assert (∀ x (slot : Number), x ∈ ws → slot ∈ elems (AvailableSlots x) →
            Number_isInteger slot = false ∨ Number_lt slot 1 = true →
            invalid_slot x slot ∈ all_errors' (draws w) e) as Hslots.
  { intros x slot Hx Hslot Hbad. unfold all_errors. rewrite !elem_of_app.
    do 2 right. left. unfold malformed_errors.
    apply list_elem_of_bind. exists x. split; [|done].
    destruct (AvailableSlots x) as [slots|]; [|by apply elem_of_nil in Hslot].
    apply list_elem_of_fmap. exists slot. split; [done|].
    by apply list_elem_of_filter. }
  split_and!.
  - intros c Hc Hjson. unfold all_errors. rewrite !elem_of_app.
    do 4 right. left. unfold broken_json_errors.
    apply list_elem_of_fmap. exists c. split; [done|].
    by apply list_elem_of_filter.
  - by apply Hslots.
  - intros x slot Hx Hslot Hlt. apply Hslots; [done|done|]. right.
    rewrite Number_lt_Int. by apply bool_decide_eq_true.
  - intros c Hc Hlevel. unfold all_errors. rewrite !elem_of_app.
    do 3 right. left. unfold out_of_range_errors. rewrite !elem_of_app. left.
    apply list_elem_of_fmap. exists c. split; [done|].
    by apply list_elem_of_filter.
  - intros t Ht Hduration. unfold all_errors. rewrite !elem_of_app.
    do 3 right. left. unfold out_of_range_errors. rewrite !elem_of_app.
    right. left. apply list_elem_of_fmap. exists t. split; [done|].
    by apply list_elem_of_filter.
  - intros x Hx Hload. unfold all_errors. rewrite !elem_of_app.
    do 3 right. left. unfold out_of_range_errors. rewrite !elem_of_app.
    right. right. apply list_elem_of_fmap. exists x. split; [done|].
    by apply list_elem_of_filter.
  - cbv beta zeta.
    rewrite (select_missing _ _ (λ d, type d = "missing_required_field" ∧ field d = "ClientID")),
      (select_missing _ _ (λ d, type d = "missing_required_field" ∧ field d = "ClientName")),
      (select_missing _ _ (λ d, type d = "missing_required_field" ∧ field d = "WorkerID")),
      (select_missing _ _ (λ d, type d = "missing_required_field" ∧ field d = "WorkerName")),
      (select_missing _ _ (λ d, type d = "missing_required_field" ∧ field d = "TaskID")),
      (select_missing _ _ (λ d, type d = "missing_required_field" ∧ field d = "TaskName")) by naive_solver.
    apply (missing_counts (draws w) e).
Qed.

End Claims.

(** ** Examples, witnesses and counterexamples *)

(** C1 as stated fails: two successive calls on one worker without a name
    return errors that differ in their [id]. *)
Lemma validate_twice_differs :
  let first := validate sample_random sample_JSON [] [nameless_worker] [] fresh in
  let second :=
    validate sample_random sample_JSON [] [nameless_worker] [] first.2 in
  first.1 = Normal [missing_worker_name "0.0" nameless_worker]
  ∧ second.1 = Normal [missing_worker_name "0.1" nameless_worker]
  ∧ first.1 ≠ second.1.
Proof. vm_compute. split_and!; [done|done|]. intros [=]. Qed.

(** C2 as stated fails: a client without [RequestedTaskIDs] makes the pass
    throw. *)
Lemma validate_throws_on_absent_list :
  (validate sample_random sample_JSON [listless_client] [] [] fresh).1
    = Throw TypeError.
Proof. by vm_compute. Qed.

(** The same happens for a worker whose [AvailableSlots] is not an array,
    although the third check by itself reports that worker. *)
Lemma validate_throws_on_absent_slots :
  let x := a_worker (Some "W1") (Some "Ann") (Some []) None 1 in
  (validate sample_random sample_JSON [] [x] [] fresh).1 = Throw TypeError
  ∧ (validateMalformedLists
       {| this := {| clients := []; workers := [x]; tasks := [] |}; draws := 0 |}).1
      = Normal [malformed_slots x].
Proof. by vm_compute. Qed.


(** Outside the integers below 10^21 the names of the phases are not read
    back to the phases.  A task of duration 2 that prefers the phases 1 and
    1.5 gives the names [1] and [1.5]; both are read as phase 1, which is
    reported twice. *)
Example fraction_read_as_integer :
  integer_listings {| clients := []; workers := []; tasks := [split_task] |} = false
  ∧ toString (Dec 15 1) = "1.5" ∧ parseInt "1.5" = Int 1
  ∧ (validate sample_random sample_JSON [] [] [split_task] fresh).1
      = Normal [phase_saturation 1 2 0; phase_saturation 1 2 0].
Proof. by vm_compute. Qed.

(** A task of duration 2 that prefers phase 10^21 gives the name [1e+21],
    which is read as phase 1; phase 1 has no demand, and nothing is reported
    although the demand for phase 10^21 exceeds its capacity. *)
Example large_phase_unreported :
  let e := {| clients := []; workers := []; tasks := [far_task] |} in
  integer_listings e = false
  ∧ toString (Int (10 ^ 21)) = "1e+21" ∧ parseInt "1e+21" = Int 1
  ∧ demand e (10 ^ 21) = 2 ∧ capacity e (10 ^ 21) = 0
  ∧ (validate sample_random sample_JSON [] [] [far_task] fresh).1 = Normal [].
Proof. by vm_compute. Qed.

(** Above 2^53 the sums are rounded.  Durations 2^53 and 1 add up to 2^53,
    which does not exceed a capacity of 2^53: no [phase_saturation] warning
    is reported although the exact demand does exceed it. *)
Example rounded_demand_unreported :
  let e := {| clients := []; workers := [vast_worker];
              tasks := [vast_task; unit_task] |} in
  exact_sums e = false
  ∧ js_add (Finite (2 ^ 53)) 1 = Finite (2 ^ 53)
  ∧ demand e 1 = 2 ^ 53 + 1 ∧ capacity e 1 = 2 ^ 53
  ∧ filter (λ d, type d = "phase_saturation")
      (all_errors sample_random sample_JSON 0 e) = [].
Proof. by vm_compute. Qed.

(** C6 as stated fails: a client that lists the absent identifier [T9]
    twice gets two [unknown_reference] errors for it, not one. *)
Lemma unknown_reference_listed_twice :
  (validate sample_random sample_JSON [asks_twice] [] [] fresh).1
    = Normal [unknown_task asks_twice "T9"; unknown_task asks_twice "T9"].
Proof. by vm_compute. Qed.

(** Two clients without an identifier: each is reported as lacking it, and
    the second also as a duplicate of the first. *)
Example absent_ids_example :
  let c1 := a_client None 3 (Some []) in
  let c2 := a_client None 2 (Some []) in
  (validate sample_random sample_JSON [c1; c2] [] [] fresh).1
    = Normal [missing_client_id "0.0" c1; missing_client_id "0.1" c2;
              duplicate_client c2]
  ∧ id (duplicate_client c2) = "duplicate-client-undefined".
Proof. by vm_compute. Qed.

(** Two clients share the identifier [C1]: one [duplicate_id] error. *)
Lemma duplicate_ids_flagged_witness :
  let c1 := a_client (Some "C1") 3 (Some []) in
  let c2 := a_client (Some "C1") 2 (Some []) in
  arrays_ok {| clients := [c1; c2]; workers := []; tasks := [] |} = true
  ∧ ∃ errs w',
      validate sample_random sample_JSON [c1; c2] [] [] fresh = (Normal errs, w')
      ∧ filter (λ d, type d = "duplicate_id" ∧ entity d = "clients") errs
          = [duplicate_client c2]
      ∧ length (filter (λ d, type d = "duplicate_id" ∧ entity d = "clients"
                             ∧ entityId d = Some "C1") errs) = 1%nat.
Proof.
  intros c1 c2. split; [reflexivity|].
  destruct (duplicate_ids_flagged sample_random sample_JSON [c1; c2] [] [] fresh)
    as (errs & w' & Hrun & Hcs & _ & _ & Hcount & _); [reflexivity|].
  exists errs, w'. split; [exact Hrun|]. split.
  - rewrite Hcs. reflexivity.
  - destruct (Hcount (Some "C1")) as [-> _]. reflexivity.
Defined.

(** Priority levels 0 and 6 are reported, level 3 is not. *)
Lemma out_of_range_flagged_witness :
  let c0 := a_client (Some "C0") 0 (Some []) in
  let c3 := a_client (Some "C3") 3 (Some []) in
  let c6 := a_client (Some "C6") 6 (Some []) in
  arrays_ok {| clients := [c0; c3; c6]; workers := []; tasks := [] |} = true
  ∧ ∃ errs w',
      validate sample_random sample_JSON [c0; c3; c6] [] [] fresh = (Normal errs, w')
      ∧ filter (λ d, type d = "out_of_range" ∧ field d = "PriorityLevel") errs
          = [invalid_priority c0; invalid_priority c6].
Proof.
  intros c0 c3 c6. split; [reflexivity|].
  destruct (out_of_range_flagged sample_random sample_JSON [c0; c3; c6] [] [] fresh)
    as (errs & w' & Hrun & Hcs & _); [reflexivity|].
  exists errs, w'. split; [exact Hrun|]. rewrite Hcs. reflexivity.
Defined.


(** A client asks for [T1], which exists, and [T9], which does not. *)
Lemma unknown_references_flagged_witness :
  let c := a_client (Some "C1") 3 (Some ["T1"; "T9"]) in
  let t := a_task (Some "T1") 1 (Some []) (Some []) 0 in
  arrays_ok {| clients := [c]; workers := []; tasks := [t] |} = true
  ∧ ∃ errs w',
      validate sample_random sample_JSON [c] [] [t] fresh = (Normal errs, w')
      ∧ filter (λ d, type d = "unknown_reference") errs = [unknown_task c "T9"].
Proof.
  intros c t. split; [reflexivity|].
  destruct (unknown_references_flagged sample_random sample_JSON [c] [] [t] fresh)
    as (errs & w' & Hrun & Hsel & _); [reflexivity|].
  exists errs, w'. split; [exact Hrun|]. rewrite Hsel. reflexivity.
Defined.

(** A task allowing 3 concurrent runs with one qualified worker. *)
Lemma max_concurrency_flagged_witness :
  let x1 := a_worker (Some "W1") (Some "Ann") (Some ["Rust"; "Go"]) (Some [1]) 1 in
  let x2 := a_worker (Some "W2") (Some "Bob") (Some ["Go"]) (Some [1]) 1 in
  let t := a_task (Some "T1") 1 (Some ["Rust"]) (Some []) 3 in
  arrays_ok {| clients := []; workers := [x1; x2]; tasks := [t] |} = true
  ∧ ∃ errs w',
      validate sample_random sample_JSON [] [x1; x2] [t] fresh = (Normal errs, w')
      ∧ infeasible_concurrency t 1 ∈ errs
      ∧ message (infeasible_concurrency t 1)
          = "MaxConcurrent (3) exceeds qualified workers (1)".
Proof.
  intros x1 x2 t. split; [reflexivity|].
  destruct (max_concurrency_flagged sample_random sample_JSON [] [x1; x2] [t] fresh)
    as (errs & w' & Hrun & _ & _ & _ & Hexample); [reflexivity|].
  exists errs, w'. split; [exact Hrun|].
  apply Hexample; [by left|reflexivity|reflexivity].
Defined.

(** The pass on one worker without a name returns one [error]. *)
Lemma severity_never_info_witness :
  let errs := [missing_worker_name "0.0" nameless_worker] in
  let w' := {| this := {| clients := []; workers := [nameless_worker]; tasks := [] |};
               draws := 1 |} in
  validate sample_random sample_JSON [] [nameless_worker] [] fresh = (Normal errs, w')
  ∧ Forall (λ d, (severity d = error ∨ severity d = warning) ∧ severity d ≠ info) errs.
Proof.
  intros errs w'. split; [reflexivity|].
  apply (severity_never_info sample_random sample_JSON [] [nameless_worker] []
           fresh w' errs).
  reflexivity.
Defined.

(** Two clients with an empty identifier: the second is a duplicate, and
    both are reported as lacking their identifier. *)
Lemma empty_ids_flagged_as_duplicates_witness :
  let c1 := a_client (Some "") 3 (Some []) in
  let c2 := a_client (Some "") 2 (Some []) in
  arrays_ok {| clients := [c1; c2]; workers := []; tasks := [] |} = true
  ∧ falsy (Some "") = true
  ∧ length (filter (λ c, ClientID c = Some "") [c1; c2]) = 2%nat
  ∧ ∃ errs w',
      validate sample_random sample_JSON [c1; c2] [] [] fresh = (Normal errs, w')
      ∧ length (filter (λ d, type d = "duplicate_id" ∧ entity d = "clients"
                             ∧ entityId d = Some "") errs) = 1%nat
      ∧ (2 ≤ length (filter (λ d, type d = "missing_required_field"
                                  ∧ field d = "ClientID") errs))%nat.
Proof.
  intros c1 c2. split_and!; [reflexivity..|].
  destruct (empty_ids_flagged_as_duplicates sample_random sample_JSON
              [c1; c2] [] [] fresh (Some ""))
    as (errs & w' & Hrun & Hcs & _); [reflexivity..|].
  exists errs, w'. split; [exact Hrun|]. apply (Hcs 0%nat). reflexivity.
Defined.

(** A client without identifier, with priority 9, whose attribute text does
    not parse, and a worker available in slot 0: the pass returns and
    reports each of these. *)
Lemma validate_returns_on_arrays_witness :
  let c := {| ClientID := Some ""; ClientName := Some "Acme Corp";
              PriorityLevel := 9; RequestedTaskIDs := Some [];
              GroupTag := ""; AttributesJSON := "{" |} in
  let x := a_worker (Some "W1") (Some "Ann") (Some []) (Some [0]) 1 in
  arrays_ok {| clients := [c]; workers := [x]; tasks := [] |} = true
  ∧ ∃ errs w',
      validate sample_random sample_JSON [c] [x] [] fresh = (Normal errs, w')
      ∧ broken_json c ∈ errs ∧ invalid_slot x 0 ∈ errs ∧ invalid_priority c ∈ errs
      ∧ length (filter (λ d, type d = "missing_required_field"
                             ∧ field d = "ClientID") errs) = 1%nat.
Proof.
  intros c x. split; [reflexivity|].
  destruct (validate_returns_on_arrays sample_random sample_JSON [c] [x] [] fresh)
    as (errs & w' & Hrun & Hjson & _ & Hslot & Hlevel & _ & _ & Hmissing & _);
    [reflexivity|].
  exists errs, w'. split; [exact Hrun|]. split_and!.
  - apply Hjson; [by left|reflexivity].
  - apply (Hslot x 0); [by left|by left|reflexivity].
  - apply Hlevel; [by left|right; reflexivity].
  - rewrite Hmissing. reflexivity.
Defined.

(** ** Further properties of the engine *)

Lemma arrays_ok_false (e : Engine) : arrays_ok e = false ↔ absent_list e.
Proof.
  assert (∀ {A} (ok : A → bool) (l : list A),
    forallb ok l = false ↔ Exists (λ x, ok x = false) l) as Hex.
  { intros A ok l. induction l as [|x l IH]; simpl.
    - rewrite Exists_nil. naive_solver.
    - rewrite Exists_cons, andb_false_iff, IH. done. }
  assert (∀ {A} (x : option A), defined x = false ↔ x = None) as Hdef.
  { intros A [a|]; simpl; naive_solver. }
  unfold arrays_ok, absent_list, requested_ok, slots_ok, phases_ok, skills_ok,
    required_ok.
  rewrite !andb_false_iff, !Hex, !Exists_exists.
  setoid_rewrite Hdef. naive_solver.
Qed.

Lemma check_order_same T l : reports T l → StronglySorted in_check_order l.
Proof.
  induction 1 as [|d l [Hd _] Hl IH]; constructor; [done|].
  eapply Forall_impl; [exact Hl|]. intros d' [Hd' _].
  unfold in_check_order. by rewrite Hd, Hd'.
Qed.

Lemma check_order_app T l rest :
  reports T l →
  Forall (λ d, (check_rank T ≤ check_rank (type d))%nat) rest →
  StronglySorted in_check_order rest →
  StronglySorted in_check_order (l ++ rest).
Proof.
  intros Hl Hrest Hsorted. apply StronglySorted_app_2; [|by eapply check_order_same|done].
  intros d1 d2 Hd1 Hd2.
  apply (proj1 (Forall_forall _ _) Hl) in Hd1 as [Hd1 _].
  apply (proj1 (Forall_forall _ _) Hrest) in Hd2.
  unfold in_check_order. by rewrite Hd1.
Qed.

Lemma reports_rank_ge (n : nat) T l :
  reports T l → (n ≤ check_rank T)%nat →
  Forall (λ d, (n ≤ check_rank (type d))%nat) l.
Proof.
  intros Hl Hn. eapply Forall_impl; [exact Hl|]. by intros d [-> _].
Qed.

Lemma fmap_filter_nil {A B} (f : A → B) (P : A → Prop)
    `{∀ x, Decision (P x)} (l : list A) :
  f <$> filter P l = [] ↔ Forall (λ x, ¬ P x) l.
Proof.
  induction l as [|x l IH]; [by split; [constructor|]|].
  rewrite filter_cons, Forall_cons. destruct (decide (P x)).
  - rewrite fmap_cons. split; [done|]. by intros [? _].
  - rewrite IH. tauto.
Qed.

Lemma fmap_nil_iff {A B} (f : A → B) (l : list A) : f <$> l = [] ↔ l = [].
Proof. split; [apply fmap_nil_inv|by intros ->]. Qed.

Lemma bind_nil {A B} (g : A → list B) (l : list A) :
  l ≫= g = [] ↔ Forall (λ x, g x = []) l.
Proof.
  induction l as [|x l IH]; [by split; [constructor|]|].
  by rewrite bind_cons, app_nil, Forall_cons, IH.
Qed.

Lemma drawn_nil {A B} (g : nat → A → list B) (Q : A → Prop) (l : list A) n :
  (∀ n x, g n x = [] ↔ Q x) → drawn g n l = [] ↔ Forall Q l.
Proof.
  intros Hg. revert n. induction l as [|x l IH]; intros n;
    [by split; [constructor|]|].
  cbn [drawn]. rewrite app_nil, Forall_cons, <-(Hg n x). split.
  - intros [Hx Hl]. split; [done|]. rewrite Hx in Hl. by apply IH in Hl.
  - intros [Hx Hl]. split; [done|]. by apply IH.
Qed.

Lemma repeats_nil_NoDup {A K} `{EqDecision K} (key : A → K) (l : list A) :
  repeats key l = [] ↔ NoDup (key <$> l).
Proof.
  induction l as [|x l IH] using rev_ind; [by split; [constructor|]|].
  rewrite repeats_snoc, fmap_app, app_nil, IH, NoDup_app. simpl.
  destruct (decide (key x ∈ key <$> l)) as [Hin|Hin].
  - split; [by intros [_ ?]|]. intros (_ & Hdis & _).
    exfalso. apply (Hdis _ Hin). by left.
  - split; [|by intros (? & _)]. intros [Hl _]. split_and!; [done| |].
    + intros y Hy ->%list_elem_of_singleton. done.
    + apply NoDup_singleton.
Qed.

Ltac prove_profile :=
  unfold kind_profile; simpl;
  repeat first
    [ left; split_and!; solve [done | rewrite !elem_of_cons; auto 10]
    | right ];
  split_and!; solve [done | rewrite !elem_of_cons; auto 10].

Lemma Forall_drawn {A B} (Q : B → Prop) (g : nat → A → list B) (l : list A) n :
  (∀ n x, Forall Q (g n x)) → Forall Q (drawn g n l).
Proof.
  intros Hg. revert n. induction l as [|x l IH]; intros n; [constructor|].
  simpl. by apply Forall_app_2.
Qed.

Lemma filter_sublist_mono {A} (P Q : A → Prop) `{∀ x, Decision (P x)}
    `{∀ x, Decision (Q x)} (l : list A) :
  (∀ x, P x → Q x) → filter P l `sublist_of` filter Q l.
Proof.
  intros HPQ. induction l as [|x l IH]; [done|]. rewrite !filter_cons.
  destruct (decide (P x)) as [HP|HP], (decide (Q x)) as [HQ|HQ].
  - by apply sublist_skip.
  - by apply HPQ in HP.
  - by apply sublist_cons.
  - done.
Qed.

Lemma bind_sublist_pointwise {A B} (f g : A → list B) (l : list A) :
  (∀ x, f x `sublist_of` g x) → l ≫= f `sublist_of` l ≫= g.
Proof.
  intros Hfg. induction l as [|x l IH]; [done|].
  rewrite !bind_cons. by apply sublist_app.
Qed.

Lemma remove_dups_snoc_length {A} `{EqDecision A} (l : list A) (k : A) :
  length (remove_dups (l ++ [k]))
    = (length (remove_dups l) + if decide (k ∈ l) then 0 else 1)%nat.
Proof.
  assert (remove_dups (l ++ [k])
          ≡ₚ (if decide (k ∈ l) then [] else [k]) ++ remove_dups l) as ->.
  { apply NoDup_Permutation.
    - apply NoDup_remove_dups.
    - destruct (decide (k ∈ l)) as [Hk|Hk]; simpl; [apply NoDup_remove_dups|].
      apply NoDup_cons. split; [by rewrite elem_of_remove_dups|].
      apply NoDup_remove_dups.
    - intros x. rewrite elem_of_app, !elem_of_remove_dups, elem_of_app.
      destruct (decide (k ∈ l)) as [Hk|Hk];
        rewrite ?elem_of_nil, !list_elem_of_singleton; naive_solver. }
  rewrite length_app. destruct (decide (k ∈ l)); simpl; lia.
Qed.

Lemma repeats_distinct_length {A K} `{EqDecision K} (key : A → K) (l : list A) :
  (length (repeats key l) + length (remove_dups (key <$> l)))%nat = length l.
Proof.
  induction l as [|x l IH] using rev_ind; [done|].
  rewrite repeats_snoc, fmap_app, !length_app. simpl.
  rewrite remove_dups_snoc_length.
  destruct (decide (key x ∈ key <$> l)); simpl; lia.
Qed.

Lemma StronglySorted_filter {A} (R : relation A) (P : A → Prop)
    `{∀ x, Decision (P x)} (l : list A) :
  StronglySorted R l → StronglySorted R (filter P l).
Proof.
  induction 1 as [|x l Hl IH Hx]; [constructor|].
  rewrite filter_cons. destruct (decide (P x)); [|done].
  constructor; [done|]. apply Forall_forall.
  intros y [_ Hy]%list_elem_of_filter. by apply (proj1 (Forall_forall _ _) Hx).
Qed.

Lemma StronglySorted_strict (l : list Z) :
  StronglySorted Z.le l → NoDup l → StronglySorted Z.lt l.
Proof.
  induction 1 as [|x l Hl IH Hx]; intros Hnd; [constructor|].
  apply NoDup_cons in Hnd as [Hnotin Hnd]. constructor; [by apply IH|].
  apply Forall_forall. intros y Hy.
  pose proof (proj1 (Forall_forall _ _) Hx y Hy).
  assert (x ≠ y) by (by intros ->). lia.
Qed.

Lemma missing_skill_inj t i j : missing_skill t i = missing_skill t j → i = j.
Proof.
  intros Heq. apply (f_equal id) in Heq. simpl in Heq.
  by repeat apply String.app_inj in Heq.
Qed.

Lemma duplicate_errors_nil e :
  duplicate_errors e = []
  ↔ NoDup (ClientID <$> clients e) ∧ NoDup (WorkerID <$> workers e)
    ∧ NoDup (TaskID <$> tasks e).
Proof.
  unfold duplicate_errors. by rewrite !app_nil, !fmap_nil_iff, !repeats_nil_NoDup.
Qed.

Lemma malformed_errors_nil e :
  slots_ok e = true →
  malformed_errors e = []
  ↔ Forall (λ x, Forall (λ slot, Number_isInteger slot = true
                                 ∧ Number_lt slot 1 = false)
                     (elems (AvailableSlots x))) (workers e).
Proof.
  intros Hslots. unfold malformed_errors. rewrite bind_nil, !Forall_forall.
  apply forall_proper. intros x. apply forall_proper. intros Hx.
  pose proof (forallb_elem _ _ _ Hslots Hx) as Hdef. cbv beta in Hdef.
  destruct (AvailableSlots x); [|done]. simpl.
  rewrite fmap_filter_nil. apply Forall_iff. intros slot.
  destruct (Number_isInteger slot), (Number_lt slot 1); naive_solver.
Qed.

(** When no slot breaks the slot rule, every slot is an integer. *)
Lemma slot_rule_integer_listings e :
  safe_listings e = true →
  Forall (λ x, Forall (λ slot, Number_isInteger slot = true
                               ∧ Number_lt slot 1 = false)
                 (elems (AvailableSlots x))) (workers e) →
  integer_listings e = true.
Proof.
  unfold safe_listings, integer_listings.
  intros [Hws ->]%andb_prop Hrule. rewrite andb_true_r.
  apply forallb_forall. intros x Hx%list_elem_of_In.
  apply forallb_forall. intros slot Hslot%list_elem_of_In.
  pose proof (forallb_elem _ _ _ Hws Hx) as Hsafe. cbv beta in Hsafe.
  pose proof (forallb_elem _ _ _ Hsafe Hslot) as Hone. cbv beta in Hone.
  apply (proj1 (Forall_forall _ _) Hrule) in Hx.
  apply (proj1 (Forall_forall _ _) Hx) in Hslot as [Hint _].
  by rewrite Hint in Hone.
Qed.

Lemma out_of_range_errors_nil e :
  out_of_range_errors e = []
  ↔ Forall (λ c, 1 ≤ PriorityLevel c ≤ 5) (clients e)
    ∧ Forall (λ t, 1 ≤ Duration t) (tasks e)
    ∧ Forall (λ x, 1 ≤ MaxLoadPerPhase x) (workers e).
Proof.
  unfold out_of_range_errors. rewrite !app_nil, !fmap_filter_nil.
  rewrite (Forall_iff _ _ (λ c, 1 ≤ PriorityLevel c ≤ 5)) by (intros; lia).
  rewrite (Forall_iff _ _ (λ t, 1 ≤ Duration t)) by (intros; lia).
  by rewrite (Forall_iff _ _ (λ x, 1 ≤ MaxLoadPerPhase x)) by (intros; lia).
Qed.

Lemma unknown_reference_errors_nil e :
  unknown_reference_errors e = []
  ↔ Forall (λ c, Forall (λ taskId, Some taskId ∈ TaskID <$> tasks e)
                   (elems (RequestedTaskIDs c))) (clients e).
Proof.
  unfold unknown_reference_errors, unknown_of. rewrite bind_nil.
  apply Forall_iff. intros c. rewrite fmap_filter_nil. apply Forall_iff.
  intros taskId. destruct (decide (Some taskId ∈ TaskID <$> tasks e)); tauto.
Qed.

Lemma overloaded_errors_nil e :
  overloaded_errors e = []
  ↔ Forall (λ x, MaxLoadPerPhase x ≤ Z.of_nat (length (elems (AvailableSlots x))))
      (workers e).
Proof.
  unfold overloaded_errors. rewrite fmap_filter_nil. apply Forall_iff.
  intros x. lia.
Qed.

Lemma saturation_errors_nil e :
  integer_listings e = true → exact_sums e = true →
  saturation_errors e = [] ↔ Forall (λ p, demand e p ≤ capacity e p) (preferred e).
Proof.
  intros Hint Hsums. rewrite saturation_errors_exact by done.
  unfold saturated_phases, preferred. rewrite fmap_filter_nil, !Forall_forall.
  setoid_rewrite (tally_listed Duration phases_of).
  apply forall_proper. intros p. apply forall_proper. intros _. lia.
Qed.

Lemma skill_coverage_errors_nil e :
  skill_coverage_errors e = []
  ↔ Forall (λ t, Forall (λ skill, skill ∈ (workers e ≫= λ x, elems (Skills x)))
                   (elems (RequiredSkills t))) (tasks e).
Proof.
  unfold skill_coverage_errors. rewrite bind_nil.
  apply Forall_iff. intros t. rewrite fmap_filter_nil. apply Forall_iff.
  intros skill.
  destruct (decide (skill ∈ workers e ≫= λ x, elems (Skills x))); tauto.
Qed.

Lemma concurrency_errors_nil e :
  concurrency_errors e = []
  ↔ Forall (λ t, MaxConcurrent t ≤ Z.of_nat (length (qualified e t))) (tasks e).
Proof.
  unfold concurrency_errors. rewrite fmap_filter_nil. apply Forall_iff.
  intros t. lia.
Qed.

Lemma missing_errors_nil (Math_random : nat → string) n e :
  missing_errors Math_random n e = []
  ↔ Forall (λ c, falsy (ClientID c) = false ∧ falsy (ClientName c) = false) (clients e)
    ∧ Forall (λ x, falsy (WorkerID x) = false ∧ falsy (WorkerName x) = false) (workers e)
    ∧ Forall (λ t, falsy (TaskID t) = false ∧ falsy (TaskName t) = false) (tasks e).
Proof.
  unfold missing_errors. cbv zeta. rewrite !app_nil.
  rewrite (drawn_nil _ (λ c, falsy (ClientID c) = false ∧ falsy (ClientName c) = false)),
    (drawn_nil _ (λ x, falsy (WorkerID x) = false ∧ falsy (WorkerName x) = false)),
    (drawn_nil _ (λ t, falsy (TaskID t) = false ∧ falsy (TaskName t) = false));
    [done|..];
    intros k x; unfold missing_of;
    destruct (falsy _), (falsy _); simpl; naive_solver.
Qed.

Section Extras.

Variable Math_random : nat → string.
Variable JSON_parse_ok : string → bool.

Local Abbreviation validate' := (validate Math_random JSON_parse_ok).
Local Abbreviation validateAll' := (validateAll Math_random JSON_parse_ok).
Local Abbreviation all_errors' := (all_errors Math_random JSON_parse_ok).

(** X1: a pass throws exactly when some list-valued field is absent, and then
    it throws a [TypeError]; otherwise it returns.  The [SyntaxError] of
    [JSON.parse] never escapes. *)
Theorem validateAll_throws_iff (w : World) :
  ((validateAll' w).1 = Throw TypeError ↔ absent_list (this w))
  ∧ ((∃ errs, (validateAll' w).1 = Normal errs) ↔ ¬ absent_list (this w))
  ∧ (validateAll' w).1 ≠ Throw SyntaxError.
Proof.
  rewrite validateAll_run, <-arrays_ok_false. simpl.
  destruct (arrays_ok (this w)); split_and!; try done.
  - split; [by eauto|]. by intros _; eexists.
  - split; [by intros [? ?]|done].
Qed.

Lemma all_errors_in_check_order n e :
  StronglySorted in_check_order (all_errors' n e).
Proof.
  unfold all_errors.
  repeat (eapply check_order_app;
    [by eauto with reports_db
    |rewrite ?Forall_app; split_and?;
       (eapply reports_rank_ge; [by eauto with reports_db|vm_compute; lia])
    |]).
  eapply check_order_same. eauto with reports_db.
Qed.

(** X2: the errors of a returned sequence come check by check, in the order in
    which [validateAll] runs the checks: no error of a later check precedes
    an error of an earlier one. *)
Theorem errors_in_check_order (cs : list Client) (ws : list Worker)
    (ts : list Task) (w w' : World) (errs : list ValidationError) :
  validate' cs ws ts w = (Normal errs, w') →
  StronglySorted in_check_order errs.
Proof.
  rewrite validate_run. destruct (arrays_ok _); [|done]. intros [= <- _].
  apply all_errors_in_check_order.
Qed.

Lemma all_errors_profile n e : Forall kind_profile (all_errors' n e).
Proof.
  unfold all_errors. rewrite !Forall_app. split_and!.
  - unfold missing_errors. rewrite !Forall_app.
    split_and!; apply Forall_drawn; intros k x; unfold missing_of;
      rewrite Forall_app; split; destruct (falsy _); constructor;
      try constructor; prove_profile.
  - unfold duplicate_errors. rewrite !Forall_app, !Forall_fmap.
    split_and!; apply Forall_forall; intros x _; prove_profile.
  - unfold malformed_errors. apply Forall_bind, Forall_forall. intros x _.
    unfold compose. destruct (AvailableSlots x).
    + apply (proj2 (Forall_fmap _ _ _)), Forall_forall. intros slot _.
      prove_profile.
    + constructor; [prove_profile|constructor].
  - unfold out_of_range_errors. rewrite !Forall_app, !Forall_fmap.
    split_and!; apply Forall_forall; intros x _; prove_profile.
  - unfold broken_json_errors. rewrite Forall_fmap.
    apply Forall_forall; intros x _; prove_profile.
  - unfold unknown_reference_errors. apply Forall_bind, Forall_forall.
    intros x _. unfold compose.
    apply (proj2 (Forall_fmap _ _ _)), Forall_forall.
    intros i _. prove_profile.
  - unfold overloaded_errors. rewrite Forall_fmap.
    apply Forall_forall; intros x _; prove_profile.
  - unfold saturation_errors. cbv zeta. apply Forall_bind, Forall_forall.
    intros phaseStr _. unfold compose, saturation_of.
    destruct (rec_get _ _) as [demand|]; [|constructor]. simpl.
    destruct (Amount_gt _ _); [|constructor].
    constructor; [prove_profile|constructor].
  - unfold skill_coverage_errors. apply Forall_bind, Forall_forall.
    intros x _. unfold compose.
    apply (proj2 (Forall_fmap _ _ _)), Forall_forall.
    intros i _. prove_profile.
  - unfold concurrency_errors. rewrite Forall_fmap.
    apply Forall_forall; intros x _; prove_profile.
Qed.

(** X3: every error of a returned sequence is of one of the ten kinds that the
    checks report, never [circular_corun] or [conflicting_rules]; its
    severity is fixed by its kind ([warning] for [overloaded_worker],
    [phase_saturation] and [max_concurrency], [error] otherwise), and so is
    its entity, which is [system] for [phase_saturation] only. *)
Theorem kinds_fix_severity_and_entity (cs : list Client) (ws : list Worker)
    (ts : list Task) (w w' : World) (errs : list ValidationError) :
  validate' cs ws ts w = (Normal errs, w') →
  Forall (λ d, kind_profile d
               ∧ type d ≠ "circular_corun" ∧ type d ≠ "conflicting_rules") errs.
Proof.
  rewrite validate_run. destruct (arrays_ok _); [|done]. intros [= <- _].
  eapply Forall_impl; [apply all_errors_profile|].
  intros d Hd. split; [done|]. unfold kind_profile in Hd.
  split; intros Heq; rewrite Heq in Hd; naive_solver.
Qed.

Lemma broken_json_errors_nil e :
  broken_json_errors JSON_parse_ok e = []
  ↔ Forall (λ c, JSON_parse_ok (AttributesJSON c) = true) (clients e).
Proof.
  unfold broken_json_errors. rewrite fmap_filter_nil. apply Forall_iff.
  intros c. by destruct (JSON_parse_ok _).
Qed.

(** X4: when every preferred phase, and every slot that is an integer, is an
    integer below 10^21 in absolute value, and the loads and the durations
    sum up, over all the listings, to at most 2^53, a pass returns the
    empty sequence exactly when every list-valued field holds an array and
    the collections break none of the rules: no empty identifier or name,
    no identifier repeated within a collection, every slot an integer of 1
    or more, scalars in range, attribute texts that parse, requested tasks
    that exist, required skills offered by some worker, loads within the
    number of slots, demand within capacity for every preferred phase, and
    concurrency within the number of qualified workers. *)
Theorem no_errors_iff_clean (cs : list Client) (ws : list Worker)
    (ts : list Task) (w : World) :
  let e := {| clients := cs; workers := ws; tasks := ts |} in
  safe_listings e = true →
  exact_sums e = true →
  (validate' cs ws ts w).1 = Normal [] ↔ arrays_ok e = true ∧ clean JSON_parse_ok e.
Proof.
  intros e Hsafe Hsums. rewrite validate_run. fold e. simpl.
  destruct (arrays_ok e) eqn:He; [|by split; [|intros [? _]]].
  assert (slots_ok e = true) as Hslots.
  { unfold arrays_ok in He. rewrite !andb_true_iff in He. tauto. }
  assert (integer_listings e = true →
          all_errors' (draws w) e = [] ↔ clean JSON_parse_ok e) as Hchain.
  { intros Hint.
    unfold all_errors, clean, breaks_no_error_rule, breaks_no_warning_rule.
    rewrite !app_nil, missing_errors_nil, duplicate_errors_nil,
      (malformed_errors_nil _ Hslots), out_of_range_errors_nil,
      broken_json_errors_nil, unknown_reference_errors_nil,
      overloaded_errors_nil, (saturation_errors_nil _ Hint Hsums),
      skill_coverage_errors_nil, concurrency_errors_nil.
    tauto. }
  assert (all_errors' (draws w) e = [] ↔ clean JSON_parse_ok e) as <-.
  { split.
    - intros Hnil. apply Hchain; [|done].
      apply slot_rule_integer_listings; [done|].
      apply (malformed_errors_nil _ Hslots).
      unfold all_errors in Hnil. rewrite !app_nil in Hnil. tauto.
    - intros Hclean. apply Hchain; [|done].
      apply slot_rule_integer_listings; [done|].
      unfold clean, breaks_no_error_rule in Hclean. tauto. }
  split; [by intros [= ->]|]. by intros [_ ->].
Qed.

Lemma validate_returned (cs : list Client) (ws : list Worker) (ts : list Task)
    (w w' : World) (errs : list ValidationError) :
  validate' cs ws ts w = (Normal errs, w') →
  arrays_ok {| clients := cs; workers := ws; tasks := ts |} = true
  ∧ errs = all_errors' (draws w) {| clients := cs; workers := ws; tasks := ts |}.
Proof.
  rewrite validate_run. destruct (arrays_ok _); [|done]. by intros [= <- _].
Qed.

Lemma kind_all T (l : list ValidationError) :
  reports T l → filter (λ d, type d = T) l = l.
Proof.
  intros Hl. apply filter_all. eapply Forall_impl; [exact Hl|]. by intros d [? _].
Qed.

(** X5: in a returned sequence the [malformed_list] errors are, worker by worker
    and in order, one per listing of a slot that is not an integer (a
    fraction, [NaN], an infinity) or is below 1.  The error saying that
    [AvailableSlots] is not an array is never among them: a worker without
    that array makes a later check throw, so the report that the third check
    prepares for it is lost. *)
Theorem slot_errors_flagged (cs : list Client) (ws : list Worker)
    (ts : list Task) (w w' : World) (errs : list ValidationError) :
  validate' cs ws ts w = (Normal errs, w') →
  filter (λ d, type d = "malformed_list") errs
    = (ws ≫= λ x, invalid_slot x <$>
                    filter (λ slot, Number_isInteger slot = false
                                    ∨ Number_lt slot 1 = true)
                      (elems (AvailableSlots x)))
  ∧ ∀ x, malformed_slots x ∉ errs.
Proof.
  intros [He ->]%validate_returned.
  assert (filter (λ d, type d = "malformed_list")
            (all_errors' (draws w) {| clients := cs; workers := ws; tasks := ts |})
          = (ws ≫= λ x, invalid_slot x <$>
                          filter (λ slot, Number_isInteger slot = false
                                          ∨ Number_lt slot 1 = true)
                            (elems (AvailableSlots x))))
    as Hsel.
  { rewrite select_malformed by done.
    rewrite kind_all by apply malformed_errors_reports.
    unfold malformed_errors. simpl. apply Forall_bind_ext, Forall_forall.
    intros x Hx. unfold arrays_ok in He. rewrite !andb_true_iff in He.
    destruct He as ((((_ & Hslots) & _) & _) & _).
    pose proof (forallb_elem _ _ _ Hslots Hx) as Hdef. cbv beta in Hdef.
    by destruct (AvailableSlots x). }
  split; [done|]. intros x Hin.
  assert (malformed_slots x ∈ (ws ≫= λ x, invalid_slot x <$>
            filter (λ slot, Number_isInteger slot = false ∨ Number_lt slot 1 = true)
              (elems (AvailableSlots x)))) as Hin'.
  { rewrite <-Hsel. by apply list_elem_of_filter. }
  apply list_elem_of_bind in Hin' as (y & Hin' & _).
  apply list_elem_of_fmap in Hin' as (slot & Heq & _).
  apply (f_equal message) in Heq. simpl in Heq. discriminate.
Qed.

(** X6: in a returned sequence the [broken_json] errors are, in order, one per
    client whose attribute text [JSON.parse] rejects; an error for an
    identifier is present exactly when some client with that identifier has
    such a text. *)
Theorem broken_json_flagged (cs : list Client) (ws : list Worker)
    (ts : list Task) (w w' : World) (errs : list ValidationError) :
  validate' cs ws ts w = (Normal errs, w') →
  filter (λ d, type d = "broken_json") errs
    = broken_json <$> filter (λ c, JSON_parse_ok (AttributesJSON c) = false) cs
  ∧ ∀ c, broken_json c ∈ errs
         ↔ ∃ c', c' ∈ cs ∧ ClientID c' = ClientID c
                 ∧ JSON_parse_ok (AttributesJSON c') = false.
Proof.
  intros [He ->]%validate_returned.
  assert (filter (λ d, type d = "broken_json")
            (all_errors' (draws w) {| clients := cs; workers := ws; tasks := ts |})
          = broken_json <$>
              filter (λ c, JSON_parse_ok (AttributesJSON c) = false) cs) as Hsel.
  { rewrite select_broken_json by done.
    by rewrite kind_all by apply broken_json_errors_reports. }
  split; [done|]. intros c. split.
  - intros Hin.
    assert (broken_json c ∈ broken_json <$>
              filter (λ c, JSON_parse_ok (AttributesJSON c) = false) cs) as Hin'.
    { rewrite <-Hsel. by apply list_elem_of_filter. }
    apply list_elem_of_fmap in Hin' as (c' & Heq & Hc').
    apply list_elem_of_filter in Hc' as [Hbad Hc'].
    exists c'. split_and!; [done| |done].
    by apply (f_equal entityId) in Heq.
  - intros (c' & Hc' & Hid & Hbad).
    assert (broken_json c ∈ filter (λ d, type d = "broken_json")
              (all_errors' (draws w) {| clients := cs; workers := ws; tasks := ts |}))
      as Hin.
    { rewrite Hsel. apply list_elem_of_fmap. exists c'. split.
      - unfold broken_json. by rewrite Hid.
      - by apply list_elem_of_filter. }
    by apply list_elem_of_filter in Hin as [_ Hin].
Qed.

(** X7: in a returned sequence the [overloaded_worker] warnings are, in order,
    one per worker whose [MaxLoadPerPhase] exceeds the number of entries of
    its [AvailableSlots], each citing both numbers; an identifier whose
    workers all have a load within that number gets no such warning. *)
Theorem overloaded_workers_flagged (cs : list Client) (ws : list Worker)
    (ts : list Task) (w w' : World) (errs : list ValidationError) :
  let slots x := Z.of_nat (length (elems (AvailableSlots x))) in
  validate' cs ws ts w = (Normal errs, w') →
  filter (λ d, type d = "overloaded_worker") errs
    = (λ x, overloaded_worker x (elems (AvailableSlots x))) <$>
        filter (λ x, slots x < MaxLoadPerPhase x) ws
  ∧ (∀ x, x ∈ ws → slots x < MaxLoadPerPhase x →
       overloaded_worker x (elems (AvailableSlots x)) ∈ errs
       ∧ message (overloaded_worker x (elems (AvailableSlots x)))
           = "MaxLoadPerPhase (" +:+ Number_toString (MaxLoadPerPhase x)
               +:+ ") exceeds available slots (" +:+ Number_toString (slots x)
               +:+ ")")
  ∧ (∀ i, (∀ x, x ∈ ws → WorkerID x = i → MaxLoadPerPhase x ≤ slots x) →
       Forall (λ d, type d = "overloaded_worker" → entityId d ≠ i) errs).
Proof.
  intros slots [He ->]%validate_returned.
  assert (filter (λ d, type d = "overloaded_worker")
            (all_errors' (draws w) {| clients := cs; workers := ws; tasks := ts |})
          = (λ x, overloaded_worker x (elems (AvailableSlots x))) <$>
              filter (λ x, slots x < MaxLoadPerPhase x) ws) as Hsel.
  { rewrite select_overloaded by done.
    by rewrite kind_all by apply overloaded_errors_reports. }
  split_and!; [done| |].
  - intros x Hx Hlt. split; [|done].
    assert (overloaded_worker x (elems (AvailableSlots x))
              ∈ filter (λ d, type d = "overloaded_worker")
                  (all_errors' (draws w)
                     {| clients := cs; workers := ws; tasks := ts |})) as Hin.
    { rewrite Hsel. apply list_elem_of_fmap. exists x. split; [done|].
      by apply list_elem_of_filter. }
    by apply list_elem_of_filter in Hin as [_ Hin].
  - intros i Hi. apply Forall_forall. intros d Hd Htype Hid.
    assert (d ∈ (λ x, overloaded_worker x (elems (AvailableSlots x))) <$>
              filter (λ x, slots x < MaxLoadPerPhase x) ws) as Hin.
    { rewrite <-Hsel. by apply list_elem_of_filter. }
    apply list_elem_of_fmap in Hin as (x & -> & Hx).
    apply list_elem_of_filter in Hx as [Hlt Hx].
    specialize (Hi x Hx Hid). lia.
Qed.

(** X8: in a returned sequence the [skill_coverage] errors are, task by task and
    in order, one per listing in the task's [RequiredSkills] of a skill that
    no worker lists in its [Skills]; a skill that some worker offers is never
    reported, and one that no worker offers is reported once per listing. *)
Theorem skill_coverage_flagged (cs : list Client) (ws : list Worker)
    (ts : list Task) (w w' : World) (errs : list ValidationError) :
  let offered skill := ∃ x, x ∈ ws ∧ skill ∈ elems (Skills x) in
  let uncovered t :=
    filter (λ skill, skill ∉ (ws ≫= λ x, elems (Skills x)))
      (elems (RequiredSkills t)) in
  validate' cs ws ts w = (Normal errs, w') →
  filter (λ d, type d = "skill_coverage") errs
    = (ts ≫= λ t, missing_skill t <$> uncovered t)
  ∧ (∀ t skill, skill ∈ uncovered t
                ↔ skill ∈ elems (RequiredSkills t) ∧ ¬ offered skill)
  ∧ (∀ t skill, offered skill →
       length (filter (missing_skill t skill =.) (missing_skill t <$> uncovered t))
         = 0%nat)
  ∧ (∀ t skill, ¬ offered skill →
       length (filter (missing_skill t skill =.) (missing_skill t <$> uncovered t))
         = length (filter (skill =.) (elems (RequiredSkills t)))).
Proof.
  intros offered uncovered [He ->]%validate_returned.
  assert (∀ skill, skill ∈ (ws ≫= λ x, elems (Skills x)) ↔ offered skill)
    as Hoffered.
  { intros skill. rewrite list_elem_of_bind. unfold offered. naive_solver. }
  assert (∀ t skill,
    length (filter (missing_skill t skill =.) (missing_skill t <$> uncovered t))
      = if decide (skill ∉ (ws ≫= λ x, elems (Skills x)))
        then length (filter (skill =.) (elems (RequiredSkills t))) else 0%nat)
    as Hcount.
  { intros t skill. unfold uncovered.
    rewrite (filter_fmap_iff_length _ _ (skill =.)).
    2:{ intros x. split; [apply missing_skill_inj|by intros ->]. }
    by rewrite filter_filter_length. }
  split_and!.
  - rewrite select_skill_coverage by done.
    by rewrite kind_all by apply skill_coverage_errors_reports.
  - intros t skill. unfold uncovered.
    rewrite list_elem_of_filter, Hoffered. tauto.
  - intros t skill Hskill. rewrite Hcount.
    apply Hoffered in Hskill. by rewrite decide_False by tauto.
  - intros t skill Hskill. rewrite Hcount.
    rewrite <-Hoffered in Hskill. by rewrite decide_True.
Qed.

(** X9: a required skill that no worker offers shows up twice: the task gets a
    [skill_coverage] error for it, it has no qualified worker at all, and so
    it also gets the [max_concurrency] warning, citing 0 qualified workers,
    as soon as its [MaxConcurrent] is positive. *)
Theorem uncovered_skill_blocks_concurrency (cs : list Client) (ws : list Worker)
    (ts : list Task) (w w' : World) (errs : list ValidationError)
    (t : Task) (skill : string) :
  let e := {| clients := cs; workers := ws; tasks := ts |} in
  validate' cs ws ts w = (Normal errs, w') →
  t ∈ ts →
  skill ∈ elems (RequiredSkills t) →
  (∀ x, x ∈ ws → skill ∉ elems (Skills x)) →
  missing_skill t skill ∈ errs
  ∧ qualified e t = []
  ∧ (0 < MaxConcurrent t → infeasible_concurrency t 0 ∈ errs).
Proof.
  intros e [He ->]%validate_returned Ht Hskill Hnone. fold e.
  assert (qualified e t = []) as Hq.
  { unfold qualified. apply filter_none, Forall_forall. intros x Hx Hsub.
    apply (Hnone x Hx). by apply Hsub. }
  split_and!; [|done|].
  - unfold all_errors. rewrite !elem_of_app. do 8 right. left.
    unfold skill_coverage_errors. apply list_elem_of_bind. exists t.
    split; [|done]. apply list_elem_of_fmap. exists skill. split; [done|].
    apply list_elem_of_filter. split; [|done].
    intros (x & Hin & Hx)%list_elem_of_bind. by apply (Hnone x).
  - intros Hmax. unfold all_errors. rewrite !elem_of_app. do 9 right.
    unfold concurrency_errors. apply list_elem_of_fmap. exists t.
    rewrite Hq. split; [done|]. apply list_elem_of_filter. split; [|done].
    rewrite Hq. simpl. lia.
Qed.

(** X10: adding workers never adds a [skill_coverage] error: when every worker of
    one pass is also a worker of another pass over the same tasks, the
    [skill_coverage] errors of the second are a subsequence of those of the
    first. *)
Theorem more_workers_fewer_skill_errors (cs cs' : list Client)
    (ws ws' : list Worker) (ts : list Task) (w1 w1' w2 w2' : World)
    (errs1 errs2 : list ValidationError) :
  validate' cs ws ts w1 = (Normal errs1, w1') →
  validate' cs' ws' ts w2 = (Normal errs2, w2') →
  ws ⊆ ws' →
  filter (λ d, type d = "skill_coverage") errs2
    `sublist_of` filter (λ d, type d = "skill_coverage") errs1.
Proof.
  intros [_ ->]%validate_returned [_ ->]%validate_returned Hsub.
  rewrite !select_skill_coverage by done.
  rewrite !kind_all by apply skill_coverage_errors_reports.
  unfold skill_coverage_errors. simpl. apply bind_sublist_pointwise. intros t.
  apply fmap_sublist, filter_sublist_mono. intros skill Hnot Hin. apply Hnot.
  apply list_elem_of_bind in Hin as (x & Hskill & Hx).
  apply list_elem_of_bind. exists x. split; [done|]. by apply Hsub.
Qed.

(** X11: the number of [duplicate_id] errors of a collection is the number of
    its records less the number of distinct identifiers among them, an
    absent identifier counting as one more identifier. *)
Theorem duplicate_errors_count_distinct (cs : list Client) (ws : list Worker)
    (ts : list Task) (w w' : World) (errs : list ValidationError) :
  let dups ent :=
    length (filter (λ d, type d = "duplicate_id" ∧ entity d = ent) errs) in
  validate' cs ws ts w = (Normal errs, w') →
  (dups "clients" + length (remove_dups (ClientID <$> cs)))%nat = length cs
  ∧ (dups "workers" + length (remove_dups (WorkerID <$> ws)))%nat = length ws
  ∧ (dups "tasks" + length (remove_dups (TaskID <$> ts)))%nat = length ts.
Proof.
  intros dups [_ ->]%validate_returned. unfold dups.
  rewrite !select_duplicate by naive_solver. unfold duplicate_errors. simpl.
  rewrite !filter_app, !length_app. split_and!.
  - rewrite (filter_fmap_all duplicate_client) by done.
    rewrite !filter_fmap_none by naive_solver.
    rewrite length_fmap. simpl. rewrite !Nat.add_0_r.
    apply repeats_distinct_length.
  - rewrite (filter_fmap_all duplicate_worker) by done.
    rewrite !filter_fmap_none by naive_solver.
    rewrite length_fmap. simpl. rewrite !Nat.add_0_r.
    apply repeats_distinct_length.
  - rewrite (filter_fmap_all duplicate_task) by done.
    rewrite !filter_fmap_none by naive_solver.
    rewrite length_fmap. simpl.
    apply repeats_distinct_length.
Qed.


End Extras.

(** ** The store and the panels *)

Lemma severity_key_inj (s1 s2 : Severity) :
  ValidationPanel.severity_key s1 = ValidationPanel.severity_key s2 ↔ s1 = s2.
Proof. split; [|by intros ->]. by destruct s1, s2. Qed.

Lemma severity_tally (l : list ValidationError) (acc : gmap string Z) (s : Severity) :
  or_zero (foldl (λ acc error,
                    <[ValidationPanel.severity_key (severity error) :=
                        or_zero (acc !! ValidationPanel.severity_key (severity error))
                        + 1]> acc) acc l
             !! ValidationPanel.severity_key s)
    = or_zero (acc !! ValidationPanel.severity_key s)
      + Z.of_nat (length (filter (λ e, severity e = s) l)).
Proof.
  revert acc. induction l as [|d l IH]; intros acc; simpl; [lia|].
  rewrite IH, filter_cons. destruct (decide (severity d = s)) as [->|Hne].
  - rewrite lookup_insert_eq, or_zero_Some. simpl length. lia.
  - rewrite lookup_insert_ne by (by intros ?%severity_key_inj). lia.
Qed.

Lemma severity_partition (l : list ValidationError) :
  length l = (length (filter (λ e, severity e = error) l)
              + length (filter (λ e, severity e = warning) l)
              + length (filter (λ e, severity e = info) l))%nat.
Proof.
  induction l as [|d l IH]; [done|]. rewrite !filter_cons.
  destruct (severity d); simpl; lia.
Qed.

Lemma map_if_same {A} (P : A → Prop) `{∀ x, Decision (P x)} (f : A → A)
    (l : list A) :
  Forall (λ x, ¬ P x) l → (λ x, if decide (P x) then f x else x) <$> l = l.
Proof.
  induction 1 as [|x l Hx Hl IH]; [done|].
  rewrite fmap_cons, IH. by rewrite decide_False.
Qed.

Section Interface.

Context {Config Priorities : Type}.

Implicit Types (state : DataContext.DataState Config Priorities).
Implicit Types (action : DataContext.DataAction Config Priorities).

(** X13: the validation panel and the export panel count alike: the tally by
    severity that the first builds gives the numbers of errors and of
    warnings that the second obtains by filtering, and the three tallies add
    up to the total. *)
Theorem panel_counts_agree state :
  ValidationPanel.criticalErrors state = ExportPanel.criticalErrors state
  ∧ ValidationPanel.warnings state = ExportPanel.warnings state
  ∧ ValidationPanel.totalErrors state
      = ValidationPanel.criticalErrors state + ValidationPanel.warnings state
        + ValidationPanel.infos state.
Proof.
  unfold ValidationPanel.criticalErrors, ValidationPanel.warnings,
    ValidationPanel.infos, ValidationPanel.totalErrors,
    ValidationPanel.errorsByType, ExportPanel.criticalErrors,
    ExportPanel.warnings.
  pose proof (severity_tally (DataContext.validationErrors state) ∅) as Htally.
  pose proof (Htally error) as Herror. pose proof (Htally warning) as Hwarning.
  pose proof (Htally info) as Hinfo. simpl in Herror, Hwarning, Hinfo.
  rewrite Herror, Hwarning, Hinfo, !lookup_empty. simpl.
  pose proof (severity_partition (DataContext.validationErrors state)). lia.
Qed.

Lemma criticals_none (l : list ValidationError) :
  bool_decide (Z.of_nat (length (filter (λ e, severity e = error) l)) = 0) = true
  ↔ Forall (λ d, severity d ≠ error) l.
Proof.
  rewrite bool_decide_eq_true. split.
  - intros Hlen. apply Forall_forall. intros d Hd Hsev.
    assert (d ∈ filter (λ e, severity e = error) l) as Hin
      by (by apply list_elem_of_filter).
    destruct (filter _ l); [by apply elem_of_nil in Hin|simpl in Hlen; lia].
  - intros Hall. by rewrite filter_none.
Qed.

Lemma error_piece T (l : list ValidationError) :
  reports T l → Forall kind_profile l →
  T ∉ ["overloaded_worker"; "phase_saturation"; "max_concurrency"] →
  Forall (λ d, severity d ≠ error) l ↔ l = [].
Proof.
  intros Hl Hprof HT. split; [|by intros ->].
  destruct l as [|d l]; [done|]. intros Hall. exfalso.
  apply Forall_cons in Hl as [[Hd _] _]. apply Forall_cons in Hprof as [Hprof _].
  apply Forall_cons in Hall as [Hsev _].
  apply HT. rewrite <-Hd, !elem_of_cons.
  unfold kind_profile in Hprof. naive_solver.
Qed.

Lemma warning_piece T (l : list ValidationError) :
  reports T l → Forall kind_profile l →
  T ∈ ["overloaded_worker"; "phase_saturation"; "max_concurrency"] →
  Forall (λ d, severity d ≠ error) l ↔ True.
Proof.
  intros Hl Hprof HT. split; [done|]. intros _.
  apply Forall_forall. intros d Hd Hsev.
  apply (proj1 (Forall_forall _ _) Hl) in Hd as Hkind. destruct Hkind as [Hkind _].
  apply (proj1 (Forall_forall _ _) Hprof) in Hd as Hp.
  rewrite <-Hkind in HT. set_unfold in HT. clear Hl Hprof Hd Hkind.
  unfold kind_profile in Hp.
  repeat destruct Hp as [Hp|Hp]; destruct Hp as (Htype & Hs & _);
    try congruence; rewrite Htype in HT; by repeat destruct HT as [HT|HT].
Qed.

(** X14: once the errors that a pass returns are stored, the export panel lets
    the user export exactly when the collections break none of the rules
    reported with severity [error], among them that every slot is an
    integer of 1 or more; overloaded workers, saturated phases and
    infeasible concurrency, which are warnings, do not block the export. *)
Theorem export_gate_after_validation (Math_random : nat → string)
    (JSON_parse_ok : string → bool) (cs : list Client) (ws : list Worker)
    (ts : list Task) (w w' : World) (errs : list ValidationError) state :
  let e := {| clients := cs; workers := ws; tasks := ts |} in
  validate Math_random JSON_parse_ok cs ws ts w = (Normal errs, w') →
  ExportPanel.canExport
    (DataContext.dataReducer state (DataContext.SET_VALIDATION_ERRORS errs)) = true
  ↔ breaks_no_error_rule JSON_parse_ok e.
Proof.
  intros e [He ->]%validate_returned. fold e.
  unfold ExportPanel.canExport, ExportPanel.criticalErrors. simpl.
  rewrite criticals_none.
  assert (slots_ok e = true) as Hslots.
  { unfold arrays_ok in He. rewrite !andb_true_iff in He. tauto. }
  pose proof (all_errors_profile Math_random JSON_parse_ok (draws w) e) as Hprof.
  revert Hprof. unfold all_errors. rewrite !Forall_app.
  intros (P1 & P2 & P3 & P4 & P5 & P6 & P7 & P8 & P9 & P10).
  rewrite (error_piece "missing_required_field"),
    (error_piece "duplicate_id"), (error_piece "malformed_list"),
    (error_piece "out_of_range"), (error_piece "broken_json"),
    (error_piece "unknown_reference"), (warning_piece "overloaded_worker"),
    (warning_piece "phase_saturation"), (error_piece "skill_coverage"),
    (warning_piece "max_concurrency")
    by first [assumption | by eauto with reports_db | set_unfold; naive_solver].
  unfold breaks_no_error_rule.
  rewrite missing_errors_nil, duplicate_errors_nil,
    (malformed_errors_nil _ Hslots), out_of_range_errors_nil,
    broken_json_errors_nil, unknown_reference_errors_nil,
    skill_coverage_errors_nil.
  tauto.
Qed.

(** X15: only [SET_VALIDATION_ERRORS] touches the stored errors: after any other
    action, an edit of a record included, the stored errors, the counters of
    both panels and the export gate are what they were, whatever the edit
    did to the data. *)
Theorem other_actions_keep_errors state action :
  (∀ errs, action ≠ DataContext.SET_VALIDATION_ERRORS errs) →
  let state' := DataContext.dataReducer state action in
  DataContext.validationErrors state' = DataContext.validationErrors state
  ∧ ExportPanel.canExport state' = ExportPanel.canExport state
  ∧ ExportPanel.criticalErrors state' = ExportPanel.criticalErrors state
  ∧ ValidationPanel.totalErrors state' = ValidationPanel.totalErrors state.
Proof.
  intros Hother state'.
  assert (DataContext.validationErrors state' = DataContext.validationErrors state)
    as Hsame.
  { subst state'. destruct action; try done. by destruct (Hother payload). }
  unfold ExportPanel.canExport, ExportPanel.criticalErrors,
    ValidationPanel.totalErrors. by rewrite Hsame.
Qed.

Lemma spread_client_twice c data :
  DataContext.spread_client (DataContext.spread_client c data) data
    = DataContext.spread_client c data.
Proof. destruct c, data as [[] [] [] [] [] []]; reflexivity. Qed.

Lemma spread_worker_twice x data :
  DataContext.spread_worker (DataContext.spread_worker x data) data
    = DataContext.spread_worker x data.
Proof. destruct x, data as [[] [] [] [] [] [] []]; reflexivity. Qed.

Lemma spread_task_twice t data :
  DataContext.spread_task (DataContext.spread_task t data) data
    = DataContext.spread_task t data.
Proof. destruct t, data as [[] [] [] [] [] [] []]; reflexivity. Qed.

Lemma update_twice {A} (key : A → option string) (merge : A → A)
    (i : option string) (l : list A) :
  (∀ x, merge (merge x) = merge x) →
  (λ x, if decide (key x = i) then merge x else x)
    <$> ((λ x, if decide (key x = i) then merge x else x) <$> l)
  = (λ x, if decide (key x = i) then merge x else x) <$> l.
Proof.
  intros Hmerge. rewrite <-list_fmap_compose. apply list_fmap_ext.
  intros _ x _. simpl. destruct (decide (key x = i)) as [Hx|Hx].
  - destruct (decide (key (merge x) = i)); [apply Hmerge|done].
  - by rewrite decide_False.
Qed.

(** X16: every action but [ADD_RULE] is idempotent: dispatching it a second time
    changes nothing more.  In particular an update by identifier that
    renames the records it matches does not touch them again. *)
Theorem actions_idempotent state action :
  (∀ rule, action ≠ DataContext.ADD_RULE rule) →
  DataContext.dataReducer (DataContext.dataReducer state action) action
    = DataContext.dataReducer state action.
Proof.
  intros Hother.
  destruct action as [payload|payload|payload|payload|payload|payload|payload
                     |payload|payload|i data|i data|i data]; simpl; try done.
  - by destruct (Hother payload).
  - f_equal. rewrite list_filter_filter. apply list_filter_iff. tauto.
  - f_equal. apply (update_twice ClientID (λ c, DataContext.spread_client c data)).
    intros. apply spread_client_twice.
  - f_equal. apply (update_twice WorkerID (λ x, DataContext.spread_worker x data)).
    intros. apply spread_worker_twice.
  - f_equal. apply (update_twice TaskID (λ t, DataContext.spread_task t data)).
    intros. apply spread_task_twice.
Qed.

(** X17: an update whose identifier no record of the collection carries leaves
    the store as it is; an update that does not set the identifier field
    keeps the identifiers of the collection, in order; and an update never
    changes the number of records. *)
Theorem update_by_id state (i : option string)
    (for_client : DataContext.PartialClient.t)
    (for_worker : DataContext.PartialWorker.t)
    (for_task : DataContext.PartialTask.t) :
  let sc := DataContext.dataReducer state (DataContext.UPDATE_CLIENT i for_client) in
  let sw := DataContext.dataReducer state (DataContext.UPDATE_WORKER i for_worker) in
  let st := DataContext.dataReducer state (DataContext.UPDATE_TASK i for_task) in
  ((Forall (λ c, ClientID c ≠ i) (DataContext.clients state) → sc = state)
   ∧ (Forall (λ x, WorkerID x ≠ i) (DataContext.workers state) → sw = state)
   ∧ (Forall (λ t, TaskID t ≠ i) (DataContext.tasks state) → st = state))
  ∧ ((DataContext.PartialClient.ClientID for_client = None →
      ClientID <$> DataContext.clients sc = ClientID <$> DataContext.clients state)
     ∧ (DataContext.PartialWorker.WorkerID for_worker = None →
        WorkerID <$> DataContext.workers sw
          = WorkerID <$> DataContext.workers state)
     ∧ (DataContext.PartialTask.TaskID for_task = None →
        TaskID <$> DataContext.tasks st = TaskID <$> DataContext.tasks state))
  ∧ (length (DataContext.clients sc) = length (DataContext.clients state)
     ∧ length (DataContext.workers sw) = length (DataContext.workers state)
     ∧ length (DataContext.tasks st) = length (DataContext.tasks state)).
Proof.
  intros sc sw st. subst sc sw st. simpl. split_and!.
  - intros Hnone. rewrite map_if_same by done. by destruct state.
  - intros Hnone. rewrite map_if_same by done. by destruct state.
  - intros Hnone. rewrite map_if_same by done. by destruct state.
  - intros Hid. rewrite <-list_fmap_compose. apply list_fmap_ext.
    intros _ c _. simpl. destruct (decide (ClientID c = i)); [|done].
    unfold DataContext.spread_client. simpl. by rewrite Hid.
  - intros Hid. rewrite <-list_fmap_compose. apply list_fmap_ext.
    intros _ x _. simpl. destruct (decide (WorkerID x = i)); [|done].
    unfold DataContext.spread_worker. simpl. by rewrite Hid.
  - intros Hid. rewrite <-list_fmap_compose. apply list_fmap_ext.
    intros _ t _. simpl. destruct (decide (TaskID t = i)); [|done].
    unfold DataContext.spread_task. simpl. by rewrite Hid.
  - by rewrite length_fmap.
  - by rewrite length_fmap.
  - by rewrite length_fmap.
Qed.

(** X18: removing a rule by identifier removes every rule that carries it and
    keeps the others in order; removing a rule just added gives back the
    store when its identifier was new. *)
Theorem remove_rule_by_id state (i : string) (rule : DataContext.Rule Config) :
  let state' := DataContext.dataReducer state (DataContext.REMOVE_RULE i) in
  Forall (λ r, DataContext.id r ≠ i) (DataContext.rules state')
  ∧ DataContext.rules state' `sublist_of` DataContext.rules state
  ∧ (∀ r, r ∈ DataContext.rules state → DataContext.id r ≠ i →
       r ∈ DataContext.rules state')
  ∧ (Forall (λ r, DataContext.id r ≠ DataContext.id rule) (DataContext.rules state) →
     DataContext.dataReducer
       (DataContext.dataReducer state (DataContext.ADD_RULE rule))
       (DataContext.REMOVE_RULE (DataContext.id rule)) = state).
Proof.
  intros state'. subst state'. simpl. split_and!.
  - apply Forall_forall. by intros r [? _]%list_elem_of_filter.
  - apply sublist_filter.
  - intros r Hr Hne. by apply list_elem_of_filter.
  - intros Hnew. rewrite filter_app, filter_all by done.
    rewrite filter_cons_False by (by intros Hne; apply Hne).
    rewrite filter_nil, app_nil_r. by destruct state.
Qed.

Lemma or_else_falsy (x : option string) (d : string) :
  falsy x = true → or_else x d = d.
Proof.
  destruct x as [x|]; simpl; [|done]. intros Hx. by rewrite Hx.
Qed.

Lemma missing_ids_unknown (Math_random : nat → string) (n : nat) (e : Engine) :
  Forall (λ d, field d ∈ ["ClientID"; "WorkerID"; "TaskID"] →
               entityId d = Some "unknown")
    (missing_errors Math_random n e).
Proof.
  unfold missing_errors. rewrite !Forall_app.
  split_and!; apply Forall_drawn; intros k x; unfold missing_of;
    rewrite Forall_app; split;
    destruct (falsy _) eqn:Hfalsy; constructor; try apply Forall_nil_2;
    intros Hfield; unfold missing_client_id, missing_worker_id, missing_task_id;
    cbn [entityId];
    first [by rewrite or_else_falsy | by set_unfold in Hfield; naive_solver].
Qed.

(** X19: what the grid shows on a row after a pass has been stored.  The error
    for a missing identifier is attributed to the identifier [unknown], so
    it is shown only on rows whose identifier is literally [unknown], never
    on the row that lacks its identifier, although one such error is stored
    for each such row; and a [phase_saturation] warning, attributed to the
    system, is shown on no row of any collection. *)
Theorem grid_attribution_gaps (Math_random : nat → string)
    (JSON_parse_ok : string → bool) (cs : list Client) (ws : list Worker)
    (ts : list Task) (w w' : World) (errs : list ValidationError) state :
  validate Math_random JSON_parse_ok cs ws ts w = (Normal errs, w') →
  let state' :=
    DataContext.dataReducer state (DataContext.SET_VALIDATION_ERRORS errs) in
  let missing_id d :=
    type d = "missing_required_field"
    ∧ field d ∈ ["ClientID"; "WorkerID"; "TaskID"] in
  (∀ ent i d, d ∈ DataGrid.getEntityErrors state' ent i → missing_id d →
     i = Some "unknown")
  ∧ (∀ c, c ∈ cs → falsy (ClientID c) = true →
       Forall (λ d, ¬ missing_id d)
         (DataGrid.getEntityErrors state' "clients" (ClientID c)))
  ∧ (∀ x, x ∈ ws → falsy (WorkerID x) = true →
       Forall (λ d, ¬ missing_id d)
         (DataGrid.getEntityErrors state' "workers" (WorkerID x)))
  ∧ (∀ t, t ∈ ts → falsy (TaskID t) = true →
       Forall (λ d, ¬ missing_id d)
         (DataGrid.getEntityErrors state' "tasks" (TaskID t)))
  ∧ length (filter (λ d, type d = "missing_required_field" ∧ field d = "ClientID")
              errs)
      = length (filter (λ c, falsy (ClientID c) = true) cs)
  ∧ length (filter (λ d, type d = "missing_required_field" ∧ field d = "WorkerID")
              errs)
      = length (filter (λ x, falsy (WorkerID x) = true) ws)
  ∧ length (filter (λ d, type d = "missing_required_field" ∧ field d = "TaskID")
              errs)
      = length (filter (λ t, falsy (TaskID t) = true) ts)
  ∧ (∀ ent i, ent ∈ ["clients"; "workers"; "tasks"] →
       Forall (λ d, type d ≠ "phase_saturation")
         (DataGrid.getEntityErrors state' ent i)).
Proof.
  intros [He ->]%validate_returned state' missing_id.
  set (e := {| clients := cs; workers := ws; tasks := ts |}).
  assert (∀ ent i d, d ∈ DataGrid.getEntityErrors state' ent i → missing_id d →
            i = Some "unknown") as Hunknown.
  { intros ent i d [[_ Hid] Hd]%list_elem_of_filter [Htype Hfield].
    simpl in Hd.
    assert (d ∈ filter (λ d, type d = "missing_required_field")
                  (all_errors Math_random JSON_parse_ok (draws w) e)) as Hin
      by (by apply list_elem_of_filter).
    rewrite select_missing in Hin by done.
    rewrite kind_all in Hin by apply missing_errors_reports.
    pose proof (proj1 (Forall_forall _ _)
                  (missing_ids_unknown Math_random (draws w) e) d Hin Hfield).
    congruence. }
  assert (∀ ent (i : option string), falsy i = true →
            Forall (λ d, ¬ missing_id d) (DataGrid.getEntityErrors state' ent i))
    as Hrow.
  { intros ent i Hi. apply Forall_forall. intros d Hd Hmissing.
    rewrite (Hunknown ent i d Hd Hmissing) in Hi. discriminate Hi. }
  split_and!; [done|by intros; apply Hrow..| | | |].
  - rewrite (select_missing _ _
               (λ d, type d = "missing_required_field" ∧ field d = "ClientID"))
      by naive_solver.
    apply (missing_counts Math_random (draws w) e).
  - rewrite (select_missing _ _
               (λ d, type d = "missing_required_field" ∧ field d = "WorkerID"))
      by naive_solver.
    apply (missing_counts Math_random (draws w) e).
  - rewrite (select_missing _ _
               (λ d, type d = "missing_required_field" ∧ field d = "TaskID"))
      by naive_solver.
    apply (missing_counts Math_random (draws w) e).
  - intros ent i Hent. apply Forall_forall.
    intros d [[Hentity _] Hd]%list_elem_of_filter Htype. simpl in Hd.
    pose proof (proj1 (Forall_forall _ _)
                  (all_errors_profile Math_random JSON_parse_ok (draws w) e) d Hd)
      as Hprof.
    unfold kind_profile in Hprof. rewrite Htype, Hentity in Hprof.
    set_unfold in Hent. clear Hunknown Hrow.
    destruct Hent as [->|[->|[->|[]]]];
      repeat destruct Hprof as [Hprof|Hprof];
      destruct Hprof as (Hkind & _ & Hrest);
      first [discriminate Hkind | destruct Hrest as [Hrest _]; discriminate Hrest].
Qed.

End Interface.

(** ** Instances of the further properties *)

(** The scenario gives errors of eight kinds, in the order of the checks. *)
Lemma errors_in_check_order_witness :
  ∃ errs w',
    validate sample_random sample_JSON [busy_client] [busy_worker] [busy_task] fresh
      = (Normal errs, w')
    ∧ type <$> errs
        = ["malformed_list"; "out_of_range"; "broken_json"; "unknown_reference";
           "overloaded_worker"; "phase_saturation"; "skill_coverage";
           "max_concurrency"]
    ∧ StronglySorted in_check_order errs.
Proof.
  eexists _, _. split; [vm_compute; reflexivity|]. split; [reflexivity|].
  apply (errors_in_check_order sample_random sample_JSON
           [busy_client] [busy_worker] [busy_task] fresh _ _ eq_refl).
Defined.

Lemma kinds_fix_severity_and_entity_witness :
  ∃ errs w',
    validate sample_random sample_JSON [busy_client] [busy_worker] [busy_task] fresh
      = (Normal errs, w')
    ∧ Forall (λ d, kind_profile d ∧ type d ≠ "circular_corun"
                   ∧ type d ≠ "conflicting_rules") errs.
Proof.
  eexists _, _. split; [vm_compute; reflexivity|].
  apply (kinds_fix_severity_and_entity sample_random sample_JSON
           [busy_client] [busy_worker] [busy_task] fresh _ _ eq_refl).
Defined.

(** A worker with slots 1 and 2 and load 1 alone breaks no rule; a worker
    with the slots 0, 1.5, [NaN] and 1 does. *)
Lemma no_errors_iff_clean_witness :
  let e := {| clients := []; workers := [rust_worker]; tasks := [] |} in
  let e' := {| clients := []; workers := [odd_worker]; tasks := [] |} in
  safe_listings e = true ∧ exact_sums e = true
  ∧ (validate sample_random sample_JSON [] [rust_worker] [] fresh).1 = Normal []
  ∧ clean sample_JSON e
  ∧ safe_listings e' = true ∧ exact_sums e' = true
  ∧ ¬ clean sample_JSON e'.
Proof.
  intros e e'.
  split_and!; [reflexivity|reflexivity|reflexivity| |reflexivity|reflexivity|].
  - destruct (proj1 (no_errors_iff_clean sample_random sample_JSON
                       [] [rust_worker] [] fresh eq_refl eq_refl) eq_refl)
      as [_ Hclean].
    exact Hclean.
  - intros Hclean.
    assert ((validate sample_random sample_JSON [] [odd_worker] [] fresh).1
            = Normal []) as Hrun.
    { apply (no_errors_iff_clean sample_random sample_JSON [] [odd_worker] []
               fresh); [reflexivity..|]. split; [reflexivity|exact Hclean]. }
    vm_compute in Hrun. discriminate Hrun.
Defined.

(** Of the slots 0, 1.5, [NaN] and 1 of one worker, the first three are
    reported. *)
Lemma slot_errors_flagged_witness :
  ∃ errs w',
    validate sample_random sample_JSON [] [odd_worker] [] fresh = (Normal errs, w')
    ∧ filter (λ d, type d = "malformed_list") errs
        = [invalid_slot odd_worker 0; invalid_slot odd_worker (Dec 15 1);
           invalid_slot odd_worker NaN]
    ∧ message (invalid_slot odd_worker (Dec 15 1))
        = "Invalid slot value: 1.5. Must be positive integer"
    ∧ malformed_slots odd_worker ∉ errs.
Proof.
  eexists _, _. split; [vm_compute; reflexivity|].
  destruct (slot_errors_flagged sample_random sample_JSON
              [] [odd_worker] [] fresh _ _ eq_refl)
    as [Hsel Hnever].
  split_and!; [exact (eq_trans Hsel eq_refl)|reflexivity|apply Hnever].
Defined.

Lemma broken_json_flagged_witness :
  ∃ errs w',
    validate sample_random sample_JSON [busy_client] [busy_worker] [busy_task] fresh
      = (Normal errs, w')
    ∧ filter (λ d, type d = "broken_json") errs = [broken_json busy_client].
Proof.
  eexists _, _. split; [vm_compute; reflexivity|].
  destruct (broken_json_flagged sample_random sample_JSON
              [busy_client] [busy_worker] [busy_task] fresh _ _ eq_refl)
    as [Hsel _].
  exact (eq_trans Hsel eq_refl).
Defined.

(** The scenario's worker has load 3 and two slots. *)
Lemma overloaded_workers_flagged_witness :
  ∃ errs w',
    validate sample_random sample_JSON [busy_client] [busy_worker] [busy_task] fresh
      = (Normal errs, w')
    ∧ filter (λ d, type d = "overloaded_worker") errs
        = [overloaded_worker busy_worker [Int 0; Int 1]]
    ∧ message (overloaded_worker busy_worker [Int 0; Int 1])
        = "MaxLoadPerPhase (3) exceeds available slots (2)".
Proof.
  eexists _, _. split; [vm_compute; reflexivity|].
  destruct (overloaded_workers_flagged sample_random sample_JSON
              [busy_client] [busy_worker] [busy_task] fresh _ _ eq_refl)
    as [Hsel _].
  split; [exact (eq_trans Hsel eq_refl)|reflexivity].
Defined.

Lemma skill_coverage_flagged_witness :
  ∃ errs w',
    validate sample_random sample_JSON [busy_client] [busy_worker] [busy_task] fresh
      = (Normal errs, w')
    ∧ filter (λ d, type d = "skill_coverage") errs
        = [missing_skill busy_task "Rust"].
Proof.
  eexists _, _. split; [vm_compute; reflexivity|].
  destruct (skill_coverage_flagged sample_random sample_JSON
              [busy_client] [busy_worker] [busy_task] fresh _ _ eq_refl)
    as [Hsel _].
  exact (eq_trans Hsel eq_refl).
Defined.

(** Nobody offers Rust: the task is reported for the skill and, allowing
    two concurrent runs, for its concurrency. *)
Lemma uncovered_skill_blocks_concurrency_witness :
  ∃ errs w',
    validate sample_random sample_JSON [busy_client] [busy_worker] [busy_task] fresh
      = (Normal errs, w')
    ∧ missing_skill busy_task "Rust" ∈ errs
    ∧ infeasible_concurrency busy_task 0 ∈ errs.
Proof.
  eexists _, _. split; [vm_compute; reflexivity|].
  destruct (uncovered_skill_blocks_concurrency sample_random sample_JSON
              [busy_client] [busy_worker] [busy_task] fresh _ _ busy_task "Rust"
              eq_refl)
    as (Hskill & _ & Hmax).
  - apply list_elem_of_here.
  - apply list_elem_of_here.
  - intros x Hx Hin. apply list_elem_of_singleton in Hx. subst x.
    apply list_elem_of_singleton in Hin. discriminate Hin.
  - split; [exact Hskill|]. apply Hmax. reflexivity.
Defined.

(** With a second worker who offers Rust the [skill_coverage] error goes. *)
Lemma more_workers_fewer_skill_errors_witness :
  ∃ errs1 w1 errs2 w2,
    validate sample_random sample_JSON [busy_client] [busy_worker] [busy_task] fresh
      = (Normal errs1, w1)
    ∧ validate sample_random sample_JSON [busy_client] [busy_worker; rust_worker]
        [busy_task] fresh = (Normal errs2, w2)
    ∧ filter (λ d, type d = "skill_coverage") errs2 = []
    ∧ filter (λ d, type d = "skill_coverage") errs2
        `sublist_of` filter (λ d, type d = "skill_coverage") errs1.
Proof.
  eexists _, _, _, _. split; [vm_compute; reflexivity|].
  split; [vm_compute; reflexivity|].
  split; [reflexivity|].
  apply (more_workers_fewer_skill_errors sample_random sample_JSON
           [busy_client] [busy_client] [busy_worker] [busy_worker; rust_worker]
           [busy_task] fresh _ fresh _ _ _ eq_refl eq_refl).
  intros x Hx. apply list_elem_of_singleton in Hx. subst x.
  apply list_elem_of_here.
Defined.

(** Three clients, two of them with the same identifier: one duplicate,
    two distinct identifiers. *)
Lemma duplicate_errors_count_distinct_witness :
  let cs := [busy_client; a_client (Some "C2") 3 (Some []); busy_client] in
  ∃ errs w',
    validate sample_random sample_JSON cs [] [] fresh = (Normal errs, w')
    ∧ length (remove_dups (ClientID <$> cs)) = 2%nat
    ∧ (length (filter (λ d, type d = "duplicate_id" ∧ entity d = "clients") errs)
       + 2)%nat = 3%nat.
Proof.
  intros cs. eexists _, _. split; [vm_compute; reflexivity|]. split; [reflexivity|].
  destruct (duplicate_errors_count_distinct sample_random sample_JSON
              cs [] [] fresh _ _ eq_refl) as [Hcs _].
  exact Hcs.
Defined.


(** Warnings only: the export is allowed.  A slot of 1.5 blocks it. *)
Lemma export_gate_after_validation_witness :
  let t2 := a_task (Some "T2") 4 (Some []) (Some [2]) 1 in
  let e := {| clients := []; workers := [rust_worker]; tasks := [t2] |} in
  let e' := {| clients := []; workers := [odd_worker]; tasks := [] |} in
  (∃ errs w',
     validate sample_random sample_JSON [] [rust_worker] [t2] fresh
       = (Normal errs, w')
     ∧ errs = [phase_saturation 2 4 1]
     ∧ ExportPanel.canExport
         (DataContext.dataReducer sample_store
            (DataContext.SET_VALIDATION_ERRORS errs)) = true
     ∧ breaks_no_error_rule sample_JSON e)
  ∧ (∃ errs w',
       validate sample_random sample_JSON [] [odd_worker] [] fresh
         = (Normal errs, w')
       ∧ ExportPanel.canExport
           (DataContext.dataReducer sample_store
              (DataContext.SET_VALIDATION_ERRORS errs)) = false
       ∧ ¬ breaks_no_error_rule sample_JSON e').
Proof.
  intros t2 e e'. split.
  - eexists _, _. split; [vm_compute; reflexivity|]. split; [reflexivity|].
    split; [reflexivity|].
    apply (export_gate_after_validation sample_random sample_JSON
             [] [rust_worker] [t2] fresh _ _ sample_store eq_refl).
    reflexivity.
  - eexists _, _. split; [vm_compute; reflexivity|]. split; [reflexivity|].
    intros Hrule.
    apply (export_gate_after_validation sample_random sample_JSON
             [] [odd_worker] [] fresh _ _ sample_store eq_refl) in Hrule.
    vm_compute in Hrule. discriminate Hrule.
Defined.

(** Renaming the client and correcting its priority leaves the stored error
    and the closed export gate in place. *)
Lemma other_actions_keep_errors_witness :
  let state' := DataContext.dataReducer sample_store rename_client in
  PriorityLevel <$> DataContext.clients state' = [3]
  ∧ DataContext.validationErrors state' = [invalid_priority busy_client]
  ∧ ExportPanel.canExport state' = ExportPanel.canExport sample_store.
Proof.
  intros state'. split; [reflexivity|].
  destruct (other_actions_keep_errors sample_store rename_client)
    as (Herrs & Hgate & _).
  - intros errs Heq. discriminate Heq.
  - split; [exact Herrs|exact Hgate].
Defined.

Lemma actions_idempotent_witness :
  DataContext.dataReducer (DataContext.dataReducer sample_store rename_client)
    rename_client
  = DataContext.dataReducer sample_store rename_client.
Proof.
  apply (actions_idempotent sample_store rename_client).
  intros rule Heq. discriminate Heq.
Defined.

(** A client without identifier: its error is stored, and attributed to
    [unknown], so the row of the client, looked up by its absent
    identifier, shows nothing. *)
Lemma grid_attribution_gaps_witness :
  let c := a_client None 3 (Some []) in
  ∃ errs w',
    validate sample_random sample_JSON [c] [] [] fresh = (Normal errs, w')
    ∧ errs = [missing_client_id "0.0" c]
    ∧ entityId (missing_client_id "0.0" c) = Some "unknown"
    ∧ DataGrid.getEntityErrors
        (DataContext.dataReducer sample_store
           (DataContext.SET_VALIDATION_ERRORS errs)) "clients" (ClientID c)
      = []
    ∧ Forall (λ d, ¬ (type d = "missing_required_field"
                      ∧ field d ∈ ["ClientID"; "WorkerID"; "TaskID"]))
        (DataGrid.getEntityErrors
           (DataContext.dataReducer sample_store
              (DataContext.SET_VALIDATION_ERRORS errs)) "clients" (ClientID c)).
Proof.
  intros c. eexists _, _. split; [vm_compute; reflexivity|].
  split; [reflexivity|]. split; [reflexivity|]. split; [reflexivity|].
  destruct (grid_attribution_gaps sample_random sample_JSON [c] [] [] fresh _ _
              sample_store eq_refl) as (_ & Hrow & _).
  apply (Hrow c); [apply list_elem_of_here|reflexivity].
Defined.
